(** * coroot: time-series engine, topology constructor and deployment watcher

    A shallow embedding of the Go sources

      - [timeseries] (funcs.go, timeseries.go: the second and third documents
        of src/constructor/k8s.go),
      - [constructor/k8s.go] (pod ingestion),
      - [model/world.go] (application lookup),
      - [watchers/deployments/deployments.go] (deployment detection, metric
        snapshots, notifications),

    followed by the properties of these functions.

    Conventions.  A Go pointer that may be [nil] is an [option]; a slice is a
    [list]; [float32] is an IEEE-754 binary32 value ([spec_float] with
    precision 24 and maximal exponent 128); [int64] timestamps are integers
    with the wrap-around written out; objects that Go mutates in place are
    threaded through the functions explicitly, and a pointer into a slice is
    the index of the element. *)

From Stdlib Require Import ZArith Bool Lia.
From Stdlib Require Import Floats.SpecFloat.
From stdpp Require Import base option list strings gmap.

Local Open Scope Z_scope.

(* ===================================================================== *)
(** * float32 *)
(* ===================================================================== *)

Module F32.

Definition prec : Z := 24.
Definition emax : Z := 128.

Definition float32 : Type := spec_float.

(** [float32(math.NaN())] *)
Definition NaN : float32 := S754_nan.

Definition add (x y : float32) : float32 := SFadd prec emax x y.
Definition sub (x y : float32) : float32 := SFsub prec emax x y.
Definition mul (x y : float32) : float32 := SFmul prec emax x y.
Definition div (x y : float32) : float32 := SFdiv prec emax x y.

(** Go's comparison operators on floats: every comparison with a NaN is
    false, except [!=], which is true. *)
Definition eqb (x y : float32) : bool := SFeqb x y.
Definition ltb (x y : float32) : bool := SFltb x y.
Definition leb (x y : float32) : bool := SFleb x y.
Definition gtb (x y : float32) : bool := SFltb y x.
Definition geb (x y : float32) : bool := SFleb y x.
Definition neqb (x y : float32) : bool := negb (SFeqb x y).

(** The value of an integer constant converted to float32. *)
Definition of_Z (z : Z) : float32 := binary_normalize prec emax z 0 false.

Definition zero : float32 := S754_zero false.
Definition one : float32 := Eval vm_compute in of_Z 1.

(** A well-formed binary32 datum. *)
Definition valid (x : float32) : bool := valid_binary prec emax x.

End F32.

Abbreviation float32 := F32.float32.
Abbreviation NaN := F32.NaN.

(** [func IsNaN(v float32) bool { return v != v }] *)
Definition IsNaN (v : float32) : bool := F32.neqb v v.

(* ===================================================================== *)
(** * Time and Duration *)
(* ===================================================================== *)

(** [timeseries.Time] and [timeseries.Duration] are [int64] numbers of
    seconds. *)
Definition Time : Type := Z.
Definition Duration : Type := Z.

(** Two's complement wrap-around of 64-bit signed arithmetic. *)
Definition wrap64 (z : Z) : Z := (z + 2 ^ 63) mod 2 ^ 64 - 2 ^ 63.

Definition int64_range (z : Z) : Prop := - 2 ^ 63 <= z < 2 ^ 63.

Module TimeOps.

(** Modelled from the spec: the methods of [timeseries.Time] (time.go is
    not among the sources).  "integer timestamp and interval, both
    quantized to a series' step"; [Add] and [Sub] are [int64] addition and
    subtraction, [Truncate] rounds to a multiple of the step with Go's
    integer division (which rounds towards zero; the quotient by a zero
    step, on which Go's division panics, is 0 here), [After] is [>] and
    [IsZero] compares with the zero value. *)
Definition Add (t : Time) (d : Duration) : Time := wrap64 (t + d).
Definition Sub (t u : Time) : Duration := wrap64 (t - u).
Definition Truncate (t : Time) (d : Duration) : Time :=
  wrap64 (wrap64 (Z.quot t d) * d).
Definition After (t u : Time) : bool := u <? t.
Definition IsZero (t : Time) : bool := t =? 0.

(** Modelled from the spec: the duration constants ([Second] is the unit,
    "the last 24 hours"). *)
Definition Second : Duration := 1.
Definition Minute : Duration := 60 * Second.
Definition Hour : Duration := 60 * Minute.
Definition Day : Duration := 24 * Hour.

End TimeOps.

(* ===================================================================== *)
(** * timeseries/funcs.go *)
(* ===================================================================== *)

(** [type F func(Time, float32, float32) float32] *)
Definition F : Type := Time -> float32 -> float32 -> float32.

Definition Any (t : Time) (v1 v2 : float32) : float32 :=
  if negb (IsNaN v1) then v1 else v2.

Definition NanSum (t : Time) (sum v : float32) : float32 :=
  let sum := if IsNaN sum then F32.zero else sum in
  let sum := if negb (IsNaN v) then F32.add sum v else sum in
  sum.

Definition Max (t : Time) (max v : float32) : float32 :=
  if IsNaN max then v
  else if IsNaN v then max
  else if F32.gtb v max then v
  else max.

Definition Min (t : Time) (min v : float32) : float32 :=
  if IsNaN min then v
  else if IsNaN v then min
  else if F32.ltb v min then v
  else min.

Definition Defined (t : Time) (v : float32) : float32 :=
  if IsNaN v then F32.zero else F32.one.


(* ===================================================================== *)
(** * timeseries/timeseries.go *)
(* ===================================================================== *)

Record TimeSeriesData : Type := mkTS {
  ts_from : Time;
  ts_step : Duration;
  ts_data : list float32;
}.

(** [*TimeSeries]: [None] is the nil pointer. *)
Definition TimeSeries : Type := option TimeSeriesData.

Definition NewWithData (from : Time) (step : Duration) (data : list float32)
  : TimeSeries :=
  Some (mkTS from step data).

Definition New (from : Time) (pointsCount : nat) (step : Duration) : TimeSeries :=
  NewWithData from step (replicate pointsCount NaN).

Definition IsEmpty (ts : TimeSeries) : bool :=
  match ts with None => true | Some _ => false end.

(** [len()] of the series: 0 for nil. *)
Definition ts_len (ts : TimeSeries) : nat :=
  match ts with
  | None => 0%nat
  | Some d => length (ts_data d)
  end.

(** ** Iterator *)

Record Iterator : Type := mkIter {
  it_from : Time;
  it_step : Duration;
  it_data : list float32;
  it_idx : Z;
  it_t : Time;
}.

Definition Iter (ts : TimeSeries) : Iterator :=
  match ts with
  | None => mkIter 0 0 [] 0 0
  | Some d =>
      mkIter (ts_from d) (ts_step d) (ts_data d) (-1)
             (TimeOps.Add (ts_from d) (- ts_step d))
  end.

(** Modelled from the spec: the methods of [timeseries.Iterator]
    (iterator.go is not among the sources).  "produces a lazy, single-pass
    sequence of (time, value) pairs in chronological order; missing values
    are yielded, not filtered": [Next] moves to the following index and time
    and reports whether a sample is there, [Value] reads the sample under the
    cursor. *)
Definition Next (it : Iterator) : Iterator * bool :=
  let it' := mkIter (it_from it) (it_step it) (it_data it) (it_idx it + 1)
                    (TimeOps.Add (it_t it) (it_step it)) in
  (it', it_idx it' <? Z.of_nat (length (it_data it'))).

(** [Value] is only called after [Next] has returned true, when the index is
    in range ([Next_true_Value] below); the default is never read. *)
Definition Value (it : Iterator) : Time * float32 :=
  (it_t it, default NaN (it_data it !! Z.to_nat (it_idx it))).

(** [for iter.Next() { t, v := iter.Value(); ... }]: the samples the loop
    body sees, in order.  [fuel] bounds the number of iterations. *)
Fixpoint drain (fuel : nat) (it : Iterator) : list (Time * float32) :=
  match fuel with
  | O => []
  | S fuel' =>
      let '(it', ok) := Next it in
      if ok then Value it' :: drain fuel' it' else []
  end.

(** The same samples, read off the series directly: sample [i] at time
    [from + i*step], every addition being an [int64] addition. *)
Fixpoint samples_from (t : Time) (step : Duration) (data : list float32)
  : list (Time * float32) :=
  match data with
  | [] => []
  | v :: data' =>
      let t' := TimeOps.Add t step in
      (t', v) :: samples_from t' step data'
  end.

Definition samples (ts : TimeSeries) : list (Time * float32) :=
  match ts with
  | None => []
  | Some d =>
      samples_from (TimeOps.Add (ts_from d) (- ts_step d)) (ts_step d) (ts_data d)
  end.

(** ** Read operations *)

(** [Last] indexes [data[len(data)-1]]: on a non-nil series without points
    the index is -1 and Go panics ([None]). *)
Definition Last (ts : TimeSeries) : option float32 :=
  match ts with
  | None => Some NaN
  | Some d => last (ts_data d)
  end.

Definition Reduce (ts : TimeSeries) (f : F) : float32 :=
  if IsEmpty ts then NaN
  else fold_left (fun accumulator '(t, v) => f t accumulator v) (samples ts) NaN.

Definition Map (ts : TimeSeries) (f : Time -> float32 -> float32) : TimeSeries :=
  match ts with
  | None => None
  | Some d => NewWithData (ts_from d) (ts_step d)
                (List.map (fun '(t, v) => f t v) (samples ts))
  end.

Definition WithNewValue (ts : TimeSeries) (newValue : float32) : TimeSeries :=
  match ts with
  | None => None
  | Some d => NewWithData (ts_from d) (ts_step d)
                (replicate (ts_len ts) newValue)
  end.

Definition LastNotNull (ts : TimeSeries) : Time * float32 :=
  if IsEmpty ts then (0, NaN)
  else fold_left (fun (acc : Time * float32) '(t, v) =>
                    if negb (IsNaN v) then (t, v) else acc)
                 (samples ts) (0, F32.zero).

(** ** Increase *)

(** The body of the loop of [Increase]: [prev] and [prevStatus] are the
    values of the previous iteration, [v] and [s] the current samples of [x]
    and of [status]. *)
Definition increase_delta (prev prevStatus v : float32) : float32 :=
  if negb (IsNaN v) && negb (IsNaN prev) then
    if F32.geb (F32.sub v prev) F32.zero then F32.sub v prev else v
  else if IsNaN prev && F32.eqb prevStatus F32.one then v
  else NaN.

(** [for iter.Next() && statusIter.Next() { ... }]: the loop stops as soon as
    one of the two series is exhausted. *)
Fixpoint increase_loop (prev prevStatus : float32) (xs ss : list float32)
  : list float32 :=
  match xs, ss with
  | v :: xs', s :: ss' =>
      increase_delta prev prevStatus v :: increase_loop v s xs' ss'
  | _, _ => []
  end.

Definition Increase (x status : TimeSeries) : TimeSeries :=
  match x, status with
  | Some xd, Some sd =>
      NewWithData (ts_from xd) (ts_step xd)
        (increase_loop NaN NaN (ts_data xd) (ts_data sd))
  | _, _ => None
  end.

(** ** Aggregate2 *)

(** [data] has [x.len()] cells, initially the zero value; the loop fills the
    first [min(len x, len y)] of them. *)
Fixpoint aggregate2_loop (f : float32 -> float32 -> float32)
  (xs ys : list float32) : list float32 :=
  match xs with
  | [] => []
  | xv :: xs' =>
      match ys with
      | yv :: ys' => f xv yv :: aggregate2_loop f xs' ys'
      | [] => replicate (length xs) F32.zero
      end
  end.

Definition Aggregate2 (x y : TimeSeries) (f : float32 -> float32 -> float32)
  : TimeSeries :=
  match x, y with
  | Some xd, Some yd =>
      NewWithData (ts_from xd) (ts_step xd)
        (aggregate2_loop f (ts_data xd) (ts_data yd))
  | _, _ => None
  end.

Definition Mul (x y : TimeSeries) : TimeSeries := Aggregate2 x y F32.mul.
Definition Div (x y : TimeSeries) : TimeSeries := Aggregate2 x y F32.div.
Definition Sub (x y : TimeSeries) : TimeSeries := Aggregate2 x y F32.sub.
Definition Sum (x y : TimeSeries) : TimeSeries := Aggregate2 x y F32.add.

(** ** Fill *)

(** [Fill] mutates the receiver: the model returns the series after the call.
    [None] is a run-time panic (division by zero, index out of range). *)

(** [a / b] on [int64]. *)
Definition int64_quot (a b : Z) : option Z :=
  if b =? 0 then None else Some (wrap64 (Z.quot a b)).

(** The local variables of [Fill] that live across iterations, together with
    the receiver's array.  [fs_writes] is a ghost record of the assignments
    [ts.data[iNext] = data[i]] the loop has executed, oldest first. *)
Record fill_state : Type := mkFill {
  fs_data : list float32;
  fs_tNext : Time;
  fs_iNext : Z;
  fs_t : Time;
  fs_changed : bool;
  fs_writes : list (nat * float32);
}.

(** The loop [for i := range data { ... }] of [Fill]. *)
Fixpoint fill_loop (tsfrom : Time) (tsstep : Duration) (to : Time)
  (step : Duration) (data : list float32) (st : fill_state)
  : option fill_state :=
  match data with
  | [] => Some st
  | v :: data' =>
      let t := TimeOps.Add (fs_t st) step in
      let st := mkFill (fs_data st) (fs_tNext st) (fs_iNext st) t
                       (fs_changed st) (fs_writes st) in
      if to <? t then Some st                                   (* break *)
      else if t <? tsfrom then fill_loop tsfrom tsstep to step data' st
      else if t <? fs_tNext st then fill_loop tsfrom tsstep to step data' st
      else
        let located :=
          if fs_iNext st =? -1 then
            match int64_quot (wrap64 (t - tsfrom)) tsstep with
            | None => None
            | Some i => Some (i, TimeOps.Truncate t tsstep)
            end
          else Some (fs_iNext st, fs_tNext st) in
        match located with
        | None => None
        | Some (iNext, tNext) =>
            if iNext <? Z.of_nat (length (fs_data st)) then
              if iNext <? 0 then None
              else
                fill_loop tsfrom tsstep to step data'
                  (mkFill (<[Z.to_nat iNext := v]> (fs_data st))
                          (TimeOps.Add tNext tsstep)
                          (wrap64 (iNext + 1))
                          t
                          (if negb (fs_changed st) && negb (IsNaN v)
                           then true else fs_changed st)
                          (fs_writes st ++ [(Z.to_nat iNext, v)]))
            else
              fill_loop tsfrom tsstep to step data'
                (mkFill (fs_data st) tNext iNext t
                        (fs_changed st) (fs_writes st))
        end
  end.

Definition fill_to (d : TimeSeriesData) : Time :=
  TimeOps.Add (ts_from d)
    (wrap64 (wrap64 (Z.of_nat (length (ts_data d)) - 1) * ts_step d)).

Definition fill_run (d : TimeSeriesData) (from : Time) (step : Duration)
  (data : list float32) : option fill_state :=
  fill_loop (ts_from d) (ts_step d) (fill_to d) step data
    (mkFill (ts_data d) 0 (-1) (TimeOps.Add from (- step)) false []).

(** [Fill] on a non-nil receiver: the receiver after the call and the
    returned flag. *)
Definition Fill (d : TimeSeriesData) (from : Time) (step : Duration)
  (data : list float32) : option (TimeSeriesData * bool) :=
  match fill_run d from step data with
  | None => None
  | Some st => Some (mkTS (ts_from d) (ts_step d) (fs_data st), fs_changed st)
  end.

(** The assignments to the receiver's array that a call performs. *)
Definition Fill_writes (d : TimeSeriesData) (from : Time) (step : Duration)
  (data : list float32) : list (nat * float32) :=
  match fill_run d from step data with
  | None => []
  | Some st => fs_writes st
  end.

(* ===================================================================== *)
(** * Strings *)
(* ===================================================================== *)

(** [strings.HasSuffix] and [strings.TrimSuffix] of the Go standard
    library. *)
Definition HasSuffix (s suffix : string) : bool :=
  let n := String.length s in
  let k := String.length suffix in
  (k <=? n)%nat && String.eqb (String.substring (n - k) k s) suffix.

Definition TrimSuffix (s suffix : string) : string :=
  if HasSuffix s suffix
  then String.substring 0 (String.length s - String.length suffix) s
  else s.

(** [sort.Strings]: ascending byte-wise lexicographic order. *)
Fixpoint insert_sorted (x : string) (l : list string) : list string :=
  match l with
  | [] => [x]
  | y :: l' => if String.leb x y then x :: l else y :: insert_sorted x l'
  end.

Definition sort_strings (l : list string) : list string :=
  foldr insert_sorted [] l.

(** Modelled from the spec: [utils.StringSet] (package utils is not among
    the sources), "the set of container images seen": a set of strings whose
    [Items] are listed in ascending order. *)
Module StringSet.
Definition t : Type := list string.
Definition empty : t := [].
Definition Add (ss : t) (s : string) : t :=
  if existsb (String.eqb s) ss then ss else ss ++ [s].
Definition Items (ss : t) : list string := sort_strings ss.
Definition Len (ss : t) : nat := length ss.
End StringSet.

(** A Go [map[string]V] whose iteration order matters to the model: an
    association list in insertion order. *)
Fixpoint assoc_get {V : Type} (k : string) (m : list (string * V)) : option V :=
  match m with
  | [] => None
  | (k', v) :: m' => if String.eqb k k' then Some v else assoc_get k m'
  end.

Fixpoint assoc_set {V : Type} (k : string) (v : V) (m : list (string * V))
  : list (string * V) :=
  match m with
  | [] => [(k, v)]
  | (k', v') :: m' =>
      if String.eqb k k' then (k, v) :: m' else (k', v') :: assoc_set k v m'
  end.

(* ===================================================================== *)
(** * timeseries/aggregate.go *)
(* ===================================================================== *)

(** Modelled from the spec: [timeseries.Aggregate] (aggregate.go is not
    among the sources).  "an accumulator across an unbounded number of
    same-shaped series; folds incoming series into a running series lazily
    materialized on read": [Add] records a non-nil series, [Get] folds the
    recorded series point by point with the combinator, starting from
    missing, over the window of the first one; without input it is nil. *)
Module Aggregate.
Record t : Type := mk { f : F; input : list TimeSeriesData }.

Definition NewAggregate (f : F) : t := mk f [].

Definition Add (a : t) (ts : TimeSeries) : t :=
  match ts with
  | None => a
  | Some d => mk (f a) (input a ++ [d])
  end.

(** One recorded series folded into the running array. *)
Fixpoint fold_in (f : F) (acc : list float32) (smp : list (Time * float32))
  : list float32 :=
  match acc, smp with
  | a :: acc', (t, v) :: smp' => f t a v :: fold_in f acc' smp'
  | _, _ => acc
  end.

Definition Get (a : t) : TimeSeries :=
  match input a with
  | [] => None
  | d0 :: _ =>
      NewWithData (ts_from d0) (ts_step d0)
        (fold_left (fun acc d => fold_in (f a) acc (samples (Some d)))
                   (input a)
                   (replicate (length (ts_data d0)) NaN))
  end.
End Aggregate.

(* ===================================================================== *)
(** * package model *)
(* ===================================================================== *)

(* Only world.go of package model is among the sources.  The other structs
   are declared here from the data model of the specification, each with the
   fields that the functions below read or write. *)

(** Modelled from the spec: [type ApplicationKind string] and its constants,
    "kind is one of a closed set (Deployment, StatefulSet, DaemonSet,
    StaticPods, ReplicaSet, ...)". *)
Definition ApplicationKind : Type := string.
Definition ApplicationKindDeployment : ApplicationKind := "Deployment".
Definition ApplicationKindStatefulSet : ApplicationKind := "StatefulSet".
Definition ApplicationKindDaemonSet : ApplicationKind := "DaemonSet".
Definition ApplicationKindStaticPods : ApplicationKind := "StaticPods".
Definition ApplicationKindReplicaSet : ApplicationKind := "ReplicaSet".

(** Modelled from the spec: "ApplicationId: (namespace, kind, name) tuple". *)
Module ApplicationId.
Record t : Type := mk {
  Namespace : string;
  Kind : ApplicationKind;
  Name : string;
}.
(** Go's [==] on the struct: field-wise equality of the three strings. *)
#[global] Instance eq_dec : EqDecision t.
Proof. solve_decision. Defined.
End ApplicationId.

Definition NewApplicationId (ns : string) (kind : ApplicationKind) (name : string)
  : ApplicationId.t :=
  ApplicationId.mk ns kind name.

(** Modelled from the spec: the container of an instance, with the image it
    runs. *)
Module Container.
Record t : Type := mk {
  Image : string;
}.
End Container.

(** Modelled from the spec: the "Pod metadata block" of an instance, with
    the replica set that owns the pod and its life-span series. *)
Module Pod.
Record t : Type := mk {
  ReplicaSet : string;
  LifeSpan : TimeSeries;
}.
(** [&model.Pod{}] *)
Definition zero : t := mk "" None.
End Pod.

(** [model.Listen{IP, Port, Proxied}] *)
Definition Listen : Type := (string * string * bool)%type.

(** Modelled from the spec: "Instance: owns zero-or-one Pod metadata block
    and a mapping of container-name to Container; owns listen-address
    facts". *)
Module Instance.
Record t : Type := mk {
  Name : string;
  NodeName : option string;
  Pod : option Pod.t;
  Containers : list (string * Container.t);
  TcpListens : gmap Listen bool;
}.
End Instance.

(** [int]-valued enumeration [ApplicationDeploymentState]. *)
Definition ApplicationDeploymentState : Type := Z.

(** Modelled from the spec: "Notifications{State, per-channel
    sent-state}". *)
Module ApplicationDeploymentNotifications.
Record t : Type := mk {
  State : ApplicationDeploymentState;
  Slack : ApplicationDeploymentState;
  Teams : ApplicationDeploymentState;
}.
(** [&model.ApplicationDeploymentNotifications{}] *)
Definition zero : t := mk 0 0 0.
End ApplicationDeploymentNotifications.

(** Modelled from the spec: the "fixed-size summary attached to a rollout
    event", with the fields [calcMetricsSnapshot] fills. *)
Module MetricsSnapshot.
Record t : Type := mk {
  Timestamp : Time;
  Duration_ : Duration;
  Requests : Z;
  Errors : Z;
  Latency : list (string * Z);
  CPUUsage : float32;
  MemoryLeak : Z;
  OOMKills : Z;
  Restarts : Z;
  LogErrors : Z;
  LogWarnings : Z;
}.
End MetricsSnapshot.

(** Modelled from the spec: "ApplicationDeployment: (ApplicationId, Name,
    StartedAt, FinishedAt), optional Details{ContainerImages}, optional
    MetricsSnapshot, optional Notifications". *)
Module ApplicationDeployment.
Record t : Type := mk {
  ApplicationId_ : ApplicationId.t;
  Name : string;
  StartedAt : Time;
  FinishedAt : Time;
  Details : option (list string);
  MetricsSnapshot_ : option MetricsSnapshot.t;
  Notifications : option ApplicationDeploymentNotifications.t;
}.

Definition set_FinishedAt (d : t) (x : Time) : t :=
  mk (ApplicationId_ d) (Name d) (StartedAt d) x (Details d)
     (MetricsSnapshot_ d) (Notifications d).
Definition set_Details (d : t) (x : option (list string)) : t :=
  mk (ApplicationId_ d) (Name d) (StartedAt d) (FinishedAt d) x
     (MetricsSnapshot_ d) (Notifications d).
Definition set_MetricsSnapshot (d : t) (x : option MetricsSnapshot.t) : t :=
  mk (ApplicationId_ d) (Name d) (StartedAt d) (FinishedAt d) (Details d)
     x (Notifications d).
Definition set_Notifications (d : t)
  (x : option ApplicationDeploymentNotifications.t) : t :=
  mk (ApplicationId_ d) (Name d) (StartedAt d) (FinishedAt d) (Details d)
     (MetricsSnapshot_ d) x.
End ApplicationDeployment.

(** Modelled from the spec: "Application: owns Instances (keyed by instance
    name, created on demand)", its category and its recorded deployments. *)
Module Application.
Record t : Type := mk {
  Id : ApplicationId.t;
  Category : string;
  Instances : list Instance.t;
  Deployments : list ApplicationDeployment.t;
}.

Definition set_Instances (a : t) (x : list Instance.t) : t :=
  mk (Id a) (Category a) x (Deployments a).
Definition set_Deployments (a : t) (x : list ApplicationDeployment.t) : t :=
  mk (Id a) (Category a) (Instances a) x.

(** Modelled from the spec: [NewApplication] and [GetOrCreateInstance]
    (application.go is not among the sources).  "Instances (keyed by
    instance name, created on demand)"; "repeated observations for the same
    pod identity mutate the same object rather than duplicating it".  The
    returned pointer is the index of the instance. *)
Definition NewApplication (id : ApplicationId.t) : t := mk id "" [] [].

Definition GetOrCreateInstance (a : t) (name : string) (node : option string)
  : t * nat :=
  match list_find (fun i => Instance.Name i = name) (Instances a) with
  | Some (k, _) => (a, k)
  | None =>
      (set_Instances a (Instances a ++ [Instance.mk name node None [] ∅]),
       length (Instances a))
  end.
End Application.

(** Modelled from the spec: a node, known by its name. *)
Module Node.
Record t : Type := mk {
  Name : string;
}.
End Node.

(* ===================================================================== *)
(** * model/world.go *)
(* ===================================================================== *)

Module World.
Record t : Type := mk {
  Nodes : list Node.t;
  Applications : list Application.t;
  KubeStateMetricsInstalled : bool;
}.

Definition set_Applications (w : t) (x : list Application.t) : t :=
  mk (Nodes w) x (KubeStateMetricsInstalled w).
Definition set_KubeStateMetricsInstalled (w : t) (x : bool) : t :=
  mk (Nodes w) (Applications w) x.

(** [NewWorld]: no nodes, applications or services yet. *)
Definition NewWorld : t := mk [] [] false.

(** A [*Application] into [w.Applications] is the index of the element;
    [None] is nil. *)
Definition GetApplication (w : t) (id : ApplicationId.t) : option nat :=
  fst <$> list_find (fun a => Application.Id a = id) (Applications w).

Definition GetOrCreateApplication (w : t) (id : ApplicationId.t) : t * nat :=
  match GetApplication w id with
  | Some app => (w, app)
  | None =>
      (set_Applications w (Applications w ++ [Application.NewApplication id]),
       length (Applications w))
  end.

Definition GetNode (w : t) (name : string) : option string :=
  Node.Name <$> (snd <$> list_find (fun n => Node.Name n = name) (Nodes w)).
End World.

(** [model.MetricValues]: one label set and one series. *)
Module MetricValues.
Record t : Type := mk {
  Labels : gmap string string;
  Values : TimeSeries;
}.
(** [m.Labels[k]]: the empty string when the key is absent. *)
Definition label (m : t) (k : string) : string := default "" (Labels m !! k).
End MetricValues.

(* ===================================================================== *)
(** * constructor/k8s.go: pod ingestion *)
(* ===================================================================== *)

Section Constructor.

(** [net.ParseIP(s) != nil] of the Go standard library. *)
Variable ParseIP : string -> bool.

(** A [*model.Instance]: the index of the application in the world and of
    the instance in the application. *)
Definition InstancePtr : Type := (nat * nat)%type.

(** The owner resolution of [podInfo] (the [switch] of the loop body):
    [None] is the [default: continue] branch. *)
Definition podAppId (ns pod nodeName ownerKind ownerName : string)
  : option ApplicationId.t :=
  if String.eqb ownerKind "" || String.eqb ownerKind "<none>"
     || String.eqb ownerKind "Node" then
    Some (NewApplicationId ns ApplicationKindStaticPods
            (TrimSuffix pod ("-" ++ nodeName)))
  else if negb (String.eqb ownerName "") && negb (String.eqb ownerKind "") then
    Some (NewApplicationId ns ownerKind ownerName)
  else None.

(** The body of the loop of [podInfo] for one sample [m]; [None] is a panic
    ([Last] on a series without points). *)
Definition podInfo_step (st : World.t * gmap string InstancePtr)
  (m : MetricValues.t) : option (World.t * gmap string InstancePtr) :=
  let '(w, pods) := st in
  let w := World.set_KubeStateMetricsInstalled w true in
  let pod := MetricValues.label m "pod" in
  let ns := MetricValues.label m "namespace" in
  let ownerName := MetricValues.label m "created_by_name" in
  let ownerKind := MetricValues.label m "created_by_kind" in
  let nodeName := MetricValues.label m "node" in
  let uid := MetricValues.label m "uid" in
  let node := World.GetNode w nodeName in
  match podAppId ns pod nodeName ownerKind ownerName with
  | None => Some (w, pods)                                    (* continue *)
  | Some appId =>
      let '(w, app) := World.GetOrCreateApplication w appId in
      a ← World.Applications w !! app;
      let '(a, k) := Application.GetOrCreateInstance a pod node in
      instance ← Application.Instances a !! k;
      let podIp := MetricValues.label m "pod_ip" in
      let hostIp := MetricValues.label m "host_ip" in
      listens ←
        (if negb (String.eqb podIp "") && negb (String.eqb podIp hostIp)
            && ParseIP podIp
         then
           last ← Last (MetricValues.Values m);
           Some (<[(podIp, "0", false) := F32.eqb last F32.one]>
                   (Instance.TcpListens instance))
         else Some (Instance.TcpListens instance));
      let replicaSet :=
        if String.eqb ownerKind ApplicationKindReplicaSet
        then ownerName else "" in
      let instance :=
        Instance.mk (Instance.Name instance) (Instance.NodeName instance)
          (Some (Pod.mk replicaSet None))
          (Instance.Containers instance) listens in
      let a := Application.set_Instances a (<[k := instance]> (Application.Instances a)) in
      let w := World.set_Applications w (<[app := a]> (World.Applications w)) in
      Some (w, <[uid := (app, k)]> pods)
  end.

Definition podInfo (w : World.t) (metrics : list MetricValues.t)
  : option (World.t * gmap string InstancePtr) :=
  foldl (fun st m => st ← st; podInfo_step st m) (Some (w, ∅)) metrics.

End Constructor.

(* ===================================================================== *)
(** * watchers/deployments/deployments.go: deployment detection *)
(* ===================================================================== *)

(** [type rss struct { time; names }] *)
Definition rss : Type := (Time * list string)%type.

(** The first loop of [calcDeployments]: the life-span aggregate and the
    image set of every replica set.  The two Go maps are association lists
    in the order in which the replica sets are first met. *)
Definition collect_step
  (st : list (string * Aggregate.t) * list (string * StringSet.t))
  (instance : Instance.t)
  : list (string * Aggregate.t) * list (string * StringSet.t) :=
  let '(lifeSpans, images) := st in
  match Instance.Pod instance with
  | None => st
  | Some pod =>
      if String.eqb (Pod.ReplicaSet pod) "" then st
      else
        let rs := Pod.ReplicaSet pod in
        let ts := default (Aggregate.NewAggregate NanSum) (assoc_get rs lifeSpans) in
        let lifeSpans := assoc_set rs (Aggregate.Add ts (Pod.LifeSpan pod)) lifeSpans in
        let set := default StringSet.empty (assoc_get rs images) in
        let set := foldl (fun s c => StringSet.Add s (Container.Image c.2))
                         set (Instance.Containers instance) in
        (lifeSpans, assoc_set rs set images)
  end.

(** One pass of the inner loop [for name, iter := range iters]: every
    iterator is advanced; [None] is [done = true] (some iterator is
    exhausted).  Go leaves the order of the map unspecified; the names are
    sorted afterwards and the series of one world share their time grid. *)
Fixpoint rss_round (iters : list (string * Iterator)) (t : Time)
  (names : list string) : option (list (string * Iterator) * Time * list string) :=
  match iters with
  | [] => Some ([], t, names)
  | (name, iter) :: rest =>
      let '(iter, ok) := Next iter in
      if ok then
        let '(t, v) := Value iter in
        let names := if F32.gtb v F32.zero then names ++ [name] else names in
        match rss_round rest t names with
        | Some (rest', t, names) => Some ((name, iter) :: rest', t, names)
        | None => None
        end
      else None
  end.

(** The outer loop [for { ... }] that builds [rssOverTime]. *)
Fixpoint rss_loop (fuel : nat) (iters : list (string * Iterator))
  (rssOverTime : list rss) : list rss :=
  match fuel with
  | O => rssOverTime
  | S fuel' =>
      match rss_round iters 0 [] with
      | None => rssOverTime                                      (* done *)
      | Some (iters, t, names) =>
          if (length names =? 0)%nat then rss_loop fuel' iters rssOverTime
          else rss_loop fuel' iters (rssOverTime ++ [(t, sort_strings names)])
      end
  end.

(** The samples an iterator has not yet yielded. *)
Definition remaining (it : Iterator) : nat :=
  Z.to_nat (Z.of_nat (length (it_data it)) - (it_idx it + 1)).

(** The loop ends when the first iterator is exhausted, if not before. *)
Definition rss_fuel (iters : list (string * Iterator)) : nat :=
  match iters with
  | [] => 0%nat
  | (_, it) :: _ => S (remaining it)
  end.

(** The local variables of the second loop: the deployments found so far,
    the deployment in progress (a pointer to one of them: its index) and the
    previous single active name. *)
Record walk_state : Type := mkWalk {
  deployments : list ApplicationDeployment.t;
  deployment : option nat;
  prev : string;
}.

Definition new_deployment (id : ApplicationId.t) (name : string) (t : Time)
  : ApplicationDeployment.t :=
  ApplicationDeployment.mk id name t 0 None None None.

Definition set_finished (ds : list ApplicationDeployment.t) (i : nat) (t : Time)
  : list ApplicationDeployment.t :=
  match ds !! i with
  | Some d => <[i := ApplicationDeployment.set_FinishedAt d t]> ds
  | None => ds
  end.

(** The body of [for _, rss := range rssOverTime { switch len(rss.names) ... }]. *)
Definition walk_step (id : ApplicationId.t) (st : walk_state) (r : rss)
  : walk_state :=
  let '(time, names) := r in
  match names with
  | [] => st
  | [curr] =>
      if String.eqb (prev st) "" then mkWalk (deployments st) (deployment st) curr
      else
        let '(ds, dep) :=
          match deployment st with
          | Some i =>
              (if String.eqb curr
                    (default "" (ApplicationDeployment.Name <$> deployments st !! i))
               then set_finished (deployments st) i time
               else deployments st,
               None)
          | None => (deployments st, None)
          end in
        if String.eqb (prev st) curr then mkWalk ds dep (prev st)
        else
          let '(ds, i) :=
            match dep with
            | None => (ds ++ [new_deployment id curr time], length ds)
            | Some i => (ds, i)
            end in
          mkWalk (set_finished ds i time) None curr
  | _ =>
      if String.eqb (prev st) "" then st
      else
        match deployment st with
        | None =>
            let name :=
              default "" (List.find (fun n => negb (String.eqb n (prev st))) names) in
            mkWalk (deployments st ++ [new_deployment id name time])
                   (Some (length (deployments st))) name
        | Some _ => st
        end
  end.

(** The state of the second loop when it ends, for the life spans of the
    application's replica sets. *)
Definition calcDeployments_walk (app : Application.t) : walk_state :=
  let '(lifeSpans, _) := foldl collect_step ([], []) (Application.Instances app) in
  let iters := List.map (fun na => (na.1, Iter (Aggregate.Get na.2))) lifeSpans in
  let rssOverTime := rss_loop (rss_fuel iters) iters [] in
  foldl (walk_step (Application.Id app)) (mkWalk [] None "") rssOverTime.

Definition calcDeployments (app : Application.t) : list ApplicationDeployment.t :=
  if negb (String.eqb (ApplicationId.Kind (Application.Id app)) ApplicationKindDeployment)
     || (length (Application.Instances app) =? 0)%nat
  then []
  else
    let '(lifeSpans, images) :=
      foldl collect_step ([], []) (Application.Instances app) in
    if (length lifeSpans =? 0)%nat then []
    else
      List.map
        (fun d =>
           match assoc_get (ApplicationDeployment.Name d) images with
           | Some set =>
               ApplicationDeployment.set_Details d (Some (StringSet.Items set))
           | None => d
           end)
        (deployments (calcDeployments_walk app)).

(* ===================================================================== *)
(** * watchers/deployments/deployments.go: the watcher pass *)
(* ===================================================================== *)

(** [db.IntegrationSlack] and [db.IntegrationTeams]: the flag the watcher
    reads. *)
Record IntegrationSlack : Type := mkSlack { slack_Deployments : bool }.
Record IntegrationTeams : Type := mkTeams { teams_Deployments : bool }.

(** [db.Integrations]: a nil pointer is [None]. *)
Record Integrations : Type := mkIntegrations {
  Slack : option IntegrationSlack;
  Teams : option IntegrationTeams;
}.

Inductive Channel : Type := ChannelSlack | ChannelTeams.

(** What the watcher does to its collaborators, in order. *)
Inductive Event : Type :=
  (** [w.db.SaveApplicationDeployment(project.Id, d)] *)
  | EvSaveDeployment (d : ApplicationDeployment.t)
  (** [calcMetricsSnapshot(a, from, to, step)] for deployment [i] of
      application [app], with the bound [nextOrNow] in force *)
  | EvSnapshot (app i : nat) (d : ApplicationDeployment.t)
      (from to nextOrNow : Time)
  (** [client.SendDeployment(ctx, project, ds)] *)
  | EvSend (c : Channel) (d : ApplicationDeployment.t)
      (state : ApplicationDeploymentState) (ok : bool)
  (** [w.db.SaveApplicationDeploymentNotifications(project.Id, d)] *)
  | EvSaveNotifications (d : ApplicationDeployment.t).

Section Watcher.

(** The collaborators of the watcher: the durable store (a call answers
    whether it succeeded), the world loader, the notification clients and
    the constants of package model, which are not among the sources; and the
    snapshot calculation [calcMetricsSnapshot], which is, but reads series
    of package model that are not, so that the pass is stated for any such
    calculation. *)
Variable SaveApplicationDeployment : ApplicationDeployment.t -> bool.
Variable LoadWorld : Time -> Time -> Duration -> option World.t.
Variable calcMetricsSnapshot :
  Application.t -> Time -> Time -> Duration -> MetricsSnapshot.t.
Variable SendDeployment :
  Channel -> ApplicationDeployment.t -> ApplicationDeploymentState -> bool.
Variable CalcApplicationDeploymentStatuses :
  Application.t -> Time -> list (nat * ApplicationDeploymentState).
Variable NotifyOfDeployments : string -> bool.
Variable ApplicationDeploymentStateSummary : ApplicationDeploymentState.
Variable ApplicationDeploymentMetricsSnapshotShift : Duration.
Variable ApplicationDeploymentMetricsSnapshotWindow : Duration.

Definition calcInitialDeployment (app : Application.t) (now : Time)
  : ApplicationDeployment.t :=
  let '(name, images) :=
    foldl (fun '(name, images) i =>
             let name :=
               match Instance.Pod i with
               | Some pod =>
                   if negb (String.eqb (Pod.ReplicaSet pod) "")
                   then Pod.ReplicaSet pod else name
               | None => name
               end in
             let images :=
               foldl (fun s c =>
                        if negb (String.eqb (Container.Image c.2) "")
                        then StringSet.Add s (Container.Image c.2) else s)
                     images (Instance.Containers i) in
             (name, images))
          ("", StringSet.empty) (Application.Instances app) in
  ApplicationDeployment.mk (Application.Id app) name now now
    (if (0 <? StringSet.Len images)%nat then Some (StringSet.Items images) else None)
    None
    (Some (ApplicationDeploymentNotifications.mk
             ApplicationDeploymentStateSummary 0 0)).

(** ** discoverAndSaveDeployments *)

(** [for _, d := range deployments { ... }]: [None] is the early
    [return nil, cacheTo] after a failed save. *)
Fixpoint save_loop (app : Application.t) (ds : list ApplicationDeployment.t)
  (log : list Event) : option Application.t * list Event :=
  match ds with
  | [] => (Some app, log)
  | d :: ds' =>
      let known :=
        List.find (fun dd =>
                String.eqb (ApplicationDeployment.Name dd) (ApplicationDeployment.Name d)
                && (ApplicationDeployment.StartedAt dd =? ApplicationDeployment.StartedAt d))
             (Application.Deployments app) in
      let need :=
        match known with
        | None => true
        | Some k =>
            negb (ApplicationDeployment.FinishedAt k =? ApplicationDeployment.FinishedAt d)
        end in
      let saved := if need then SaveApplicationDeployment d else true in
      let log := if need then log ++ [EvSaveDeployment d] else log in
      if negb saved then (None, log)
      else
        let app :=
          match known with
          | None => Application.set_Deployments app (Application.Deployments app ++ [d])
          | Some _ => app
          end in
        save_loop app ds' log
  end.

(** The body of [for _, app := range world.Applications]. *)
Definition discover_app (cacheTo : Time) (app : Application.t)
  : option Application.t * list Event :=
  if negb (String.eqb (ApplicationId.Kind (Application.Id app)) ApplicationKindDeployment)
  then (Some app, [])                                           (* continue *)
  else
    let deployments := calcDeployments app in
    if (length (Application.Deployments app) =? 0)%nat
       && (length deployments =? 0)%nat
    then (Some app, [EvSaveDeployment (calcInitialDeployment app cacheTo)])
    else save_loop app deployments [].

(** The loop over the applications of the loaded world: the applications
    after the pass ([None] when the pass was abandoned) and the calls to the
    store. *)
Fixpoint discover_loop (cacheTo : Time) (apps : list Application.t)
  : option (list Application.t) * list Event :=
  match apps with
  | [] => (Some [], [])
  | app :: apps' =>
      match discover_app cacheTo app with
      | (None, log) => (None, log)
      | (Some app, log) =>
          let '(rest, log') := discover_loop cacheTo apps' in
          (cons app <$> rest, log ++ log')
      end
  end.

(** ** snapshotDeploymentMetrics *)

(** The body of [for i, d := range app.Deployments] for application number
    [app], whose deployments are [ds]. *)
Definition snapshot_step (cacheTo : Time) (step : Duration) (app : nat)
  (ds : list ApplicationDeployment.t) (i : nat)
  : list ApplicationDeployment.t * list Event :=
  match ds !! i with
  | None => (ds, [])
  | Some d =>
      if bool_decide (is_Some (ApplicationDeployment.MetricsSnapshot_ d))
         || TimeOps.IsZero (ApplicationDeployment.FinishedAt d)
      then (ds, [])
      else
        let from :=
          TimeOps.Truncate
            (TimeOps.Add (ApplicationDeployment.FinishedAt d)
                         ApplicationDeploymentMetricsSnapshotShift) step in
        let to :=
          TimeOps.Truncate
            (TimeOps.Add from ApplicationDeploymentMetricsSnapshotWindow) step in
        let nextOrNow :=
          if Z.of_nat i <? Z.of_nat (length ds) - 1
          then default 0 (ApplicationDeployment.StartedAt <$> ds !! S i)
          else cacheTo in
        if TimeOps.After to nextOrNow then (ds, [])
        else
          match LoadWorld from to step with
          | None => (ds, [])
          | Some world =>
              match World.GetApplication world (ApplicationDeployment.ApplicationId_ d) with
              | None => (ds, [])
              | Some a =>
                  match World.Applications world !! a with
                  | None => (ds, [])
                  | Some a =>
                      (<[i := ApplicationDeployment.set_MetricsSnapshot d
                                (Some (calcMetricsSnapshot a from to step))]> ds,
                       [EvSnapshot app i d from to nextOrNow])
                  end
              end
          end
  end.

Definition snapshot_app (cacheTo : Time) (step : Duration) (app : nat)
  (ds : list ApplicationDeployment.t)
  : list ApplicationDeployment.t * list Event :=
  foldl (fun '(ds, log) i =>
           let '(ds', log') := snapshot_step cacheTo step app ds i in
           (ds', log ++ log'))
        (ds, []) (seq 0 (length ds)).

(** The loop over the applications, numbered from [n]. *)
Fixpoint snapshot_loop (cacheTo : Time) (step : Duration) (n : nat)
  (applications : list Application.t) : list Application.t * list Event :=
  match applications with
  | [] => ([], [])
  | app :: rest =>
      let '(ds, log) := snapshot_app cacheTo step n (Application.Deployments app) in
      let '(rest', log') := snapshot_loop cacheTo step (S n) rest in
      (Application.set_Deployments app ds :: rest', log ++ log')
  end.

(** The loop of [snapshotDeploymentMetrics], once the cache client has
    answered with its latest timestamp [cacheTo] (without applications or
    without cache the function returns before the loop): the applications
    after the pass and the snapshots computed. *)
Definition snapshotDeploymentMetrics (cacheTo : Time) (step : Duration)
  (applications : list Application.t) : list Application.t * list Event :=
  snapshot_loop cacheTo step 0 applications.

(** ** sendNotifications *)

(** The body of the loop over the deployment statuses of one application;
    a status points to one of the application's deployments [ds]. *)
Definition notify_step (integrations : Integrations) (now : Time)
  (ds : list ApplicationDeployment.t) (s : nat * ApplicationDeploymentState)
  : list ApplicationDeployment.t * list Event :=
  let '(i, state) := s in
  match ds !! i with
  | None => (ds, [])
  | Some d =>
      if TimeOps.Day <? TimeOps.Sub now (ApplicationDeployment.StartedAt d)
      then (ds, [])
      else
        let n := default ApplicationDeploymentNotifications.zero
                   (ApplicationDeployment.Notifications d) in
        let d := ApplicationDeployment.set_Notifications d (Some n) in
        if state <=? ApplicationDeploymentNotifications.State n
        then (<[i := d]> ds, [])
        else
          let '(d, n, log, needSave) :=
            match Slack integrations with
            | Some cfg =>
                if slack_Deployments cfg
                   && (ApplicationDeploymentNotifications.Slack n <? state)
                then
                  let ok := SendDeployment ChannelSlack d state in
                  if ok then
                    let n := ApplicationDeploymentNotifications.mk
                               (ApplicationDeploymentNotifications.State n) state
                               (ApplicationDeploymentNotifications.Teams n) in
                    (ApplicationDeployment.set_Notifications d (Some n), n,
                     [EvSend ChannelSlack d state ok], true)
                  else (d, n, [EvSend ChannelSlack d state ok], false)
                else (d, n, [], false)
            | None => (d, n, [], false)
            end in
          let '(d, n, log, needSave) :=
            match Teams integrations with
            | Some cfg =>
                if teams_Deployments cfg
                   && (ApplicationDeploymentNotifications.Teams n <? state)
                then
                  let ok := SendDeployment ChannelTeams d state in
                  if ok then
                    let n := ApplicationDeploymentNotifications.mk
                               (ApplicationDeploymentNotifications.State n)
                               (ApplicationDeploymentNotifications.Slack n) state in
                    (ApplicationDeployment.set_Notifications d (Some n), n,
                     log ++ [EvSend ChannelTeams d state ok], true)
                  else (d, n, log ++ [EvSend ChannelTeams d state ok], needSave)
                else (d, n, log, needSave)
            | None => (d, n, log, needSave)
            end in
          if negb needSave then (<[i := d]> ds, log)
          else (<[i := d]> ds, log ++ [EvSaveNotifications d])
  end.

Definition notify_app (integrations : Integrations) (now : Time)
  (app : Application.t) : Application.t * list Event :=
  if negb (NotifyOfDeployments (Application.Category app)) then (app, [])
  else
    let '(ds, log) :=
      foldl (fun '(ds, log) s =>
               let '(ds', log') := notify_step integrations now ds s in
               (ds', log ++ log'))
            (Application.Deployments app, [])
            (CalcApplicationDeploymentStatuses app now) in
    (Application.set_Deployments app ds, log).

(** [sendNotifications] over the applications of the world: the
    applications after the pass and the calls to the notification clients
    and to the store. *)
Definition sendNotifications (integrations : Integrations) (now : Time)
  (applications : list Application.t) : list Application.t * list Event :=
  foldl (fun '(done, log) app =>
           let '(app', log') := notify_app integrations now app in
           (done ++ [app'], log ++ log'))
        ([], []) applications.

End Watcher.

(* ===================================================================== *)
(** * timeseries/timeseries.go: further operations *)
(* ===================================================================== *)

(** [math.MaxFloat32], the largest finite float32:
    [(2^24 - 1) * 2^104]. *)
Definition MaxFloat32 : float32 := S754_finite false (2 ^ 24 - 1) 104.

Definition IsInf (f : float32) (sign : Z) : bool :=
  (sign >=? 0) && F32.gtb f MaxFloat32
  || (sign <=? 0) && F32.ltb f (SFopp MaxFloat32).

(** [Set] on a non-nil receiver: the series after the call; [None] is a
    run-time panic (division by zero, index out of range). *)
Definition Set_ (d : TimeSeriesData) (t : Time) (v : float32)
  : option TimeSeriesData :=
  let t := TimeOps.Truncate t (ts_step d) in
  if t <? ts_from d then Some d
  else
    match int64_quot (wrap64 (t - ts_from d)) (ts_step d) with
    | None => None
    | Some idx =>
        if idx <? Z.of_nat (length (ts_data d)) then
          if idx <? 0 then None
          else Some (mkTS (ts_from d) (ts_step d)
                          (<[Z.to_nat idx := v]> (ts_data d)))
        else Some d
    end.

(** Go's built-in [copy(dst, src)]: the first [min(len(dst), len(src))]
    elements of [dst] are overwritten. *)
Definition go_copy {A : Type} (dst src : list A) : list A :=
  take (length dst) src ++ drop (length src) dst.

(** [LastN]: [n] is the (non-negative) number of values asked for. *)
Definition LastN (ts : TimeSeries) (n : nat) : list float32 :=
  let res := replicate n NaN in
  match ts with
  | None => res
  | Some d =>
      if (n =? 0)%nat then res
      else
        let l := length (ts_data d) in
        if (l <? n)%nat
        then take (n - l) res ++ go_copy (drop (n - l) res) (ts_data d)
        else go_copy res (drop (l - n) (ts_data d))
  end.

(* ===================================================================== *)
(** * constructor/k8s.go: services and pod labels *)
(* ===================================================================== *)

(** Modelled from the spec: "Service: identified by cluster IP; holds zero
    or more Connections that back-reference instances by actual remote IP"
    (service.go and connection.go are not among the sources); the fields are
    those that world.go and k8s.go read and write. *)
Module Connection.
Record t : Type := mk {
  ServiceRemoteIP : string;
  ActualRemoteIP : string;
}.
End Connection.

Module Service.
Record t : Type := mk {
  Name : string;
  Namespace : string;
  ClusterIP : string;
  Connections : list Connection.t;
}.
End Service.

(** [loadServices] appends to [w.Services], the only field of the world it
    touches: the model passes that list. *)
Definition loadServices_step (services : list Service.t) (m : MetricValues.t)
  : list Service.t :=
  let name := MetricValues.label m "service" in
  let name := if String.eqb name "kubernetes" then "kube-apiserver" else name in
  let clusterIP := MetricValues.label m "cluster_ip" in
  if negb (String.eqb clusterIP "") then
    services ++ [Service.mk name (MetricValues.label m "namespace") clusterIP []]
  else services.

Definition loadServices (services : list Service.t)
  (metrics : list MetricValues.t) : list Service.t :=
  foldl loadServices_step services metrics.

(** The effects of [podLabels] on the instances: the calls of
    [instance.ClusterName.Update(m.Values, cluster)] and of
    [instance.UpdateClusterRole(role, m.Values)], in order. *)
Inductive LabelEvent : Type :=
| EvClusterName (instance : InstancePtr) (values : TimeSeries) (cluster : string)
| EvClusterRole (instance : InstancePtr) (role : string) (values : TimeSeries).

(** The [switch] of [podLabels]: the cluster and the role of the sample under
    the three labelling conventions; [None] is [default: continue]. *)
Definition podLabels_convention (m : MetricValues.t) : option (string * string) :=
  if negb (String.eqb
             (MetricValues.label m "label_postgres_operator_crunchydata_com_cluster") "")
  then Some (MetricValues.label m "label_postgres_operator_crunchydata_com_cluster",
             MetricValues.label m "label_postgres_operator_crunchydata_com_role")
  else if negb (String.eqb (MetricValues.label m "label_cluster_name") "")
          && negb (String.eqb (MetricValues.label m "label_team") "")
  then Some (MetricValues.label m "label_cluster_name",
             if String.eqb (MetricValues.label m "label_application") "spilo"
             then MetricValues.label m "label_spilo_role" else "")
  else if negb (String.eqb (MetricValues.label m "label_k8s_enterprisedb_io_cluster") "")
  then Some (MetricValues.label m "label_k8s_enterprisedb_io_cluster",
             MetricValues.label m "label_role")
  else None.

Definition podLabels_step (pods : gmap string InstancePtr) (m : MetricValues.t)
  : list LabelEvent :=
  let uid := MetricValues.label m "uid" in
  match pods !! uid with
  | None => []                                                 (* continue *)
  | Some instance =>
      match podLabels_convention m with
      | None => []                                             (* continue *)
      | Some (cluster, role) =>
          (if negb (String.eqb cluster "")
           then [EvClusterName instance (MetricValues.Values m) cluster]
           else [])
          ++ (let role := if String.eqb role "master" then "primary" else role in
              [EvClusterRole instance role (MetricValues.Values m)])
      end
  end.

Definition podLabels (metrics : list MetricValues.t)
  (pods : gmap string InstancePtr) : list LabelEvent :=
  concat (List.map (podLabels_step pods) metrics).

(* ===================================================================== *)
(** * model/world.go: services *)
(* ===================================================================== *)

(** [GetServiceForConnection] over [w.Services]; the [*Service] returned is
    the index of the element, [None] is nil.  [i] is the index of the head
    of [services]. *)
Fixpoint GetServiceForConnection_from (i : nat) (services : list Service.t)
  (c : Connection.t) : option nat :=
  match services with
  | [] => None
  | s :: services' =>
      if String.eqb (Service.ClusterIP s) (Connection.ServiceRemoteIP c)
      then Some i
      else if existsb (fun sc => String.eqb (Connection.ActualRemoteIP sc)
                                            (Connection.ActualRemoteIP c))
                      (Service.Connections s)
      then Some i
      else GetServiceForConnection_from (S i) services' c
  end.

Definition GetServiceForConnection (services : list Service.t)
  (c : Connection.t) : option nat :=
  GetServiceForConnection_from 0 services c.

(* ===================================================================== *)
(** * watchers/deployments/deployments.go: sums *)
(* ===================================================================== *)

(** [sumF] of deployments.go. *)
Definition sumF (ts : TimeSeries) : float32 :=
  let v := Reduce ts NanSum in
  if IsNaN v then F32.zero else v.

(* ===================================================================== *)
(** * api/api.go *)
(* ===================================================================== *)

Definition maxDuration (d1 d2 : Duration) : Duration :=
  if d1 >=? d2 then d1 else d2.

Definition increaseStepForBigDurations (duration step : Duration) : Duration :=
  if duration >? 5 * 24 * TimeOps.Hour then maxDuration step (60 * TimeOps.Minute)
  else if duration >? 24 * TimeOps.Hour then maxDuration step (15 * TimeOps.Minute)
  else if duration >? 12 * TimeOps.Hour then maxDuration step (10 * TimeOps.Minute)
  else if duration >? 6 * TimeOps.Hour then maxDuration step (5 * TimeOps.Minute)
  else if duration >? 4 * TimeOps.Hour then maxDuration step TimeOps.Minute
  else step.

(** Modelled from the spec: [Time.Before] (time.go is not among the
    sources), "integer timestamp": the order of the integers. *)
Definition Before (t u : Time) : bool := t <? u.

(** The window and the step that [loadWorld] hands to the constructor, for
    the latest timestamp [cacheTo] of the cache and the refresh interval
    [step] of the project; [None] is [return nil, nil]. *)
Definition loadWorld (cacheTo : Time) (step : Duration) (from to : Time)
  : option (Time * Time * Duration) :=
  let from := TimeOps.Truncate from step in
  let to := TimeOps.Truncate to step in
  if TimeOps.IsZero cacheTo || Before cacheTo from then None
  else
    let duration := TimeOps.Sub to from in
    let '(from, to) :=
      if Before cacheTo to then (TimeOps.Add cacheTo (- duration), cacheTo)
      else (from, to) in
    Some (from, to, increaseStepForBigDurations duration step).

(* ===================================================================== *)
(** * Vocabulary of the properties *)
(* ===================================================================== *)

(** A sample is present when it is not the missing sentinel. *)
Definition present (v : float32) : Prop := IsNaN v = false.
Definition missing (v : float32) : Prop := IsNaN v = true.

(** The sample of the step before [i]; missing at the first step, which has
    no step before it. *)
Definition sample_before (data : list float32) (i : nat) : float32 :=
  match i with
  | O => NaN
  | S j => default NaN (data !! j)
  end.

(** The identities of the applications of a world, in the order of the
    list. *)
Definition app_ids (w : World.t) : list ApplicationId.t :=
  Application.Id <$> World.Applications w.

(** The world after a sequence of get-or-create calls on a new world. *)
Definition world_of (ids : list ApplicationId.t) : World.t :=
  foldl (fun w id => (World.GetOrCreateApplication w id).1) World.NewWorld ids.

(** A pod sample has been ingested under the identity [id]: the step did
    not panic, the world holds an application of that identity with an
    instance named after the pod, and the pod's uid points to that
    instance. *)
Definition ingested (r : option (World.t * gmap string InstancePtr))
  (id : ApplicationId.t) (pod uid : string) : Prop :=
  exists w' pods' a k app inst,
    r = Some (w', pods')
    /\ World.GetApplication w' id = Some a
    /\ World.Applications w' !! a = Some app
    /\ Application.Id app = id
    /\ Application.Instances app !! k = Some inst
    /\ Instance.Name inst = pod
    /\ pods' !! uid = Some (a, k).

(** [podInfo] reads the series of the sample: the pod has an IP address of
    its own (not empty, not the address of the host) that parses. *)
Definition pod_series_read (ParseIP : string -> bool) (m : MetricValues.t)
  : bool :=
  negb (String.eqb (MetricValues.label m "pod_ip") "")
  && negb (String.eqb (MetricValues.label m "pod_ip")
                      (MetricValues.label m "host_ip"))
  && ParseIP (MetricValues.label m "pod_ip").

(** A pod sample whose series is read and is a non-nil series without
    points. *)
Definition pointless_sample : MetricValues.t :=
  MetricValues.mk
    (<["pod" := "web-1"]> (<["namespace" := "default"]>
     (<["created_by_kind" := "ReplicaSet"]> (<["created_by_name" := "web"]>
     (<["pod_ip" := "10.0.0.1"]> (<["uid" := "u3"]> ∅))))))
    (NewWithData 0 15 []).

(** A pod that names an owner but no owner kind. *)
Definition orphan_sample : MetricValues.t :=
  MetricValues.mk
    (<["pod" := "web-1"]> (<["namespace" := "default"]>
     (<["created_by_name" := "web"]> (<["node" := "n1"]> (<["uid" := "u1"]> ∅)))))
    None.

(** A pod owned by a replica set. *)
Definition owned_sample : MetricValues.t :=
  MetricValues.mk
    (<["pod" := "web-5d8f-x"]> (<["namespace" := "default"]>
     (<["created_by_kind" := "ReplicaSet"]> (<["created_by_name" := "web-5d8f"]>
     (<["node" := "n1"]> (<["uid" := "u2"]> ∅))))))
    None.

(** An application of kind Deployment that has no instances and no recorded
    deployments, and a stateful set with one pod. *)
Definition bare_deployment_app : Application.t :=
  Application.mk (NewApplicationId "default" ApplicationKindDeployment "web") "" [] [].

Definition statefulset_app : Application.t :=
  Application.mk (NewApplicationId "default" ApplicationKindStatefulSet "db") ""
    [Instance.mk "db-0" None (Some (Pod.mk "" None)) [] ∅] [].

(** A pod of replica set [rs] with the given life span on the grid that
    starts at [from]. *)
Definition rs_pod (name rs : string) (from : Time) (step : Duration)
  (lifeSpan : list Z) : Instance.t :=
  Instance.mk name None
    (Some (Pod.mk rs (NewWithData from step (F32.of_Z <$> lifeSpan)))) [] ∅.

Definition web_id : ApplicationId.t :=
  NewApplicationId "default" ApplicationKindDeployment "web".

(** The attempted rollout that reverted: rs-a=[1,1,1,0,0,1,1,1],
    rs-b=[0,0,0,1,1,0,0,0]. *)
Definition revert_app (from : Time) (step : Duration) : Application.t :=
  Application.mk web_id ""
    [rs_pod "pod-a" "rs-a" from step [1;1;1;0;0;1;1;1];
     rs_pod "pod-b" "rs-b" from step [0;0;0;1;1;0;0;0]] [].

(** The same application with its instances met in the other order. *)
Definition revert_app_swapped (from : Time) (step : Duration) : Application.t :=
  Application.mk web_id ""
    [rs_pod "pod-b" "rs-b" from step [0;0;0;1;1;0;0;0];
     rs_pod "pod-a" "rs-a" from step [1;1;1;0;0;1;1;1]] [].

(** The time of step [i] as the iterator computes it: [i + 1] additions of
    the step to [from - step]. *)
Fixpoint advance (t : Time) (step : Duration) (n : nat) : Time :=
  match n with
  | O => t
  | S n' => advance (TimeOps.Add t step) step n'
  end.

Definition step_time (from : Time) (step : Duration) (i : nat) : Time :=
  advance (TimeOps.Add from (- step)) step (S i).

(** A deployment opened and closed at time [t]. *)
Definition instant_deployment (name : string) (t : Time) : ApplicationDeployment.t :=
  ApplicationDeployment.mk web_id name t t (Some []) None None.

(** The snapshot window of a deployment: [from] and [to] as
    [snapshotDeploymentMetrics] computes them. *)
Definition snapshot_window (shift window : Duration) (step : Duration)
  (d : ApplicationDeployment.t) : Time * Time :=
  let from := TimeOps.Truncate
                (TimeOps.Add (ApplicationDeployment.FinishedAt d) shift) step in
  (from, TimeOps.Truncate (TimeOps.Add from window) step).

(** The start of the next deployment of the application, or the latest
    timestamp of the cache for its last deployment. *)
Definition next_or_now (cacheTo : Time) (ds : list ApplicationDeployment.t)
  (i : nat) : Time :=
  match ds !! S i with
  | Some next => ApplicationDeployment.StartedAt next
  | None => cacheTo
  end.

(** The deployment a snapshot event is about: application and position. *)
Definition snapshot_key (ev : Event) : option (nat * nat) :=
  match ev with
  | EvSnapshot app i _ _ _ _ => Some (app, i)
  | _ => None
  end.

(** [d'] is [d], but for the snapshot attached. *)
Definition same_but_snapshot (d d' : ApplicationDeployment.t) : Prop :=
  d' = ApplicationDeployment.set_MetricsSnapshot d
         (ApplicationDeployment.MetricsSnapshot_ d').

(** A computation of a snapshot that the rules allow, for deployment [i] of
    the deployments [ds0] of application [a]. *)
Definition snapshot_event_ok (shift window : Duration) (cacheTo : Time)
  (step : Duration) (a : nat) (ds0 : list ApplicationDeployment.t)
  (ev : Event) (i : nat) : Prop :=
  exists d,
    ev = EvSnapshot a i d (snapshot_window shift window step d).1
           (snapshot_window shift window step d).2 (next_or_now cacheTo ds0 i)
    /\ ds0 !! i = Some d
    /\ ApplicationDeployment.MetricsSnapshot_ d = None
    /\ TimeOps.IsZero (ApplicationDeployment.FinishedAt d) = false
    /\ (snapshot_window shift window step d).2 <= next_or_now cacheTo ds0 i.

(** What holds after the loop over the deployments [ds0] of application [a]
    has handled the positions below [k]: [ds] are the deployments and [log]
    the snapshot computations so far. *)
Definition snapshot_inv (shift window : Duration) (cacheTo : Time)
  (step : Duration) (a : nat) (ds0 : list ApplicationDeployment.t) (k : nat)
  (ds : list ApplicationDeployment.t) (log : list Event) : Prop :=
  length ds = length ds0
  /\ (forall j, (k <= j)%nat -> ds !! j = ds0 !! j)
  /\ (forall j d0, ds0 !! j = Some d0 ->
        exists d, ds !! j = Some d /\ same_but_snapshot d0 d
                  /\ (is_Some (ApplicationDeployment.MetricsSnapshot_ d0) -> d = d0))
  /\ (forall ev, ev ∈ log ->
        exists i, (i < k)%nat
                  /\ snapshot_event_ok shift window cacheTo step a ds0 ev i
                  /\ exists d', ds !! i = Some d'
                        /\ is_Some (ApplicationDeployment.MetricsSnapshot_ d'))
  /\ NoDup (omap snapshot_key log).

(** What holds after a pass over the applications [apps], numbered from
    [n]: [apps'] are the applications and [log] the snapshot computations of
    the pass. *)
Definition snapshot_pass_ok (shift window : Duration) (cacheTo : Time)
  (step : Duration) (n : nat) (apps apps' : list Application.t)
  (log : list Event) : Prop :=
  (forall k app, apps !! k = Some app ->
     exists app', apps' !! k = Some app'
       /\ forall j d0, Application.Deployments app !! j = Some d0 ->
            exists d, Application.Deployments app' !! j = Some d
                      /\ same_but_snapshot d0 d
                      /\ (is_Some (ApplicationDeployment.MetricsSnapshot_ d0) -> d = d0))
  /\ (forall ev, ev ∈ log ->
        exists k i app app' d',
          apps !! k = Some app
          /\ snapshot_event_ok shift window cacheTo step (n + k)
               (Application.Deployments app) ev i
          /\ apps' !! k = Some app'
          /\ Application.Deployments app' !! i = Some d'
          /\ is_Some (ApplicationDeployment.MetricsSnapshot_ d'))
  /\ NoDup (omap snapshot_key log).

(** [d'] is [d], but for the notification state. *)
Definition same_but_notifications (d d' : ApplicationDeployment.t) : Prop :=
  d' = ApplicationDeployment.set_Notifications d
         (ApplicationDeployment.Notifications d').

(** Every send in [log] is for a fresh deployment among [ds0], up to the
    notification state. *)
Definition sends_fresh (now : Time) (ds0 : list ApplicationDeployment.t)
  (log : list Event) : Prop :=
  forall c d state ok,
    EvSend c d state ok ∈ log ->
    exists d0, d0 ∈ ds0 /\ same_but_notifications d0 d
               /\ TimeOps.Sub now (ApplicationDeployment.StartedAt d0)
                  <= TimeOps.Day.

(** An application with two recorded deployments, at 1000 and at 1200. *)
Definition two_deployments_app : Application.t :=
  Application.mk web_id ""
    [] [instant_deployment "rs-a" 1000; instant_deployment "rs-b" 1200].

Definition empty_snapshot : MetricsSnapshot.t :=
  MetricsSnapshot.mk 0 0 0 0 [] F32.zero 0 0 0 0 0.

Definition two_deployments_world : World.t :=
  World.mk [] [two_deployments_app] true.

Definition slack_only : Integrations := mkIntegrations (Some (mkSlack true)) None.

(** The array after the assignments [ws], applied in order. *)
Definition apply_writes (l : list float32) (ws : list (nat * float32))
  : list float32 :=
  foldl (fun l w => <[w.1 := w.2]> l) l ws.

(** The window of the series lies within the 64-bit timestamps: a positive
    step, and [from - step], the end [from + len*step] and the length
    [len*step] of the window are representable. *)
Definition window_fits (d : TimeSeriesData) : Prop :=
  0 < ts_step d < 2 ^ 63
  /\ - 2 ^ 63 <= ts_from d - ts_step d
  /\ ts_from d + Z.of_nat (length (ts_data d)) * ts_step d < 2 ^ 63
  /\ Z.of_nat (length (ts_data d)) * ts_step d < 2 ^ 63.

(** What the loop of [Fill] maintains, for a receiver whose array was
    [data0]. *)
Definition fill_inv (data0 : list float32) (data : list float32)
  (st : fill_state) : Prop :=
  length (fs_data st) = length data0
  /\ (fs_iNext st = -1 \/ 0 <= fs_iNext st)
  /\ Forall (fun w => (w.1 < length data0)%nat /\ w.2 ∈ data) (fs_writes st)
  /\ fs_data st = apply_writes data0 (fs_writes st)
  /\ (fs_changed st = true
      <-> Exists (fun w => IsNaN w.2 = false) (fs_writes st)).

(** The step at which [Set] stores a value given for time [t]: the step of
    [t] rounded down to the grid of multiples of the series' step. *)
Definition set_index (d : TimeSeriesData) (t : Time) : Z :=
  (t - t mod ts_step d - ts_from d) / ts_step d.

Definition non_negative (v : float32) : Prop :=
  IsNaN v = false -> F32.leb F32.zero v = true.

Definition is_present (s : Time * float32) : bool := negb (IsNaN s.2).

(** Two states of the loop of [Fill] that differ at most in the contents of
    the receiver's array. *)
Definition same_control (st1 st2 : fill_state) : Prop :=
  length (fs_data st1) = length (fs_data st2)
  /\ fs_tNext st1 = fs_tNext st2
  /\ fs_iNext st1 = fs_iNext st2
  /\ fs_t st1 = fs_t st2
  /\ fs_changed st1 = fs_changed st2
  /\ fs_writes st1 = fs_writes st2.

(** Every pointer of the map designates an instance of the world that has
    its [Pod] set. *)
Definition pods_valid (w : World.t) (pods : gmap string InstancePtr) : Prop :=
  forall uid a k, pods !! uid = Some (a, k) ->
    exists app inst,
      World.Applications w !! a = Some app
      /\ Application.Instances app !! k = Some inst
      /\ is_Some (Instance.Pod inst).

(** [w'] is [w] grown: every application and every instance of [w] is still
    at its index in [w'], under its identity and name, and an instance that
    had its [Pod] set still has. *)
Definition world_grows (w w' : World.t) : Prop :=
  forall a app, World.Applications w !! a = Some app ->
    exists app',
      World.Applications w' !! a = Some app'
      /\ Application.Id app' = Application.Id app
      /\ forall k inst, Application.Instances app !! k = Some inst ->
           exists inst',
             Application.Instances app' !! k = Some inst'
             /\ Instance.Name inst' = Instance.Name inst
             /\ (is_Some (Instance.Pod inst) -> is_Some (Instance.Pod inst')).

(** The service matches the connection: by cluster IP, or by the actual
    remote IP of one of its recorded connections. *)
Definition service_matches (c : Connection.t) (s : Service.t) : Prop :=
  Service.ClusterIP s = Connection.ServiceRemoteIP c
  \/ exists sc, sc ∈ Service.Connections s
                /\ Connection.ActualRemoteIP sc = Connection.ActualRemoteIP c.

(** No two neighbours of the list are equal. *)
Definition adjacent_differ (l : list string) : Prop :=
  forall i a b, l !! i = Some a -> l !! S i = Some b -> a <> b.

(** The names of the deployments, in order. *)
Definition deployment_names (ds : list ApplicationDeployment.t) : list string :=
  ApplicationDeployment.Name <$> ds.

(** The replica sets of the pods of the instances. *)
Definition pod_replica_sets (insts : list Instance.t) : list string :=
  omap (fun i => Pod.ReplicaSet <$> Instance.Pod i) insts.

(** The replica sets of the pods of an application. *)
Definition replica_sets (app : Application.t) : list string :=
  pod_replica_sets (Application.Instances app).

(** The active sets of [rssOverTime] name replica sets among [keys], each
    once. *)
Definition rss_ok (keys : list string) (rs : list rss) : Prop :=
  Forall (fun r : rss => NoDup r.2 /\ r.2 ⊆ keys) rs.

(** What the second loop of [calcDeployments] maintains. *)
Definition walk_inv (keys : list string) (st : walk_state) : Prop :=
  (forall i, deployment st = Some i -> S i = length (deployments st))
  /\ (forall n, last (deployment_names (deployments st)) = Some n -> n = prev st)
  /\ adjacent_differ (deployment_names (deployments st))
  /\ deployment_names (deployments st) ⊆ keys.

(** The key under which the watcher recognises a recorded deployment. *)
Definition deployment_key (d : ApplicationDeployment.t) : string * Time :=
  (ApplicationDeployment.Name d, ApplicationDeployment.StartedAt d).

(** Every event is a save that the store accepted. *)
Definition saves_accepted (Save : ApplicationDeployment.t -> bool)
  (log : list Event) : Prop :=
  Forall (fun ev => exists d, ev = EvSaveDeployment d /\ Save d = true) log.

(** The application after the pass: the same, with deployments appended. *)
Definition app_grows (a a' : Application.t) : Prop :=
  Application.Id a' = Application.Id a
  /\ Application.Instances a' = Application.Instances a
  /\ Application.Deployments a `prefix_of` Application.Deployments a'.

(** The images of the containers of the instances, the empty ones left
    out. *)
Definition container_images (insts : list Instance.t) : list string :=
  List.filter (fun img => negb (String.eqb img ""))
    (insts ≫= fun i => (fun c => Container.Image c.2) <$> Instance.Containers i).

(** The replica sets that own the pods of the instances: the empty name
    stands for no owner and is left out. *)
Definition owning_replica_sets (insts : list Instance.t) : list string :=
  List.filter (fun rs => negb (String.eqb rs ""))
    (omap (fun i => Pod.ReplicaSet <$> Instance.Pod i) insts).

(** The state a channel has recorded for a deployment. *)
Definition channel_state (c : Channel) (n : ApplicationDeploymentNotifications.t)
  : ApplicationDeploymentState :=
  match c with
  | ChannelSlack => ApplicationDeploymentNotifications.Slack n
  | ChannelTeams => ApplicationDeploymentNotifications.Teams n
  end.

(** The notification record of a deployment, the zero record when nil. *)
Definition notifications_of (d : ApplicationDeployment.t)
  : ApplicationDeploymentNotifications.t :=
  default ApplicationDeploymentNotifications.zero
    (ApplicationDeployment.Notifications d).

(** The deployment is notified on the channel under the integrations. *)
Definition channel_enabled (integrations : Integrations) (c : Channel) : bool :=
  match c with
  | ChannelSlack =>
      match Slack integrations with
      | Some cfg => slack_Deployments cfg
      | None => false
      end
  | ChannelTeams =>
      match Teams integrations with
      | Some cfg => teams_Deployments cfg
      | None => false
      end
  end.

(** Membership in a log that is given by its events. *)
Ltac in_log :=
  solve [repeat first [apply list_elem_of_here | apply list_elem_of_further]].

Ltac in_log_inv H :=
  repeat (apply elem_of_cons in H as [H|H]);
  try (by apply elem_of_nil in H);
  inversion H; subst.

(** The sign of a float32 that is neither a zero nor a NaN. *)
Definition sign_is (s : bool) (r : spec_float) : Prop :=
  match r with
  | S754_finite s' _ _ | S754_infinity s' => s' = s
  | _ => False
  end.

(* ===================================================================== *)
(** * Properties *)
(* ===================================================================== *)

(** ** Missing values *)

Lemma SFcompare_refl_finite s m e :
  SFcompare (S754_finite s m e) (S754_finite s m e) = Some Eq.
Proof.
  cbn. rewrite Z.compare_refl.
  change (Pos.compare_cont Eq m m) with (Pos.compare m m).
  rewrite Pos.compare_refl. by destruct s.
Qed.

Lemma IsNaN_true v : IsNaN v = true <-> v = NaN.
Proof.
  unfold IsNaN, F32.neqb, SFeqb. split.
  - destruct v as [s|s| |s m e]; try (by destruct s); try done.
    by rewrite SFcompare_refl_finite.
  - by intros ->.
Qed.

Lemma IsNaN_false v : IsNaN v = false <-> v <> NaN.
Proof.
  rewrite <- IsNaN_true. destruct (IsNaN v); split; congruence.
Qed.

Lemma IsNaN_NaN : IsNaN NaN = true.
Proof. reflexivity. Qed.

(** ** float32: the sign of a difference *)

Lemma digits2_pos_bounds m :
  2 ^ (Zpos (digits2_pos m) - 1) <= Zpos m < 2 ^ Zpos (digits2_pos m).
Proof.
  induction m as [m IH|m IH|]; cbn [digits2_pos].
  - rewrite Pos2Z.inj_succ, (Pos2Z.inj_xI m).
    replace (Z.succ (Z.pos (digits2_pos m)) - 1) with (Z.succ (Z.pos (digits2_pos m) - 1)) by lia.
    rewrite !Z.pow_succ_r by lia.
    destruct IH as [IH1 IH2]. revert IH1 IH2.
    generalize (2 ^ (Z.pos (digits2_pos m) - 1)) (2 ^ Z.pos (digits2_pos m)). lia.
  - rewrite Pos2Z.inj_succ, (Pos2Z.inj_xO m).
    replace (Z.succ (Z.pos (digits2_pos m)) - 1) with (Z.succ (Z.pos (digits2_pos m) - 1)) by lia.
    rewrite !Z.pow_succ_r by lia.
    destruct IH as [IH1 IH2]. revert IH1 IH2.
    generalize (2 ^ (Z.pos (digits2_pos m) - 1)) (2 ^ Z.pos (digits2_pos m)). lia.
  - cbn. lia.
Qed.

Lemma iter_xO_pow m d : Zpos (Pos.iter xO m d) = Zpos m * 2 ^ Zpos d.
Proof.
  induction d as [|d IH] using Pos.peano_ind.
  - cbn. lia.
  - rewrite Pos.iter_succ, Pos2Z.inj_xO, IH, Pos2Z.inj_succ, Z.pow_succ_r by lia. lia.
Qed.

Lemma shl_align_fst mx ex ez :
  ez <= ex -> Zpos (fst (shl_align mx ex ez)) = Zpos mx * 2 ^ (ex - ez).
Proof.
  intros Hle. unfold shl_align.
  destruct (ez - ex) as [|d|d] eqn:Hd; cbn [fst]; try lia.
  - replace (ex - ez) with 0 by lia. lia.
  - rewrite iter_xO_pow. f_equal. f_equal. lia.
Qed.

Lemma shl_align_snd mx ex ez :
  snd (shl_align mx ex ez) = Z.min ex ez.
Proof.
  unfold shl_align. destruct (ez - ex) as [|d|d] eqn:Hd; cbn [snd]; lia.
Qed.

Lemma shr_1_m mrs : 0 <= shr_m mrs -> shr_m (shr_1 mrs) = shr_m mrs / 2.
Proof.
  destruct mrs as [m r s]. cbn [shr_m]. intros Hm.
  destruct m as [|p|p]; [done| |lia].
  destruct p as [p|p|]; cbn [shr_1 shr_m].
  - rewrite (Pos2Z.inj_xI p). apply Z.div_unique with 1; lia.
  - rewrite (Pos2Z.inj_xO p). apply Z.div_unique with 0; lia.
  - reflexivity.
Qed.

Lemma shr_m_iter p : forall mrs,
  0 <= shr_m mrs -> shr_m (SpecFloat.iter_pos shr_1 p mrs) = shr_m mrs / 2 ^ Zpos p.
Proof.
  induction p as [p IH|p IH|]; intros mrs Hm; cbn [SpecFloat.iter_pos].
  - assert (H1 : 0 <= shr_m (shr_1 mrs)) by (rewrite shr_1_m by done; apply Z.div_pos; lia).
    assert (H2 : 0 <= shr_m (SpecFloat.iter_pos shr_1 p (shr_1 mrs))) by (rewrite IH by done; apply Z.div_pos; lia).
    rewrite IH, IH, shr_1_m by done.
    rewrite !Z.div_div by lia. f_equal.
    rewrite Pos2Z.inj_xI, Z.pow_add_r, Z.pow_mul_r by lia.
    change (2 ^ 2) with 4. change (2 ^ 1) with 2.
    replace (4 ^ Z.pos p) with (2 ^ Z.pos p * 2 ^ Z.pos p); [lia|].
    rewrite <- Z.pow_add_r by lia. replace (Z.pos p + Z.pos p) with (2 * Z.pos p) by lia.
    by rewrite Z.pow_mul_r by lia.
  - assert (H2 : 0 <= shr_m (SpecFloat.iter_pos shr_1 p mrs)) by (rewrite IH by done; apply Z.div_pos; lia).
    rewrite IH, IH by done.
    rewrite !Z.div_div by lia. f_equal.
    rewrite Pos2Z.inj_xO. rewrite <- Z.pow_add_r by lia. f_equal. lia.
  - rewrite shr_1_m by done. reflexivity.
Qed.

Lemma bounded_inv m e :
  bounded F32.prec F32.emax m e = true ->
  -149 <= e /\ Zpos (digits2_pos m) <= 24 /\ (-149 < e -> Zpos (digits2_pos m) = 24).
Proof.
  unfold bounded, canonical_mantissa, fexp, emin, F32.prec, F32.emax.
  intros [H1 H2]%andb_true_iff. apply Z.eqb_eq in H1. lia.
Qed.

Lemma shr_m_of_loc m l : shr_m (shr_record_of_loc m l) = m.
Proof. destruct l as [|[]]; reflexivity. Qed.

Lemma shr_fexp_pos m e l :
  0 < m -> -149 <= e ->
  0 < shr_m (shr_fexp F32.prec F32.emax m e l).1
  /\ -149 <= (shr_fexp F32.prec F32.emax m e l).2.
Proof.
  intros Hm He. destruct m as [|p|p]; try lia.
  unfold shr_fexp, shr, fexp, emin, F32.prec, F32.emax. cbn [Zdigits2].
  pose proof (digits2_pos_bounds p) as [Hlo Hhi].
  destruct (Z.max (Z.pos (digits2_pos p) + e - 24) (3 - 128 - 24) - e) as [|n|n] eqn:Hn;
    cbn [fst snd]; rewrite ?shr_m_of_loc; try lia.
  rewrite shr_m_iter by (rewrite shr_m_of_loc; lia).
  rewrite shr_m_of_loc. split; [|lia].
  apply Z.div_str_pos. split; [apply Z.pow_pos_nonneg; lia|].
  etrans; [|exact Hlo]. apply Z.pow_le_mono_r; lia.
Qed.

Lemma round_nearest_even_pos m l : 0 < m -> 0 < round_nearest_even m l.
Proof.
  intros Hm. destruct l as [|[]]; cbn; try lia. destruct (Z.even m); lia.
Qed.

Lemma binary_round_aux_sign s m e l :
  0 < m -> -149 <= e -> sign_is s (binary_round_aux F32.prec F32.emax s m e l).
Proof.
  intros Hm He. unfold binary_round_aux.
  pose proof (shr_fexp_pos m e l Hm He) as [H1 H2].
  destruct (shr_fexp F32.prec F32.emax m e l) as [mrs' e'].
  cbn [fst snd] in H1, H2.
  pose proof (shr_fexp_pos _ e' loc_Exact
                (round_nearest_even_pos _ (loc_of_shr_record mrs') H1) H2) as [H3 _].
  destruct (shr_fexp F32.prec F32.emax _ e' loc_Exact) as [mrs'' e''].
  cbn [fst] in H3.
  destruct (shr_m mrs'') as [|q|q]; try lia.
  by destruct (e'' <=? F32.emax - F32.prec).
Qed.

Lemma binary_round_sign s m e :
  -149 <= e -> sign_is s (binary_round F32.prec F32.emax s m e).
Proof.
  intros He. unfold binary_round.
  pose proof (shl_align_snd m e (fexp F32.prec F32.emax (Z.pos (digits2_pos m) + e))) as Hs.
  destruct (shl_align m e _) as [mz ez]. cbn [snd] in Hs.
  apply binary_round_aux_sign; [lia|].
  subst ez. unfold fexp, emin, F32.prec, F32.emax. lia.
Qed.

Lemma leb_zero_negative r : sign_is true r -> SFleb (S754_zero false) r = false.
Proof. destruct r as [| | |s m e]; cbn; try done; by intros ->. Qed.

(** Mantissas of two well-formed numbers, the one with the smaller exponent
    is the smaller number. *)
Lemma bounded_exponent_order m e m' e' :
  bounded F32.prec F32.emax m e = true ->
  bounded F32.prec F32.emax m' e' = true ->
  e < e' ->
  Zpos m < Zpos m' * 2 ^ (e' - e).
Proof.
  intros (He & Hd & _)%bounded_inv (He' & _ & Hd')%bounded_inv Hlt.
  specialize (Hd' ltac:(lia)).
  pose proof (digits2_pos_bounds m) as [_ Hhi].
  pose proof (digits2_pos_bounds m') as [Hlo' _].
  rewrite Hd' in Hlo'.
  assert (Z.pos m < 2 ^ 24).
  { eapply Z.lt_le_trans; [exact Hhi|]. apply Z.pow_le_mono_r; lia. }
  assert (2 ^ 1 <= 2 ^ (e' - e)) by (apply Z.pow_le_mono_r; lia).
  change (2 ^ 1) with 2 in *. change (2 ^ (24 - 1)) with 8388608 in *.
  change (2 ^ 24) with 16777216 in *. nia.
Qed.

Lemma ltb_sub_negative x y :
  F32.valid x = true -> F32.valid y = true ->
  F32.ltb x y = true ->
  F32.geb (F32.sub x y) F32.zero = false.
Proof.
  unfold F32.valid, F32.ltb, F32.geb, F32.sub, F32.zero, SFltb.
  intros Hx Hy Hlt.
  destruct x as [sx|sx| |sx mx ex], y as [sy|sy| |sy my ey];
    try (cbn in Hlt |- *;
         repeat match goal with s : bool |- _ => destruct s end;
         (done || discriminate)).
  cbn [valid_binary] in Hx, Hy. cbn [SFsub].
  apply leb_zero_negative.
  pose proof (bounded_inv _ _ Hx) as (Hex & _).
  pose proof (bounded_inv _ _ Hy) as (Hey & _).
  rewrite !shl_align_fst by lia.
  set (ez := Z.min ex ey).
  assert (Hneg : cond_Zopp sx (Z.pos mx * 2 ^ (ex - ez))
                 - cond_Zopp sy (Z.pos my * 2 ^ (ey - ez)) < 0).
  { assert (0 < 2 ^ (ex - ez)) by (apply Z.pow_pos_nonneg; lia).
    assert (0 < 2 ^ (ey - ez)) by (apply Z.pow_pos_nonneg; lia).
    cbn [SFcompare] in Hlt.
    destruct sx, sy; cbn [cond_Zopp]; try done; try nia.
    - destruct (Z.compare_spec ex ey) as [Heq|Hl|Hg]; try done.
      + subst ey. change (Pos.compare_cont Eq mx my) with (Pos.compare mx my) in Hlt.
        destruct (Pos.compare_spec mx my) as [?|?|Hgt]; try done.
        subst ez. rewrite Z.min_id, Z.sub_diag in *. lia.
      + pose proof (bounded_exponent_order _ _ _ _ Hy Hx Hg).
        subst ez. rewrite Z.min_r, Z.sub_diag in * by lia. lia.
    - destruct (Z.compare_spec ex ey) as [Heq|Hl|Hg]; try done.
      + subst ey. change (Pos.compare_cont Eq mx my) with (Pos.compare mx my) in Hlt.
        destruct (Pos.compare_spec mx my) as [?|Hl|?]; try done.
        subst ez. rewrite Z.min_id, Z.sub_diag in *. lia.
      + pose proof (bounded_exponent_order _ _ _ _ Hx Hy Hl).
        subst ez. rewrite Z.min_l, Z.sub_diag in * by lia. lia. }
  destruct (_ - _) as [|p|p] eqn:Hd; try lia.
  cbn [binary_normalize]. apply binary_round_sign. lia.
Qed.

(** ** The iterator and the samples of a series *)

Lemma drain_samples_from fuel from step data k t :
  (length data <= k + fuel)%nat ->
  (k <= length data)%nat ->
  drain fuel (mkIter from step data (Z.of_nat k - 1) t)
  = samples_from t step (drop k data).
Proof.
  revert k t. induction fuel as [|fuel IH]; intros k t Hfuel Hk.
  - rewrite drop_ge by lia. reflexivity.
  - cbn [drain Next it_idx it_data it_step it_t it_from].
    destruct (Z.ltb_spec (Z.of_nat k - 1 + 1) (Z.of_nat (length data))) as [Hlt|Hge].
    + assert (Hk' : (k < length data)%nat) by lia.
      destruct (lookup_lt_is_Some_2 data k Hk') as [v Hv].
      rewrite (drop_S _ _ _ Hv). cbn [samples_from].
      unfold Value. cbn [it_idx it_data it_t].
      replace (Z.to_nat (Z.of_nat k - 1 + 1)) with k by lia.
      rewrite Hv. cbn [default]. f_equal.
      replace (Z.of_nat k - 1 + 1) with (Z.of_nat (S k) - 1) by lia.
      apply IH; lia.
    + rewrite drop_ge by lia. reflexivity.
Qed.

(** Walking the iterator of a series with [Next] and [Value] until [Next]
    answers false yields exactly its samples: [length + 1] calls of [Next]
    are enough, and more change nothing. *)
Lemma drain_Iter ts fuel :
  (ts_len ts < fuel)%nat -> drain fuel (Iter ts) = samples ts.
Proof.
  destruct ts as [d|]; cbn [ts_len Iter samples]; intros Hfuel.
  - change (-1) with (Z.of_nat 0 - 1).
    rewrite drain_samples_from by lia. by rewrite drop_0.
  - destruct fuel; reflexivity.
Qed.



(** ** C9: the nil series *)

(** C9.  Every read operation is total on the nil series, which behaves as
    the empty series: [IsEmpty] is true for nil and false for every non-nil
    series; [Last] and [Reduce] on nil return the missing sentinel (no
    panic); the iterator of nil yields no value, however often [Next] is
    called; [Map], [WithNewValue] and [LastNotNull] are defined on nil;
    [Increase] and [Aggregate2] return nil as soon as one operand is nil. *)
Theorem nil_series_reads_total :
  IsEmpty None = true
  /\ (forall d, IsEmpty (Some d) = false)
  /\ ts_len None = 0%nat
  /\ Last None = Some NaN
  /\ (forall f, Reduce None f = NaN)
  /\ (forall fuel, drain fuel (Iter None) = [])
  /\ (Next (Iter None)).2 = false
  /\ (forall f, Map None f = None)
  /\ (forall v, WithNewValue None v = None)
  /\ LastNotNull None = (0, NaN)
  /\ (forall status, Increase None status = None)
  /\ (forall x, Increase x None = None)
  /\ (forall y f, Aggregate2 None y f = None)
  /\ (forall x f, Aggregate2 x None f = None).
Proof.
  repeat split; try reflexivity.
  - intros fuel. by destruct fuel.
  - by intros [x|].
  - by intros [x|].
Qed.

(** ** C3: reduction with NanSum *)

Lemma NanSum_missing_right t s :
  NanSum t s NaN = if IsNaN s then F32.zero else s.
Proof. reflexivity. Qed.


Lemma NanSum_fold_missing t step data : forall acc,
  Forall missing data ->
  fold_left (fun a '(t, v) => NanSum t a v) (samples_from t step data) acc
  = match data with
    | [] => acc
    | _ => if IsNaN acc then F32.zero else acc
    end.
Proof.
  revert t. induction data as [|v data IH]; intros t acc Hall; [done|].
  inversion Hall as [|? ? Hv Hall']; subst. apply IsNaN_true in Hv. subst v.
  cbn [samples_from fold_left]. rewrite (IH _ _ Hall').
  rewrite NanSum_missing_right.
  destruct data; [done|].
  destruct (IsNaN acc) eqn:E; [reflexivity|by rewrite E].
Qed.

(** The running sum is missing after a pass only if it was missing before a
    pass over no value, or if the sum of two present values is undefined. *)
Lemma NanSum_fold_undefined t step data : forall acc,
  missing (fold_left (fun a '(t, v) => NanSum t a v)
             (samples_from t step data) acc) ->
  (data = [] /\ missing acc)
  \/ exists s v, present s /\ present v /\ v ∈ data /\ missing (F32.add s v).
Proof.
  revert t. induction data as [|v data IH]; intros t acc Hr; [by left|].
  cbn [samples_from fold_left] in Hr. right.
  destruct (IH _ _ Hr) as [[-> Hacc]|(s & v' & Hs & Hv' & Hin & Hadd)].
  - unfold missing, NanSum in Hacc.
    destruct (IsNaN v) eqn:Hv; cbn [negb] in Hacc.
    + by destruct (IsNaN acc) eqn:Ha; [|rewrite Ha in Hacc].
    + exists (if IsNaN acc then F32.zero else acc), v.
      split; [|split; [done|split; [left|done]]].
      unfold present. by destruct (IsNaN acc) eqn:Ha.
  - exists s, v'. split; [done|]. split; [done|]. split; [by right|done].
Qed.



(** ** C1: Increase *)

Lemma increase_loop_length prev prevStatus xs ss :
  length xs = length ss ->
  length (increase_loop prev prevStatus xs ss) = length xs.
Proof.
  revert prev prevStatus ss. induction xs as [|v xs IH]; intros p q [|s ss] Hlen;
    cbn in *; try done. f_equal. apply IH. lia.
Qed.

(** What the loop stores at step [i]: the delta of the current sample against
    the sample and the status of the step before. *)
Lemma increase_loop_lookup xs : forall prev prevStatus ss i curr,
  length xs = length ss ->
  xs !! i = Some curr ->
  increase_loop prev prevStatus xs ss !! i
  = Some (increase_delta
            (match i with O => prev | S j => default NaN (xs !! j) end)
            (match i with O => prevStatus | S j => default NaN (ss !! j) end)
            curr).
Proof.
  induction xs as [|v xs IH]; intros p q [|s ss] i curr Hlen Hi; cbn in *; try done.
  destruct i as [|i]; cbn in *.
  - by inversion Hi.
  - etrans; [apply (IH v s ss i curr); [lia|done]|].
    by destruct i.
Qed.

Lemma increase_delta_both_present prev prevStatus v :
  present v -> present prev ->
  increase_delta prev prevStatus v
  = if F32.geb (F32.sub v prev) F32.zero then F32.sub v prev else v.
Proof.
  unfold present, increase_delta. by intros -> ->.
Qed.

Lemma increase_delta_first_seen prev prevStatus v :
  missing prev -> F32.eqb prevStatus F32.one = true ->
  increase_delta prev prevStatus v = v.
Proof.
  unfold missing, increase_delta. intros -> ->.
  by rewrite andb_false_r.
Qed.

Lemma increase_delta_otherwise prev prevStatus v :
  (missing v /\ present prev)
  \/ (missing prev /\ F32.eqb prevStatus F32.one = false) ->
  increase_delta prev prevStatus v = NaN.
Proof.
  unfold missing, present, increase_delta.
  intros [[-> ->] | [-> ->]]; [done|]. by rewrite andb_false_r.
Qed.

(** The one case in which both values are present and their difference is
    neither non-negative nor negative: two infinities of the same sign.  The
    difference is undefined, the test [v-prev >= 0] fails, and the delta is
    the current value. *)
Remark increase_delta_undefined_difference prevStatus :
  F32.sub (S754_infinity false) (S754_infinity false) = NaN
  /\ increase_delta (S754_infinity false) prevStatus (S754_infinity false)
     = S754_infinity false.
Proof. split; reflexivity. Qed.

(** C1, the claim refuted: with two equal infinities next to each other,
    both values are present, their difference is undefined (so it is not
    non-negative), the current value is not below the previous one, and the
    previous value is not missing: none of the three cases of the claim
    applies, and it asks for a missing delta.  The code yields the current
    value. *)
Lemma Increase_equal_infinities_counterexample :
  Increase (NewWithData 0 15 [S754_infinity false; S754_infinity false])
           (NewWithData 0 15 [F32.zero; F32.zero])
  = NewWithData 0 15 [NaN; S754_infinity false]
  /\ IsNaN (S754_infinity false) = false
  /\ F32.valid (S754_infinity false) = true
  /\ F32.geb (F32.sub (S754_infinity false) (S754_infinity false)) F32.zero
     = false
  /\ F32.ltb (S754_infinity false) (S754_infinity false) = false.
Proof. repeat split; reflexivity. Qed.

(** C1, as amended.  For a counter series [x] and a status series [s] of
    equal shape,
    [Increase x s] has the window of [x] and holds at every step [i], with
    [curr] the value of [x] at [i] and [prev], [prevStatus] the values of [x]
    and [s] at the step before (missing at the first step):
    - [curr - prev] when both are present and the difference is
      non-negative;
    - [curr] when both are present and the difference is not non-negative:
      when [curr < prev] (counter reset), and also when the difference is
      undefined (two infinities of the same sign);
    - [curr] when [prev] is missing and [prevStatus] equals 1;
    - missing otherwise: [curr] missing next to a present [prev], or [prev]
      missing and [prevStatus] not 1.
    For the counter [10,15,12,14] with status [1,1,1,1] the result is
    [NaN,5,12,2]. *)
Theorem Increase_rule :
  (forall x s : TimeSeriesData,
     length (ts_data x) = length (ts_data s) ->
     Forall (fun v => F32.valid v = true) (ts_data x) ->
     exists out,
       Increase (Some x) (Some s) = Some out
       /\ ts_from out = ts_from x /\ ts_step out = ts_step x
       /\ length (ts_data out) = length (ts_data x)
       /\ forall i curr, ts_data x !! i = Some curr ->
          let prev := sample_before (ts_data x) i in
          let prevStatus := sample_before (ts_data s) i in
          exists delta,
            ts_data out !! i = Some delta
            /\ (present curr -> present prev ->
                F32.geb (F32.sub curr prev) F32.zero = true ->
                delta = F32.sub curr prev)
            /\ (present curr -> present prev ->
                F32.geb (F32.sub curr prev) F32.zero = false ->
                delta = curr)
            /\ (present curr -> present prev ->
                F32.ltb curr prev = true ->
                delta = curr)
            /\ (missing prev -> F32.eqb prevStatus F32.one = true ->
                delta = curr)
            /\ (missing curr -> present prev -> delta = NaN)
            /\ (missing prev -> F32.eqb prevStatus F32.one = false ->
                delta = NaN))
  /\ (forall from step,
        Increase
          (NewWithData from step
             [F32.of_Z 10; F32.of_Z 15; F32.of_Z 12; F32.of_Z 14])
          (NewWithData from step
             [F32.of_Z 1; F32.of_Z 1; F32.of_Z 1; F32.of_Z 1])
        = NewWithData from step [NaN; F32.of_Z 5; F32.of_Z 12; F32.of_Z 2]).
Proof.
  split; [|reflexivity].
  intros x s Hlen Hvalid.
  exists (mkTS (ts_from x) (ts_step x)
            (increase_loop NaN NaN (ts_data x) (ts_data s))).
  cbn [Increase NewWithData ts_from ts_step ts_data].
  split; [done|]. split; [done|]. split; [done|].
  split; [by apply increase_loop_length|].
  intros i curr Hi.
  set (prev := sample_before (ts_data x) i).
  set (prevStatus := sample_before (ts_data s) i).
  exists (increase_delta prev prevStatus curr). split.
  { rewrite (increase_loop_lookup _ NaN NaN _ i curr Hlen Hi).
    by destruct i. }
  assert (Hprev_valid : present prev -> F32.valid prev = true).
  { subst prev. destruct i as [|j]; cbn [sample_before]; [done|].
    destruct (ts_data x !! j) as [p|] eqn:Hj; cbn [default]; [|done].
    intros _. by eapply (Forall_lookup_1 _ _ _ _ Hvalid Hj). }
  assert (Hcurr_valid : F32.valid curr = true)
    by (by eapply (Forall_lookup_1 _ _ _ _ Hvalid Hi)).
  repeat split.
  - intros Hc Hp Hge. by rewrite increase_delta_both_present, Hge.
  - intros Hc Hp Hge. by rewrite increase_delta_both_present, Hge.
  - intros Hc Hp Hlt.
    rewrite increase_delta_both_present by done.
    by rewrite ltb_sub_negative by auto.
  - intros Hp Hs. by apply increase_delta_first_seen.
  - intros Hc Hp. apply increase_delta_otherwise. by left.
  - intros Hp Hs. apply increase_delta_otherwise. by right.
Qed.

(** The rule at work on the counter [10,15,12,14] under the status
    [1,1,1,1]. *)
Lemma Increase_rule_witness :
  exists out,
    Increase (Some (mkTS 0 15 [F32.of_Z 10; F32.of_Z 15; F32.of_Z 12; F32.of_Z 14]))
             (Some (mkTS 0 15 [F32.of_Z 1; F32.of_Z 1; F32.of_Z 1; F32.of_Z 1]))
    = Some out
    /\ ts_data out !! 2%nat = Some (F32.of_Z 12).
Proof.
  destruct (proj1 Increase_rule
              (mkTS 0 15 [F32.of_Z 10; F32.of_Z 15; F32.of_Z 12; F32.of_Z 14])
              (mkTS 0 15 [F32.of_Z 1; F32.of_Z 1; F32.of_Z 1; F32.of_Z 1])
              eq_refl)
    as (out & Hout & _ & _ & _ & Hrule).
  { repeat constructor. }
  exists out. split; [exact Hout|].
  destruct (Hrule 2%nat (F32.of_Z 12) eq_refl) as (delta & Hd & _ & _ & Hreset & _).
  rewrite Hd. f_equal. by apply Hreset.
Defined.

(** ** C8: get-or-create of applications *)

Lemma GetApplication_Some w id a :
  World.GetApplication w id = Some a ->
  exists app, World.Applications w !! a = Some app /\ Application.Id app = id.
Proof.
  unfold World.GetApplication. intros Hfind.
  destruct (list_find _ _) as [[k app]|] eqn:Hf; [|done].
  cbn in Hfind. inversion Hfind; subst k.
  apply list_find_Some in Hf as (Hl & Hid & _). eauto.
Qed.

Lemma GetApplication_None w id :
  World.GetApplication w id = None <-> id ∉ app_ids w.
Proof.
  unfold World.GetApplication, app_ids.
  rewrite fmap_None, list_find_None, Forall_forall, list_elem_of_fmap.
  split.
  - intros H (app & -> & Hin). by apply (H app).
  - intros H app Hin Hid. apply H. eauto.
Qed.

Lemma GetOrCreateApplication_found w id :
  World.GetApplication (World.GetOrCreateApplication w id).1 id
  = Some (World.GetOrCreateApplication w id).2.
Proof.
  unfold World.GetOrCreateApplication.
  destruct (World.GetApplication w id) as [a|] eqn:Hget; cbn [fst snd]; [done|].
  unfold World.GetApplication in *. cbn [World.set_Applications World.Applications].
  apply fmap_None in Hget. rewrite list_find_app_r by done.
  cbn. rewrite decide_True by done. reflexivity.
Qed.

Lemma GetApplication_stable w id id' a :
  World.GetApplication w id = Some a ->
  World.GetApplication (World.GetOrCreateApplication w id').1 id = Some a.
Proof.
  intros Hget. unfold World.GetOrCreateApplication.
  destruct (World.GetApplication w id') as [a'|]; cbn [fst]; [done|].
  unfold World.GetApplication in *. cbn [World.set_Applications World.Applications].
  destruct (list_find _ (World.Applications w)) as [[k app]|] eqn:Hf; [|done].
  by rewrite (list_find_app_l _ _ _ _ _ Hf).
Qed.

Lemma GetOrCreateApplication_NoDup w id :
  NoDup (app_ids w) -> NoDup (app_ids (World.GetOrCreateApplication w id).1).
Proof.
  intros Hnd. unfold World.GetOrCreateApplication.
  destruct (World.GetApplication w id) as [a|] eqn:Hget; cbn [fst]; [done|].
  apply GetApplication_None in Hget.
  unfold app_ids in *. cbn [World.set_Applications World.Applications].
  rewrite fmap_app. apply NoDup_app. split; [done|]. split.
  - intros x Hx [->|[]%elem_of_nil]%elem_of_cons. done.
  - cbn. apply NoDup_singleton.
Qed.

Lemma GetOrCreateApplication_lookup w id a app :
  World.Applications w !! a = Some app ->
  World.Applications (World.GetOrCreateApplication w id).1 !! a = Some app.
Proof.
  intros Ha. unfold World.GetOrCreateApplication.
  destruct (World.GetApplication w id); cbn [fst]; [done|].
  cbn [World.set_Applications World.Applications].
  by apply lookup_app_l_Some.
Qed.

(** Calls for further identities leave an application where it is. *)
Lemma world_of_from_lookup ids : forall w a app,
  World.Applications w !! a = Some app ->
  World.Applications
    (foldl (fun w id => (World.GetOrCreateApplication w id).1) w ids) !! a
  = Some app.
Proof.
  induction ids as [|id ids IH]; intros w a app Ha; cbn [foldl]; [done|].
  by apply IH, GetOrCreateApplication_lookup.
Qed.

Lemma world_of_from_stable ids : forall w id a,
  World.GetApplication w id = Some a ->
  World.GetApplication
    (foldl (fun w id => (World.GetOrCreateApplication w id).1) w ids) id
  = Some a.
Proof.
  induction ids as [|id' ids IH]; intros w id a Ha; cbn [foldl]; [done|].
  by apply IH, GetApplication_stable.
Qed.

(** C8.  Get-or-create is idempotent under equality of the identity values.
    A call for an identity that the world holds returns that application
    and leaves the world as it is; a call for an identity that it does not
    hold appends a new application of that identity and returns it; in both
    cases every application of the world stays where it is, and the nodes
    are left alone.  So a second call with an identical identity returns the
    same application (the same element of the list, with the same contents)
    and leaves the world as it is, also after calls for other identities in
    between; the application returned carries the identity asked for; and
    the list of applications never holds two applications of equal
    identity: a call keeps the list free of duplicates, so every world built
    from a new world by such calls is. *)
Theorem GetOrCreateApplication_idempotent :
  (forall w id,
     World.GetOrCreateApplication (World.GetOrCreateApplication w id).1 id
     = World.GetOrCreateApplication w id)
  /\ (forall w id,
        app_ids (World.GetOrCreateApplication w id).1
          !! (World.GetOrCreateApplication w id).2 = Some id)
  /\ (forall w id id',
        (World.GetOrCreateApplication
           (World.GetOrCreateApplication
              (World.GetOrCreateApplication w id).1 id').1 id).2
        = (World.GetOrCreateApplication w id).2)
  /\ (forall w id,
        NoDup (app_ids w) ->
        NoDup (app_ids (World.GetOrCreateApplication w id).1))
  /\ (forall ids, NoDup (app_ids (world_of ids)))
  /\ (forall w id a,
        World.GetApplication w id = Some a ->
        World.GetOrCreateApplication w id = (w, a))
  /\ (forall w id,
        World.GetApplication w id = None ->
        World.GetOrCreateApplication w id
        = (World.set_Applications w
             (World.Applications w ++ [Application.NewApplication id]),
           length (World.Applications w)))
  /\ (forall w id a app,
        World.Applications w !! a = Some app ->
        World.Applications (World.GetOrCreateApplication w id).1 !! a
        = Some app)
  /\ (forall w id,
        World.Nodes (World.GetOrCreateApplication w id).1 = World.Nodes w
        /\ World.KubeStateMetricsInstalled (World.GetOrCreateApplication w id).1
           = World.KubeStateMetricsInstalled w
        /\ (length (World.Applications w)
            <= length (World.Applications (World.GetOrCreateApplication w id).1)
            <= S (length (World.Applications w)))%nat)
  /\ (forall w id,
        World.GetApplication (World.GetOrCreateApplication w id).1 id
        = Some (World.GetOrCreateApplication w id).2)
  /\ (forall w id ids,
        let w1 := (World.GetOrCreateApplication w id).1 in
        let a := (World.GetOrCreateApplication w id).2 in
        let w2 :=
          foldl (fun w id => (World.GetOrCreateApplication w id).1) w1 ids in
        World.GetOrCreateApplication w2 id = (w2, a)
        /\ World.Applications w2 !! a = World.Applications w1 !! a
        /\ is_Some (World.Applications w1 !! a)).
Proof.
  split; [|split; [|split; [|split; [|split; [|split; [|split; [|split;
    [|split; [|split]]]]]]]]].
  - intros w id.
    pose proof (GetOrCreateApplication_found w id) as Hfound.
    unfold World.GetOrCreateApplication at 1. rewrite Hfound.
    by destruct (World.GetOrCreateApplication w id).
  - intros w id.
    destruct (GetApplication_Some _ _ _ (GetOrCreateApplication_found w id))
      as (app & Hl & Hid).
    unfold app_ids. by rewrite list_lookup_fmap, Hl, <- Hid.
  - intros w id id'.
    pose proof (GetApplication_stable _ _ id' _ (GetOrCreateApplication_found w id)) as H.
    unfold World.GetOrCreateApplication at 1. by rewrite H.
  - apply GetOrCreateApplication_NoDup.
  - intros ids. unfold world_of.
    assert (Hgen : forall w, NoDup (app_ids w) ->
              NoDup (app_ids (foldl (fun w id => (World.GetOrCreateApplication w id).1) w ids))).
    { induction ids as [|id ids IH]; intros w Hw; cbn [foldl]; [done|].
      apply IH. by apply GetOrCreateApplication_NoDup. }
    apply Hgen. constructor.
  - intros w id a Hget. unfold World.GetOrCreateApplication. by rewrite Hget.
  - intros w id Hget. unfold World.GetOrCreateApplication. by rewrite Hget.
  - intros w id a app. apply GetOrCreateApplication_lookup.
  - intros w id. unfold World.GetOrCreateApplication.
    destruct (World.GetApplication w id); cbn [fst]; [by repeat split; lia|].
    cbn [World.set_Applications World.Nodes World.KubeStateMetricsInstalled
         World.Applications].
    split; [done|]. split; [done|]. rewrite List.length_app. cbn [length]. lia.
  - apply GetOrCreateApplication_found.
  - intros w id ids w1 a w2.
    pose proof (GetOrCreateApplication_found w id) as Hfound.
    fold w1 a in Hfound.
    destruct (GetApplication_Some _ _ _ Hfound) as (app & Hl & _).
    split; [|split; [|by exists app]].
    + pose proof (world_of_from_stable ids w1 id a Hfound) as Hst.
      fold w2 in Hst. unfold World.GetOrCreateApplication. by rewrite Hst.
    + rewrite Hl. by apply world_of_from_lookup.
Qed.

(** ** C4: owner resolution of pods *)

Lemma substring_0_length s : String.substring 0 (String.length s) s = s.
Proof. induction s as [|c s IH]; cbn; [done|]. by rewrite IH. Qed.

Lemma substring_app_l s t :
  String.substring 0 (String.length s) (s +:+ t) = s.
Proof.
  induction s as [|c s IH]; simpl.
  - by destruct t.
  - by rewrite IH.
Qed.

Lemma substring_app_r s t :
  String.substring (String.length s) (String.length t) (s +:+ t) = t.
Proof.
  induction s as [|c s IH]; simpl; [apply substring_0_length|done].
Qed.

Lemma length_app s t :
  String.length (s +:+ t) = (String.length s + String.length t)%nat.
Proof. induction s as [|c s IH]; simpl; [done|]. by rewrite IH. Qed.

Lemma TrimSuffix_app s suffix : TrimSuffix (s +:+ suffix) suffix = s.
Proof.
  unfold TrimSuffix, HasSuffix. rewrite length_app.
  replace (String.length s + String.length suffix - String.length suffix)%nat
    with (String.length s) by lia.
  rewrite substring_app_r, String.eqb_refl, substring_app_l.
  destruct (Nat.leb_spec (String.length suffix) (String.length s + String.length suffix)); [done|lia].
Qed.

Lemma GetApplication_insert w a app' id :
  World.GetApplication w id = Some a ->
  Application.Id app' = id ->
  World.GetApplication
    (World.set_Applications w (<[a := app']> (World.Applications w))) id
  = Some a.
Proof.
  unfold World.GetApplication. cbn [World.set_Applications World.Applications].
  intros Hget Hid.
  destruct (list_find _ (World.Applications w)) as [[k app]|] eqn:Hf; [|done].
  cbn in Hget. inversion Hget; subst k.
  apply list_find_Some in Hf as (Hl & _ & Hleast).
  assert (Hnew : list_find (fun a0 => Application.Id a0 = id)
                   (<[a := app']> (World.Applications w)) = Some (a, app')).
  { apply list_find_Some. split; [|split; [done|]].
    - apply list_lookup_insert_eq. by eapply lookup_lt_Some.
    - intros j y Hj Hlt. rewrite list_lookup_insert_ne in Hj by lia. eauto. }
  by rewrite Hnew.
Qed.

Lemma GetOrCreateInstance_spec a name node :
  Application.Id (Application.GetOrCreateInstance a name node).1 = Application.Id a
  /\ exists inst,
       Application.Instances (Application.GetOrCreateInstance a name node).1
         !! (Application.GetOrCreateInstance a name node).2 = Some inst
       /\ Instance.Name inst = name.
Proof.
  unfold Application.GetOrCreateInstance.
  destruct (list_find _ _) as [[k inst]|] eqn:Hf; cbn [fst snd].
  - apply list_find_Some in Hf as (Hl & Hn & _). eauto.
  - split; [done|]. cbn [Application.set_Instances Application.Instances].
    eexists. split; [apply list_lookup_middle; reflexivity|done].
Qed.

Lemma podInfo_step_ingest ParseIP w pods m id :
  pod_series_read ParseIP m = false \/ is_Some (Last (MetricValues.Values m)) ->
  podAppId (MetricValues.label m "namespace") (MetricValues.label m "pod")
           (MetricValues.label m "node") (MetricValues.label m "created_by_kind")
           (MetricValues.label m "created_by_name") = Some id ->
  ingested (podInfo_step ParseIP (w, pods) m) id
           (MetricValues.label m "pod") (MetricValues.label m "uid").
Proof.
  intros Hread Hid. unfold podInfo_step. rewrite Hid.
  set (w0 := World.set_KubeStateMetricsInstalled w true).
  pose proof (GetOrCreateApplication_found w0 id) as Hfound.
  destruct (World.GetOrCreateApplication w0 id) as [w1 a]. cbn [fst snd] in Hfound.
  destruct (GetApplication_Some _ _ _ Hfound) as (app0 & Hl0 & Hid0).
  rewrite Hl0. cbn [mbind option_bind].
  pose proof (GetOrCreateInstance_spec app0 (MetricValues.label m "pod")
                (World.GetNode w0 (MetricValues.label m "node")))
    as (Hid1 & inst & Hinst & Hname).
  destruct (Application.GetOrCreateInstance app0 _ _) as [app1 k].
  cbn [fst snd] in Hid1, Hinst. rewrite Hinst. cbn [mbind option_bind].
  fold (pod_series_read ParseIP m).
  match goal with
  | |- ingested (mbind ?f ?o) _ _ _ =>
      assert (Ho : exists listens, o = Some listens)
  end.
  { destruct Hread as [-> | [lst ->]]; [by eexists|].
    cbn [mbind option_bind]. destruct (pod_series_read ParseIP m); by eexists. }
  destruct Ho as (listens & ->). cbn [mbind option_bind].
  eexists _, _, a, k, _, _. split; [reflexivity|].
  split; [apply GetApplication_insert; [done|]; cbn; congruence|].
  cbn [World.set_Applications World.Applications].
  split; [apply list_lookup_insert_eq; by eapply lookup_lt_Some|].
  split; [cbn; congruence|].
  cbn [Application.set_Instances Application.Instances].
  split; [apply list_lookup_insert_eq; by eapply lookup_lt_Some|].
  split; [done|]. apply lookup_insert_eq.
Qed.

(** A pod that is not dropped and whose series is read, the series being
    non-nil and without points: [Last] panics. *)
Lemma podInfo_step_panic ParseIP w pods m id :
  podAppId (MetricValues.label m "namespace") (MetricValues.label m "pod")
           (MetricValues.label m "node") (MetricValues.label m "created_by_kind")
           (MetricValues.label m "created_by_name") = Some id ->
  pod_series_read ParseIP m = true ->
  Last (MetricValues.Values m) = None ->
  podInfo_step ParseIP (w, pods) m = None.
Proof.
  intros Hid Hread Hlast. unfold podInfo_step. rewrite Hid.
  set (w0 := World.set_KubeStateMetricsInstalled w true).
  pose proof (GetOrCreateApplication_found w0 id) as Hfound.
  destruct (World.GetOrCreateApplication w0 id) as [w1 a]. cbn [fst snd] in Hfound.
  destruct (GetApplication_Some _ _ _ Hfound) as (app0 & Hl0 & Hid0).
  rewrite Hl0. cbn [mbind option_bind].
  pose proof (GetOrCreateInstance_spec app0 (MetricValues.label m "pod")
                (World.GetNode w0 (MetricValues.label m "node")))
    as (Hid1 & inst & Hinst & Hname).
  destruct (Application.GetOrCreateInstance app0 _ _) as [app1 k].
  cbn [fst snd] in Hid1, Hinst. rewrite Hinst. cbn [mbind option_bind].
  fold (pod_series_read ParseIP m). by rewrite Hread, Hlast.
Qed.

Lemma classic_static (ownerKind : string) :
  (ownerKind = "" \/ ownerKind = "<none>" \/ ownerKind = "Node")
  \/ ~ (ownerKind = "" \/ ownerKind = "<none>" \/ ownerKind = "Node").
Proof.
  destruct (decide (ownerKind = "")), (decide (ownerKind = "<none>")),
    (decide (ownerKind = "Node")); tauto.
Qed.

(** C4, the claim refuted: a pod that carries an owner name but no owner
    kind is not dropped; it is ingested as a static-pod application, with an
    instance of its own. *)
Lemma podInfo_owner_name_without_kind_counterexample :
  exists w pods,
    podInfo (fun _ => true) World.NewWorld [orphan_sample] = Some (w, pods)
    /\ app_ids w = [NewApplicationId "default" ApplicationKindStaticPods "web-1"]
    /\ (Application.Instances <$> World.Applications w !! 0%nat)
       = Some [Instance.mk "web-1" None (Some Pod.zero) [] ∅]
    /\ pods !! "u1" = Some (0%nat, 0%nat).
Proof.
  eexists _, _. split; [vm_compute; reflexivity|].
  repeat split; vm_compute; reflexivity.
Qed.

(** C4, as amended.  For every pod sample: if the owner kind is empty,
    "<none>" or "Node", the pod is ingested as a static-pod application
    named by the pod name without its trailing "-<nodeName>", whatever the
    owner name; otherwise, if the owner name is not empty, the pair (owner
    kind, owner name) is the identity of the application it is ingested
    under; otherwise, that is with an owner kind other than these three and
    no owner name, the pod is dropped, whatever its series: no application,
    no instance and no entry in the pod table.  A pod that is not dropped is
    ingested unless its series is read (the pod has an IP address of its
    own that parses) and is a non-nil series without points: then the
    ingestion panics in [Last]. *)
Theorem podInfo_ownership (ParseIP : string -> bool) (w : World.t)
  (pods : gmap string InstancePtr) (m : MetricValues.t) :
  let pod := MetricValues.label m "pod" in
  let ns := MetricValues.label m "namespace" in
  let ownerName := MetricValues.label m "created_by_name" in
  let ownerKind := MetricValues.label m "created_by_kind" in
  let nodeName := MetricValues.label m "node" in
  let uid := MetricValues.label m "uid" in
  let static := ownerKind = "" \/ ownerKind = "<none>" \/ ownerKind = "Node" in
  let readable :=
    pod_series_read ParseIP m = false
    \/ is_Some (Last (MetricValues.Values m)) in
  (static -> readable ->
   ingested (podInfo_step ParseIP (w, pods) m)
     (NewApplicationId ns ApplicationKindStaticPods
        (TrimSuffix pod ("-" +:+ nodeName))) pod uid)
  /\ (~ static -> ownerName <> "" -> readable ->
      ingested (podInfo_step ParseIP (w, pods) m)
        (NewApplicationId ns ownerKind ownerName) pod uid)
  /\ (~ static -> ownerName = "" ->
      podInfo_step ParseIP (w, pods) m
      = Some (World.set_KubeStateMetricsInstalled w true, pods))
  /\ (static \/ ownerName <> "" ->
      pod_series_read ParseIP m = true ->
      Last (MetricValues.Values m) = None ->
      podInfo_step ParseIP (w, pods) m = None)
  /\ (forall base, pod = base +:+ "-" +:+ nodeName ->
      TrimSuffix pod ("-" +:+ nodeName) = base).
Proof.
  intros pod ns ownerName ownerKind nodeName uid static readable.
  assert (Hstatic : static <->
            String.eqb ownerKind "" || String.eqb ownerKind "<none>"
            || String.eqb ownerKind "Node" = true).
  { unfold static. rewrite !orb_true_iff, !String.eqb_eq. tauto. }
  assert (Hs_id : static ->
            podAppId ns pod nodeName ownerKind ownerName
            = Some (NewApplicationId ns ApplicationKindStaticPods
                      (TrimSuffix pod ("-" +:+ nodeName)))).
  { intros Hs%Hstatic. unfold podAppId. by rewrite Hs. }
  assert (Ho_id : ~ static -> ownerName <> "" ->
            podAppId ns pod nodeName ownerKind ownerName
            = Some (NewApplicationId ns ownerKind ownerName)).
  { intros Hs Hname. unfold podAppId.
    destruct (_ || _) eqn:Hk; [by destruct Hs; apply Hstatic|].
    apply orb_false_iff in Hk as [[Hk _]%orb_false_iff _].
    apply String.eqb_neq in Hname. by rewrite Hname, Hk. }
  split; [|split; [|split; [|split]]].
  - intros Hs Hr. apply podInfo_step_ingest; [done|]. by apply Hs_id.
  - intros Hs Hname Hr. apply podInfo_step_ingest; [done|]. by apply Ho_id.
  - intros Hs Hname. unfold podInfo_step, podAppId. fold ownerKind ownerName.
    destruct (_ || _) eqn:Hk; [by destruct Hs; apply Hstatic|].
    by rewrite Hname.
  - intros Hcase Hread Hlast.
    destruct (classic_static ownerKind) as [Hs|Hs].
    + eapply podInfo_step_panic; [by apply Hs_id|done..].
    + destruct Hcase as [?|Hname]; [done|].
      eapply podInfo_step_panic; [by apply Ho_id|done..].
  - intros base ->. apply TrimSuffix_app.
Qed.

(** The rule at work on a pod owned by the replica set "web-5d8f", and on a
    pod whose series is read and has no points. *)
Lemma podInfo_ownership_witness :
  ingested (podInfo_step (fun _ => true) (World.NewWorld, ∅) owned_sample)
    (NewApplicationId "default" "ReplicaSet" "web-5d8f") "web-5d8f-x" "u2"
  /\ podInfo_step (fun _ => true) (World.NewWorld, ∅) pointless_sample = None.
Proof.
  split.
  - refine (proj1 (proj2 (podInfo_ownership (fun _ => true) World.NewWorld ∅
                            owned_sample)) _ _ _).
    + intros [H|[H|H]]; vm_compute in H; discriminate.
    + vm_compute. discriminate.
    + by left.
  - refine (proj1 (proj2 (proj2 (proj2
              (podInfo_ownership (fun _ => true) World.NewWorld ∅
                 pointless_sample)))) _ _ _).
    + right. vm_compute. discriminate.
    + reflexivity.
    + reflexivity.
Defined.

(** ** The outer loop of the detector ends *)

Lemma rss_round_fuel iters t names iters' t' names' :
  rss_round iters t names = Some (iters', t', names') ->
  iters <> [] ->
  iters' <> [] /\ S (rss_fuel iters') = rss_fuel iters.
Proof.
  destruct iters as [|[name it] rest]; [done|]. intros Hround _.
  cbn [rss_round] in Hround.
  destruct (Next it) as [it' ok] eqn:Hnext. destruct ok; [|done].
  destruct (Value it') as [tv v].
  destruct (rss_round rest _ _) as [[[rest' t''] names'']|]; [|done].
  inversion Hround; subst. split; [done|].
  cbn [rss_fuel]. f_equal.
  unfold Next in Hnext. inversion Hnext as [[Hit Hok]]. clear Hnext.
  apply Z.ltb_lt in Hok. cbn [it_idx it_data] in Hok.
  unfold remaining. cbn [it_idx it_data]. lia.
Qed.

(** The loop that builds [rssOverTime] ends within [rss_fuel] rounds: any
    larger bound on the number of rounds gives the same result. *)
Lemma rss_loop_fuel_enough fuel1 : forall fuel2 iters rssOverTime,
  iters <> [] ->
  (rss_fuel iters <= fuel1)%nat -> (rss_fuel iters <= fuel2)%nat ->
  rss_loop fuel1 iters rssOverTime = rss_loop fuel2 iters rssOverTime.
Proof.
  induction fuel1 as [|fuel1 IH]; intros fuel2 iters acc Hne H1 H2.
  - destruct iters as [|[name it] rest]; [done|]. cbn [rss_fuel] in H1. lia.
  - destruct fuel2 as [|fuel2].
    { destruct iters as [|[name it] rest]; [done|]. cbn [rss_fuel] in H2. lia. }
    cbn [rss_loop].
    destruct (rss_round iters 0 []) as [[[iters' t] names]|] eqn:Hround; [|done].
    destruct (rss_round_fuel _ _ _ _ _ _ Hround Hne) as [Hne' Hfuel].
    destruct (length names =? 0)%nat; apply IH; (done || lia).
Qed.

(** ** C10: deployments are detected for kind Deployment only *)

Lemma set_finished_ids id ds i t :
  Forall (fun d => ApplicationDeployment.ApplicationId_ d = id) ds ->
  Forall (fun d => ApplicationDeployment.ApplicationId_ d = id) (set_finished ds i t).
Proof.
  intros H. unfold set_finished. destruct (ds !! i) as [d|] eqn:Hd; [|done].
  apply Forall_insert; [done|]. cbn. by eapply (Forall_lookup_1 _ _ _ _ H Hd).
Qed.

Lemma walk_step_ids id st r :
  Forall (fun d => ApplicationDeployment.ApplicationId_ d = id) (deployments st) ->
  Forall (fun d => ApplicationDeployment.ApplicationId_ d = id)
         (deployments (walk_step id st r)).
Proof.
  intros H. destruct r as [time names]. unfold walk_step.
  destruct names as [|curr [|n2 names]]; [done| |].
  - destruct (String.eqb (prev st) ""); [done|].
    destruct (deployment st) as [i|].
    + destruct (String.eqb curr _);
        (destruct (String.eqb (prev st) curr); cbn [deployments];
         [|apply set_finished_ids, Forall_app; split; [|by repeat constructor]]);
        try done; by apply set_finished_ids.
    + destruct (String.eqb (prev st) curr); cbn [deployments]; [done|].
      apply set_finished_ids, Forall_app. split; [done|by repeat constructor].
  - destruct (String.eqb (prev st) ""); [done|].
    destruct (deployment st); [done|]. cbn [deployments].
    apply Forall_app. split; [done|by repeat constructor].
Qed.

Lemma walk_ids id rs : forall st,
  Forall (fun d => ApplicationDeployment.ApplicationId_ d = id) (deployments st) ->
  Forall (fun d => ApplicationDeployment.ApplicationId_ d = id)
         (deployments (foldl (walk_step id) st rs)).
Proof.
  induction rs as [|r rs IH]; intros st H; cbn [foldl]; [done|].
  by apply IH, walk_step_ids.
Qed.

Lemma calcDeployments_ids app :
  Forall (fun d => ApplicationDeployment.ApplicationId_ d = Application.Id app)
         (calcDeployments app).
Proof.
  unfold calcDeployments. destruct (_ || _); [done|].
  unfold calcDeployments_walk.
  destruct (foldl collect_step _ _) as [lifeSpans images].
  destruct (_ =? _)%nat; [done|].
  apply Forall_fmap. eapply Forall_impl; [apply walk_ids; constructor|].
  intros d Hd. cbn. by destruct (assoc_get _ _).
Qed.

Lemma calcDeployments_empty app :
  ApplicationId.Kind (Application.Id app) <> ApplicationKindDeployment
  \/ Application.Instances app = [] ->
  calcDeployments app = [].
Proof.
  intros H. unfold calcDeployments.
  destruct H as [Hk%String.eqb_neq | Hi]; [by rewrite Hk|].
  rewrite Hi. by rewrite orb_true_r.
Qed.

Section WatcherFacts.

Variable SaveApplicationDeployment : ApplicationDeployment.t -> bool.
Variable ApplicationDeploymentStateSummary : ApplicationDeploymentState.

Lemma calcInitialDeployment_id app now :
  ApplicationDeployment.ApplicationId_
    (calcInitialDeployment ApplicationDeploymentStateSummary app now)
  = Application.Id app.
Proof. unfold calcInitialDeployment. by destruct (foldl _ _ _). Qed.

Lemma save_loop_log ds : forall app log ev,
  ev ∈ (save_loop SaveApplicationDeployment app ds log).2 ->
  ev ∈ log \/ exists d, d ∈ ds /\ ev = EvSaveDeployment d.
Proof.
  induction ds as [|d ds IH]; intros app log ev; cbn [save_loop snd]; [by left|].
  set (known := List.find _ _).
  set (need := match known with None => true | Some k => _ end).
  destruct need.
  - destruct (SaveApplicationDeployment d); cbn [negb snd].
    + intros [[Hin|Hin%list_elem_of_singleton]%elem_of_app | (d' & Hd' & ->)]%IH.
      * by left.
      * right. exists d. split; [left|done].
      * right. exists d'. split; [by right|done].
    + intros [Hin|Hin%list_elem_of_singleton]%elem_of_app; [by left|].
      right. exists d. split; [left|done].
  - cbn [negb]. intros [Hin | (d' & Hd' & ->)]%IH; [by left|].
    right. exists d'. split; [by right|done].
Qed.

Lemma discover_app_skip cacheTo app :
  ApplicationId.Kind (Application.Id app) <> ApplicationKindDeployment ->
  discover_app SaveApplicationDeployment ApplicationDeploymentStateSummary cacheTo app
  = (Some app, []).
Proof.
  intros Hk%String.eqb_neq. unfold discover_app. by rewrite Hk.
Qed.

Lemma discover_app_log cacheTo app ev :
  ev ∈ (discover_app SaveApplicationDeployment ApplicationDeploymentStateSummary
          cacheTo app).2 ->
  exists d, ev = EvSaveDeployment d
            /\ ApplicationDeployment.ApplicationId_ d = Application.Id app
            /\ ApplicationId.Kind (Application.Id app) = ApplicationKindDeployment.
Proof.
  unfold discover_app.
  destruct (String.eqb _ _) eqn:Hk; cbn [negb]; [|by intros ?%elem_of_nil].
  apply String.eqb_eq in Hk.
  destruct (_ && _).
  - intros ->%list_elem_of_singleton. eexists. split; [done|].
    split; [apply calcInitialDeployment_id|done].
  - intros [?%elem_of_nil | (d & Hd & ->)]%save_loop_log; [done|].
    exists d. split; [done|]. split; [|done].
    by eapply (proj1 (Forall_forall _ _) (calcDeployments_ids app)).
Qed.

Lemma discover_loop_log cacheTo apps ev :
  ev ∈ (discover_loop SaveApplicationDeployment ApplicationDeploymentStateSummary
          cacheTo apps).2 ->
  exists d, ev = EvSaveDeployment d
            /\ ApplicationId.Kind (ApplicationDeployment.ApplicationId_ d)
               = ApplicationKindDeployment.
Proof.
  induction apps as [|app apps IH]; cbn [discover_loop snd]; [by intros ?%elem_of_nil|].
  pose proof (discover_app_log cacheTo app ev) as Happ.
  destruct (discover_app _ _ cacheTo app) as [[app'|] log]; cbn [snd] in *.
  - destruct (discover_loop _ _ cacheTo apps) as [rest log']. cbn [snd] in *.
    intros [Hin|Hin]%elem_of_app; [|by apply IH].
    destruct (Happ Hin) as (d & -> & Hid & Hk). exists d. by rewrite Hid.
  - intros Hin. destruct (Happ Hin) as (d & -> & Hid & Hk). exists d. by rewrite Hid.
Qed.

End WatcherFacts.

(** C10, the claim refuted: an application of kind Deployment without
    instances is not skipped by the watcher pass.  [calcDeployments] is empty
    for it, and, having no recorded deployments, it gets an initial
    deployment saved. *)
Lemma discover_deployment_without_instances_counterexample :
  calcDeployments bare_deployment_app = []
  /\ discover_app (fun _ => true) 5 1000 bare_deployment_app
     = (Some bare_deployment_app,
        [EvSaveDeployment
           (ApplicationDeployment.mk
              (NewApplicationId "default" ApplicationKindDeployment "web")
              "" 1000 1000 None None
              (Some (ApplicationDeploymentNotifications.mk 5 0 0)))]).
Proof. split; reflexivity. Qed.

(** C10, as amended.  Deployment detection produces records only for
    applications of kind Deployment: [calcDeployments] returns an empty
    result for every application whose kind is not Deployment or which has no
    instances; the watcher pass skips every application whose kind is not
    Deployment (no call to the store, the application unchanged); and every
    record a pass saves carries an identity of kind Deployment, so none is
    recorded for a StatefulSet, DaemonSet or static-pod application.  An
    application of kind Deployment without instances is not skipped: when it
    has no recorded deployments, the pass saves its initial deployment. *)
Theorem deployments_only_for_kind_Deployment
  (SaveApplicationDeployment : ApplicationDeployment.t -> bool)
  (ApplicationDeploymentStateSummary : ApplicationDeploymentState) :
  (forall app,
     ApplicationId.Kind (Application.Id app) <> ApplicationKindDeployment
     \/ Application.Instances app = [] ->
     calcDeployments app = [])
  /\ (forall cacheTo app,
        ApplicationId.Kind (Application.Id app) <> ApplicationKindDeployment ->
        discover_app SaveApplicationDeployment ApplicationDeploymentStateSummary
          cacheTo app = (Some app, []))
  /\ (forall cacheTo apps ev,
        ev ∈ (discover_loop SaveApplicationDeployment
                ApplicationDeploymentStateSummary cacheTo apps).2 ->
        exists d, ev = EvSaveDeployment d
                  /\ ApplicationId.Kind (ApplicationDeployment.ApplicationId_ d)
                     = ApplicationKindDeployment)
  /\ (forall cacheTo app,
        ApplicationId.Kind (Application.Id app) = ApplicationKindDeployment ->
        Application.Instances app = [] ->
        Application.Deployments app = [] ->
        discover_app SaveApplicationDeployment ApplicationDeploymentStateSummary
          cacheTo app
        = (Some app,
           [EvSaveDeployment
              (calcInitialDeployment ApplicationDeploymentStateSummary app
                 cacheTo)])).
Proof.
  split; [|split; [|split]].
  - apply calcDeployments_empty.
  - apply discover_app_skip.
  - apply discover_loop_log.
  - intros cacheTo app Hk Hi Hd. unfold discover_app.
    rewrite (calcDeployments_empty app) by (by right).
    rewrite Hk, Hd. reflexivity.
Qed.

(** The pass over a stateful set: skipped. *)
Lemma deployments_only_for_kind_Deployment_witness :
  discover_app (fun _ => true) 5 1000 statefulset_app = (Some statefulset_app, []).
Proof.
  apply (proj1 (proj2 (deployments_only_for_kind_Deployment (fun _ => true) 5))).
  vm_compute. discriminate.
Defined.

(** ** C2: the rollout that reverted *)

Lemma wrap64_id z : int64_range z -> wrap64 z = z.
Proof.
  unfold int64_range, wrap64.
  change (2 ^ 63) with 9223372036854775808.
  change (2 ^ 64) with 18446744073709551616.
  intros H. rewrite Z.mod_small by lia. lia.
Qed.

Lemma advance_exact step n : forall t,
  int64_range t -> int64_range (t + Z.of_nat n * step) ->
  advance t step n = t + Z.of_nat n * step.
Proof.
  induction n as [|n IH]; intros t Ht Hn; cbn [advance]; [lia|].
  assert (Hstep : int64_range (t + step)).
  { unfold int64_range in *.
    change (2 ^ 63) with 9223372036854775808 in *. nia. }
  unfold TimeOps.Add. rewrite (wrap64_id _ Hstep).
  rewrite IH; [lia|done|].
  by replace (t + step + Z.of_nat n * step) with (t + Z.of_nat (S n) * step) by lia.
Qed.

(** Without overflow, step [i] is at time [from + i*step]. *)
Lemma step_time_exact from step i :
  int64_range (from - step) -> int64_range (from + Z.of_nat i * step) ->
  step_time from step i = from + Z.of_nat i * step.
Proof.
  intros Hlo Hhi. unfold step_time, TimeOps.Add.
  replace (from + - step) with (from - step) by lia.
  rewrite (wrap64_id _ Hlo). rewrite advance_exact; [lia|done|].
  by replace (from - step + Z.of_nat (S i) * step) with (from + Z.of_nat i * step) by lia.
Qed.

Lemma revert_walk_eval from step :
  calcDeployments (revert_app from step)
  = [instant_deployment "rs-b" (step_time from step 3);
     instant_deployment "rs-a" (step_time from step 5)]
  /\ calcDeployments (revert_app_swapped from step)
     = [instant_deployment "rs-b" (step_time from step 3);
        instant_deployment "rs-a" (step_time from step 5)]
  /\ prev (calcDeployments_walk (revert_app from step)) = "rs-a"
  /\ prev (calcDeployments_walk (revert_app_swapped from step)) = "rs-a"
  /\ deployment (calcDeployments_walk (revert_app from step)) = None.
Proof.
  split; [|split; [|split; [|split]]]; lazy -[TimeOps.Add]; reflexivity.
Qed.

(** C2, the claim refuted: on a grid starting at 0 with step 15 the detector
    returns two deployments, not one, and the one named "rs-b" starts and
    finishes at the same step (time 45, the first step at which rs-b is
    active): it does not span the two middle steps. *)
Lemma revert_rollout_counterexample :
  calcDeployments (revert_app 0 15)
  = [instant_deployment "rs-b" 45; instant_deployment "rs-a" 75]
  /\ length (calcDeployments (revert_app 0 15)) = 2%nat.
Proof. split; vm_compute; reflexivity. Qed.

(** C2, as amended.  For the detector run on the two life-span series
    rs-a=[1,1,1,0,0,1,1,1] and rs-b=[0,0,0,1,1,0,0,0], on any time grid that
    fits in the 64-bit timestamps and in either order of the instances, the
    result is two deployments, each opened and closed at one step: the first
    with Name="rs-b" and StartedAt=FinishedAt= the time of step 3 (the first
    step at which rs-b is active), the second with Name="rs-a" and
    StartedAt=FinishedAt= the time of step 5 (the first step at which rs-a is
    active again); no deployment is left in progress and the rolling
    previous-active-name state ends at "rs-a". *)
Theorem revert_rollout_two_deployments (from : Time) (step : Duration) :
  int64_range (from - step) -> int64_range (from + 7 * step) ->
  calcDeployments (revert_app from step)
  = [instant_deployment "rs-b" (from + 3 * step);
     instant_deployment "rs-a" (from + 5 * step)]
  /\ calcDeployments (revert_app_swapped from step)
     = [instant_deployment "rs-b" (from + 3 * step);
        instant_deployment "rs-a" (from + 5 * step)]
  /\ prev (calcDeployments_walk (revert_app from step)) = "rs-a"
  /\ prev (calcDeployments_walk (revert_app_swapped from step)) = "rs-a"
  /\ deployment (calcDeployments_walk (revert_app from step)) = None.
Proof.
  intros Hlo Hhi.
  assert (H3 : step_time from step 3 = from + 3 * step).
  { apply (step_time_exact from step 3); [done|].
    unfold int64_range in *. change (Z.of_nat 3) with 3. lia. }
  assert (H5 : step_time from step 5 = from + 5 * step).
  { apply (step_time_exact from step 5); [done|].
    unfold int64_range in *. change (Z.of_nat 5) with 5. lia. }
  rewrite <- H3, <- H5. apply revert_walk_eval.
Qed.

(** The detector on the grid that starts at 1000 with step 15. *)
Lemma revert_rollout_two_deployments_witness :
  calcDeployments (revert_app 1000 15)
  = [instant_deployment "rs-b" 1045; instant_deployment "rs-a" 1075].
Proof.
  refine (proj1 (revert_rollout_two_deployments 1000 15 _ _));
    unfold int64_range; change (2 ^ 63) with 9223372036854775808; lia.
Defined.

(** ** C6: metric snapshots *)

Section SnapshotFacts.

Variable LoadWorld : Time -> Time -> Duration -> option World.t.
Variable calcMetricsSnapshot :
  Application.t -> Time -> Time -> Duration -> MetricsSnapshot.t.
Variable shift window : Duration.
Variable cacheTo : Time.
Variable step : Duration.

#[local] Opaque wrap64.

#[local] Abbreviation snapshot_step' :=
  (snapshot_step LoadWorld calcMetricsSnapshot shift window cacheTo step).

Lemma same_but_snapshot_refl d : same_but_snapshot d d.
Proof. by destruct d. Qed.

Lemma same_but_snapshot_StartedAt d d' :
  same_but_snapshot d d' ->
  ApplicationDeployment.StartedAt d' = ApplicationDeployment.StartedAt d.
Proof. by intros ->. Qed.

Lemma next_or_now_ext ds ds0 i :
  (forall j, ApplicationDeployment.StartedAt <$> ds !! j
             = ApplicationDeployment.StartedAt <$> ds0 !! j) ->
  next_or_now cacheTo ds i = next_or_now cacheTo ds0 i.
Proof.
  intros H. unfold next_or_now. specialize (H (S i)).
  destruct (ds !! S i), (ds0 !! S i); cbn in H; congruence.
Qed.

Lemma snapshot_step_next_or_now (ds : list ApplicationDeployment.t) (i : nat) :
  (i < length ds)%nat ->
  (if Z.of_nat i <? Z.of_nat (length ds) - 1
   then default 0 (ApplicationDeployment.StartedAt <$> ds !! S i)
   else cacheTo) = next_or_now cacheTo ds i.
Proof.
  intros Hi. unfold next_or_now.
  destruct (Z.ltb_spec (Z.of_nat i) (Z.of_nat (length ds) - 1)) as [Hlt|Hge].
  - destruct (lookup_lt_is_Some_2 ds (S i)) as [d Hd]; [lia|]. by rewrite Hd.
  - by rewrite lookup_ge_None_2 by lia.
Qed.

(** One step of the loop: either nothing happens, or deployment [i] had no
    snapshot, its window has elapsed, and it gets one. *)
Lemma snapshot_step_spec a ds i :
  (snapshot_step' a ds i = (ds, []))
  \/ (exists d ms,
        ds !! i = Some d
        /\ snapshot_event_ok shift window cacheTo step a ds
             (EvSnapshot a i d (snapshot_window shift window step d).1
                (snapshot_window shift window step d).2 (next_or_now cacheTo ds i)) i
        /\ snapshot_step' a ds i
           = (<[i := ApplicationDeployment.set_MetricsSnapshot d (Some ms)]> ds,
              [EvSnapshot a i d (snapshot_window shift window step d).1
                 (snapshot_window shift window step d).2 (next_or_now cacheTo ds i)])).
Proof.
  unfold snapshot_step.
  destruct (ds !! i) as [d|] eqn:Hd; [|by left].
  destruct (bool_decide _ || _) eqn:Hguard; [by left|].
  apply orb_false_iff in Hguard as [Hms Hzero].
  apply bool_decide_eq_false in Hms.
  rewrite snapshot_step_next_or_now by (by eapply lookup_lt_Some).
  fold (snapshot_window shift window step d).
  change (TimeOps.Truncate (TimeOps.Add (ApplicationDeployment.FinishedAt d) shift) step)
    with (snapshot_window shift window step d).1.
  change (TimeOps.Truncate (TimeOps.Add (snapshot_window shift window step d).1 window) step)
    with (snapshot_window shift window step d).2.
  destruct (TimeOps.After _ _) eqn:Hafter; [by left|].
  destruct (LoadWorld _ _ _) as [world|]; [|by left].
  destruct (World.GetApplication _ _) as [k|]; [|by left].
  destruct (World.Applications world !! k) as [app|]; [|by left].
  right. eexists d, _. split; [done|]. split; [|reflexivity].
  exists d. split; [done|]. split; [done|].
  split; [by destruct (ApplicationDeployment.MetricsSnapshot_ d) as [ms|]; [destruct Hms; eauto|]|].
  split; [done|].
  unfold TimeOps.After in Hafter. by apply Z.ltb_ge in Hafter.
Qed.

Lemma snapshot_inv_StartedAt a ds0 k ds log :
  snapshot_inv shift window cacheTo step a ds0 k ds log ->
  forall j, ApplicationDeployment.StartedAt <$> ds !! j
            = ApplicationDeployment.StartedAt <$> ds0 !! j.
Proof.
  intros (Hlen & _ & Hrel & _) j.
  destruct (ds0 !! j) as [d0|] eqn:Hd0.
  - destruct (Hrel j d0 Hd0) as (d & -> & Hsame & _). cbn.
    by rewrite (same_but_snapshot_StartedAt _ _ Hsame).
  - apply lookup_ge_None in Hd0. by rewrite lookup_ge_None_2 by lia.
Qed.

Lemma snapshot_key_event_ok a ds0 ev i :
  snapshot_event_ok shift window cacheTo step a ds0 ev i ->
  snapshot_key ev = Some (a, i).
Proof. by intros (d & -> & _). Qed.

Lemma snapshot_inv_step a ds0 k ds log :
  snapshot_inv shift window cacheTo step a ds0 k ds log ->
  snapshot_inv shift window cacheTo step a ds0 (S k) (snapshot_step' a ds k).1
               (log ++ (snapshot_step' a ds k).2).
Proof.
  intros Hinv.
  pose proof (snapshot_inv_StartedAt _ _ _ _ _ Hinv) as Hstart.
  destruct Hinv as (Hlen & Hsame & Hrel & Hlog & Hnd).
  destruct (snapshot_step_spec a ds k) as [-> | (d & ms & Hd & Hok & ->)];
    cbn [fst snd].
  - rewrite app_nil_r. split; [done|]. split; [intros j Hj; apply Hsame; lia|].
    split; [done|]. split; [|done].
    intros ev Hev. destruct (Hlog ev Hev) as (i & Hi & Hrest). exists i.
    split; [lia|done].
  - assert (Hd0 : ds0 !! k = Some d) by (rewrite <- Hsame by lia; done).
    assert (Hk : (k < length ds)%nat) by (by eapply lookup_lt_Some).
    destruct Hok as (d1 & Hev & _ & Hnone & Hzero & Hle).
    inversion Hev; subst d1. clear Hev.
    rewrite (next_or_now_ext ds ds0 k Hstart) in *.
    split; [by rewrite length_insert|].
    split; [intros j Hj; rewrite list_lookup_insert_ne by lia; apply Hsame; lia|].
    split; [|split].
    + intros j d0 Hj. destruct (decide (j = k)) as [->|Hne].
      * rewrite Hd0 in Hj. inversion Hj; subst d0.
        eexists. split; [by apply list_lookup_insert_eq|].
        split; [by destruct d|].
        rewrite Hnone. by intros [? ?].
      * rewrite list_lookup_insert_ne by done. by apply Hrel.
    + intros ev [Hev | ->%list_elem_of_singleton]%elem_of_app.
      * destruct (Hlog ev Hev) as (i & Hi & Hok & d' & Hd' & Hms).
        exists i. split; [lia|]. split; [done|]. exists d'.
        by rewrite list_lookup_insert_ne by lia.
      * exists k. split; [lia|]. split; [by exists d|].
        eexists. split; [by apply list_lookup_insert_eq|]. by eexists.
    + rewrite omap_app. apply NoDup_app. split; [done|]. split.
      * intros key Hkey. cbn. intros ->%list_elem_of_singleton.
        apply list_elem_of_omap in Hkey as (ev & Hev & Hkey).
        destruct (Hlog ev Hev) as (i & Hi & Hok & _).
        rewrite (snapshot_key_event_ok _ _ _ _ Hok) in Hkey.
        inversion Hkey. lia.
      * cbn. apply NoDup_singleton.
Qed.

Lemma snapshot_fold_inv a ds0 n : forall k ds log,
  snapshot_inv shift window cacheTo step a ds0 k ds log ->
  snapshot_inv shift window cacheTo step a ds0 (k + n)
    (foldl (fun '(ds, log) i =>
              let '(ds', log') := snapshot_step' a ds i in (ds', log ++ log'))
           (ds, log) (seq k n)).1
    (foldl (fun '(ds, log) i =>
              let '(ds', log') := snapshot_step' a ds i in (ds', log ++ log'))
           (ds, log) (seq k n)).2.
Proof.
  induction n as [|n IH]; intros k ds log Hinv; cbn [seq foldl fst snd].
  - by rewrite Nat.add_0_r.
  - pose proof (snapshot_inv_step _ _ _ _ _ Hinv) as Hstep.
    destruct (snapshot_step' a ds k) as [ds' log']. cbn [fst snd] in Hstep.
    replace (k + S n)%nat with (S k + n)%nat by lia. by apply IH.
Qed.

Lemma snapshot_app_inv a ds0 :
  snapshot_inv shift window cacheTo step a ds0 (length ds0)
    (snapshot_app LoadWorld calcMetricsSnapshot shift window cacheTo step a ds0).1
    (snapshot_app LoadWorld calcMetricsSnapshot shift window cacheTo step a ds0).2.
Proof.
  unfold snapshot_app. apply (snapshot_fold_inv a ds0 (length ds0) 0%nat ds0 []).
  split; [done|]. split; [done|]. split; [|split].
  - intros j d0 Hj. exists d0. split; [done|].
    split; [apply same_but_snapshot_refl|done].
  - by intros ev ?%elem_of_nil.
  - constructor.
Qed.

Lemma snapshot_loop_ok apps : forall n,
  snapshot_pass_ok shift window cacheTo step n apps
    (snapshot_loop LoadWorld calcMetricsSnapshot shift window cacheTo step n apps).1
    (snapshot_loop LoadWorld calcMetricsSnapshot shift window cacheTo step n apps).2.
Proof.
  induction apps as [|app apps IH]; intros n; cbn [snapshot_loop].
  - split; [by intros k app ?|]. split; [by intros ev ?%elem_of_nil|constructor].
  - pose proof (snapshot_app_inv n (Application.Deployments app))
      as (_ & _ & Hrel & Hlog & Hnd).
    destruct (snapshot_app _ _ _ _ _ _ n _) as [ds log]. cbn [fst snd] in *.
    specialize (IH (S n)) as (IHrel & IHlog & IHnd).
    destruct (snapshot_loop _ _ _ _ _ _ (S n) apps) as [rest' log'].
    cbn [fst snd] in *. split; [|split].
    + intros [|k] app0 Hk; cbn in Hk |- *.
      * inversion Hk; subst app0. eexists. split; [done|]. apply Hrel.
      * by apply IHrel.
    + intros ev [Hev|Hev]%elem_of_app.
      * destruct (Hlog ev Hev) as (i & _ & Hok & d' & Hd' & Hms).
        exists 0%nat, i, app, (Application.set_Deployments app ds), d'.
        rewrite Nat.add_0_r. by repeat (split; [done|]).
      * destruct (IHlog ev Hev) as (k & i & app0 & app' & d' & Hk & Hok & Hk' & Hd' & Hms).
        exists (S k), i, app0, app', d'.
        replace (n + S k)%nat with (S n + k)%nat by lia.
        by repeat (split; [done|]).
    + rewrite omap_app. apply NoDup_app. split; [done|]. split; [|done].
      intros key (ev & Hev & Hkey)%list_elem_of_omap
                 (ev' & Hev' & Hkey')%list_elem_of_omap.
      destruct (Hlog ev Hev) as (i & _ & Hok & _).
      destruct (IHlog ev' Hev') as (k & i' & app0 & _ & _ & _ & Hok' & _).
      rewrite (snapshot_key_event_ok _ _ _ _ Hok) in Hkey.
      rewrite (snapshot_key_event_ok _ _ _ _ Hok') in Hkey'.
      inversion Hkey; subst key. inversion Hkey'. lia.
Qed.

End SnapshotFacts.

(** C6.  In a pass of the snapshot loop over the applications, a metrics
    snapshot is computed for a deployment only if none is attached to it, its
    FinishedAt is set, and the end [to] of its window does not exceed the
    StartedAt of the next deployment of the application (the latest
    timestamp of the cache for the last one); no deployment is computed
    twice in a pass; a deployment with a snapshot attached is left as it is
    and not computed; and a deployment computed in a pass is never computed
    again by a later pass over the resulting records, whatever the cache and
    the world loader answer then. *)
Theorem snapshot_once_and_never_early
  (LoadWorld : Time -> Time -> Duration -> option World.t)
  (calcMetricsSnapshot :
     Application.t -> Time -> Time -> Duration -> MetricsSnapshot.t)
  (shift window : Duration) (cacheTo : Time) (step : Duration)
  (apps : list Application.t) :
  let apps' := (snapshotDeploymentMetrics LoadWorld calcMetricsSnapshot
                  shift window cacheTo step apps).1 in
  let log := (snapshotDeploymentMetrics LoadWorld calcMetricsSnapshot
                shift window cacheTo step apps).2 in
  (forall ev, ev ∈ log ->
     exists a i app d,
       ev = EvSnapshot a i d (snapshot_window shift window step d).1
              (snapshot_window shift window step d).2
              (next_or_now cacheTo (Application.Deployments app) i)
       /\ apps !! a = Some app
       /\ Application.Deployments app !! i = Some d
       /\ ApplicationDeployment.MetricsSnapshot_ d = None
       /\ TimeOps.IsZero (ApplicationDeployment.FinishedAt d) = false
       /\ (snapshot_window shift window step d).2
          <= next_or_now cacheTo (Application.Deployments app) i)
  /\ NoDup (omap snapshot_key log)
  /\ (forall a i app d,
        apps !! a = Some app ->
        Application.Deployments app !! i = Some d ->
        is_Some (ApplicationDeployment.MetricsSnapshot_ d) ->
        ((a, i) ∉ omap snapshot_key log)
        /\ exists app', apps' !! a = Some app'
                        /\ Application.Deployments app' !! i = Some d)
  /\ (forall LoadWorld' calcMetricsSnapshot' cacheTo' step' key,
        key ∈ omap snapshot_key log ->
        key ∉ omap snapshot_key
                ((snapshotDeploymentMetrics LoadWorld' calcMetricsSnapshot'
                    shift window cacheTo' step' apps').2)).
Proof.
  intros apps' log.
  pose proof (snapshot_loop_ok LoadWorld calcMetricsSnapshot shift window
                cacheTo step apps 0%nat) as (Hrel & Hlog & Hnd).
  fold (snapshotDeploymentMetrics LoadWorld calcMetricsSnapshot shift window
          cacheTo step apps) in Hrel, Hlog, Hnd.
  fold apps' in Hrel, Hlog. fold log in Hlog, Hnd.
  split; [|split; [done|split]].
  - intros ev Hev.
    destruct (Hlog ev Hev) as (k & i & app & _ & _ & Hk & (d & -> & Hok) & _).
    exists k, i, app, d. by split.
  - intros a i app d Ha Hd Hms. split.
    + intros (ev & Hev & Hkey)%list_elem_of_omap.
      destruct (Hlog ev Hev) as (k & j & app0 & _ & _ & Hk & Hok & _).
      rewrite (snapshot_key_event_ok _ _ _ _ _ _ _ _ Hok) in Hkey.
      inversion Hkey; subst k j.
      destruct Hok as (d0 & _ & Hd0 & Hnone & _).
      rewrite Ha in Hk. inversion Hk; subst app0.
      rewrite Hd in Hd0. inversion Hd0; subst d0.
      rewrite Hnone in Hms. by destruct Hms.
    + destruct (Hrel a app Ha) as (app' & Ha' & Hds). exists app'.
      split; [done|]. destruct (Hds i d Hd) as (d' & Hd' & _ & Heq).
      by rewrite (Heq Hms) in Hd'.
  - intros LoadWorld' calc' cacheTo' step' key
           (ev & Hev & Hkey)%list_elem_of_omap
           (ev' & Hev' & Hkey')%list_elem_of_omap.
    destruct (Hlog ev Hev) as (k & i & app & app' & d' & Hk & Hok & Hk' & Hd' & Hms).
    rewrite (snapshot_key_event_ok _ _ _ _ _ _ _ _ Hok) in Hkey.
    inversion Hkey; subst key. clear Hkey.
    pose proof (snapshot_loop_ok LoadWorld' calc' shift window cacheTo' step'
                  apps' 0%nat) as (_ & Hlog' & _).
    destruct (Hlog' ev' Hev') as (k2 & i2 & app2 & _ & _ & Hk2 & Hok2 & _).
    rewrite (snapshot_key_event_ok _ _ _ _ _ _ _ _ Hok2) in Hkey'.
    inversion Hkey'; subst k2 i2.
    destruct Hok2 as (d2 & _ & Hd2 & Hnone & _).
    rewrite Hk' in Hk2. inversion Hk2; subst app2.
    rewrite Hd' in Hd2. inversion Hd2; subst d2.
    rewrite Hnone in Hms. by destruct Hms.
Qed.

(** The pass over an application with deployments at 1000 and 1200, the
    cache reaching 2000: the window of the second deployment has elapsed. *)
Lemma snapshot_once_and_never_early_witness :
  exists a i app d,
    EvSnapshot 0 1 (instant_deployment "rs-b" 1200) 1200 1800 2000
    = EvSnapshot a i d (snapshot_window 0 600 15 d).1
        (snapshot_window 0 600 15 d).2
        (next_or_now 2000 (Application.Deployments app) i)
    /\ [two_deployments_app] !! a = Some app
    /\ Application.Deployments app !! i = Some d
    /\ ApplicationDeployment.MetricsSnapshot_ d = None
    /\ TimeOps.IsZero (ApplicationDeployment.FinishedAt d) = false
    /\ (snapshot_window 0 600 15 d).2
       <= next_or_now 2000 (Application.Deployments app) i.
Proof.
  apply (proj1 (snapshot_once_and_never_early
                  (fun _ _ _ => Some two_deployments_world)
                  (fun _ _ _ _ => empty_snapshot) 0 600 2000 15
                  [two_deployments_app])).
  vm_compute. constructor.
Defined.

(** ** C7: notifications *)

Section NotificationFacts.

Variable SendDeployment :
  Channel -> ApplicationDeployment.t -> ApplicationDeploymentState -> bool.
Variable CalcApplicationDeploymentStatuses :
  Application.t -> Time -> list (nat * ApplicationDeploymentState).
Variable NotifyOfDeployments : string -> bool.
Variable integrations : Integrations.
Variable now : Time.

#[local] Opaque wrap64.

Lemma same_but_notifications_refl d : same_but_notifications d d.
Proof. by destruct d. Qed.

Lemma same_but_notifications_set d n :
  same_but_notifications d (ApplicationDeployment.set_Notifications d n).
Proof. by destruct d. Qed.

Lemma same_but_notifications_StartedAt d0 d :
  same_but_notifications d0 d ->
  ApplicationDeployment.StartedAt d = ApplicationDeployment.StartedAt d0.
Proof. unfold same_but_notifications. intros H. rewrite H. by destruct d0. Qed.

Lemma same_but_notifications_trans d1 d2 d3 :
  same_but_notifications d1 d2 -> same_but_notifications d2 d3 ->
  same_but_notifications d1 d3.
Proof. intros -> ->. by destruct d1. Qed.

Lemma notify_step_spec ds s :
  (forall j d0, ds !! j = Some d0 ->
     exists d, (notify_step SendDeployment integrations now ds s).1 !! j = Some d
               /\ same_but_notifications d0 d)
  /\ (forall c d state ok,
        EvSend c d state ok ∈ (notify_step SendDeployment integrations now ds s).2 ->
        exists d0, ds !! s.1 = Some d0 /\ same_but_notifications d0 d
                   /\ TimeOps.Sub now (ApplicationDeployment.StartedAt d0)
                      <= TimeOps.Day).
Proof.
  destruct s as [i state]. unfold notify_step. cbn [fst].
  destruct (ds !! i) as [d0|] eqn:Hd0.
  2:{ split; [intros j d Hj; exists d; split; [done|apply same_but_notifications_refl]|].
      by intros c d st ok ?%elem_of_nil. }
  destruct (Z.ltb_spec TimeOps.Day (TimeOps.Sub now (ApplicationDeployment.StartedAt d0)))
    as [Hold|Hfresh].
  { split; [intros j d Hj; exists d; split; [done|apply same_but_notifications_refl]|].
    by intros c d st ok ?%elem_of_nil. }
  assert (Hins : forall d', same_but_notifications d0 d' ->
            forall j dj, ds !! j = Some dj ->
              exists d, <[i := d']> ds !! j = Some d /\ same_but_notifications dj d).
  { intros d' Hd' j dj Hj. destruct (decide (j = i)) as [->|Hne].
    - exists d'. split; [apply list_lookup_insert_eq; by eapply lookup_lt_Some|].
      by rewrite Hd0 in Hj; inversion Hj; subst.
    - exists dj. rewrite list_lookup_insert_ne by done.
      split; [done|apply same_but_notifications_refl]. }
  set (n0 := default ApplicationDeploymentNotifications.zero
               (ApplicationDeployment.Notifications d0)).
  set (d1 := ApplicationDeployment.set_Notifications d0 (Some n0)).
  assert (H1 : same_but_notifications d0 d1) by apply same_but_notifications_set.
  destruct (state <=? _).
  { split; [by apply Hins|]. by intros c d st ok ?%elem_of_nil. }
  assert (Hset : forall n, same_but_notifications d0
                   (ApplicationDeployment.set_Notifications d1 n)).
  { intros n. by destruct d0. }
  repeat match goal with
         | |- context [match ?x with Some _ => _ | None => _ end] => destruct x
         | |- context [if ?b then _ else _] => destruct b eqn:?
         end;
    cbn [negb fst snd];
    (split; [apply Hins; first [done | apply Hset | eapply same_but_notifications_trans; [apply Hset|apply same_but_notifications_set]]|]);
    intros c d st ok Hin;
    repeat (apply elem_of_app in Hin as [Hin|Hin] || apply elem_of_cons in Hin as [Hin|Hin] || apply elem_of_nil in Hin);
    try done; inversion Hin; subst;
    (exists d0; split; [done|]; split; [|done]);
    first [done | apply Hset | eapply same_but_notifications_trans; [apply Hset|apply same_but_notifications_set]].
Qed.

Lemma notify_fold_spec ds0 statuses : forall ds log,
  (forall j d0, ds0 !! j = Some d0 ->
     exists d, ds !! j = Some d /\ same_but_notifications d0 d) ->
  (forall j d, ds !! j = Some d ->
     exists d0, ds0 !! j = Some d0 /\ same_but_notifications d0 d) ->
  sends_fresh now ds0 log ->
  sends_fresh now ds0
    (foldl (fun '(ds, log) s =>
              let '(ds', log') := notify_step SendDeployment integrations now ds s in
              (ds', log ++ log'))
           (ds, log) statuses).2.
Proof.
  unfold sends_fresh.
  induction statuses as [|s statuses IH]; intros ds log Hfw Hbw Hlog;
    cbn [foldl snd]; [done|].
  pose proof (notify_step_spec ds s) as [Hrel Hev].
  destruct (notify_step SendDeployment integrations now ds s) as [ds' log'] eqn:Hstep.
  cbn [fst snd] in Hrel, Hev. apply IH.
  - intros j d0 Hj. destruct (Hfw j d0 Hj) as (d & Hd & Hs).
    destruct (Hrel j d Hd) as (d' & Hd' & Hs'). exists d'. split; [done|].
    by eapply same_but_notifications_trans.
  - intros j d' Hd'.
    destruct (ds !! j) as [d|] eqn:Hd.
    + destruct (Hrel j d Hd) as (d'' & Hd'' & Hs'). rewrite Hd' in Hd''.
      inversion Hd''; subst d''. destruct (Hbw j d Hd) as (d0 & Hd0 & Hs).
      exists d0. split; [done|]. by eapply same_but_notifications_trans.
    + exfalso. apply lookup_ge_None in Hd.
      apply lookup_lt_Some in Hd'.
      assert (length ds' = length ds); [|lia].
      clear -Hstep. unfold notify_step in Hstep. destruct s as [i state].
      repeat match type of Hstep with
             | context [match ?x with Some _ => _ | None => _ end] => destruct x
             | context [if ?b then _ else _] => destruct b
             end;
        inversion Hstep; subst; by rewrite ?length_insert.
  - intros c d state ok [Hin|Hin]%elem_of_app; [by apply (Hlog c d state ok)|].
    destruct (Hev c d state ok Hin) as (d1 & Hd1 & Hs & Hfresh).
    destruct (Hbw _ _ Hd1) as (d0 & Hd0 & Hs0).
    exists d0. split; [by eapply list_elem_of_lookup_2|].
    split; [by eapply same_but_notifications_trans|].
    by rewrite (same_but_notifications_StartedAt _ _ Hs0) in Hfresh.
Qed.

Lemma notify_app_spec app :
  sends_fresh now (Application.Deployments app)
    (notify_app SendDeployment CalcApplicationDeploymentStatuses
       NotifyOfDeployments integrations now app).2.
Proof.
  unfold notify_app. destruct (negb _); [by intros c d st ok ?%elem_of_nil|].
  unfold sends_fresh in *.
  pose proof (notify_fold_spec (Application.Deployments app)
                (CalcApplicationDeploymentStatuses app now)
                (Application.Deployments app) []) as H.
  destruct (foldl _ _ _) as [ds log]. cbn [snd] in *. apply H.
  - intros j d0 Hj. exists d0. split; [done|apply same_but_notifications_refl].
  - intros j d0 Hj. exists d0. split; [done|apply same_but_notifications_refl].
  - by intros c d st ok ?%elem_of_nil.
Qed.

Lemma sendNotifications_spec apps c d state ok :
  EvSend c d state ok
    ∈ (sendNotifications SendDeployment CalcApplicationDeploymentStatuses
         NotifyOfDeployments integrations now apps).2 ->
  exists app d0, app ∈ apps /\ d0 ∈ Application.Deployments app
                 /\ same_but_notifications d0 d
                 /\ TimeOps.Sub now (ApplicationDeployment.StartedAt d0)
                    <= TimeOps.Day.
Proof.
  unfold sendNotifications.
  assert (Hgen : forall rest acc log,
            (EvSend c d state ok ∈ log ->
             exists app d0, app ∈ apps /\ d0 ∈ Application.Deployments app
                 /\ same_but_notifications d0 d
                 /\ TimeOps.Sub now (ApplicationDeployment.StartedAt d0)
                    <= TimeOps.Day) ->
            (forall app, app ∈ rest -> app ∈ apps) ->
            EvSend c d state ok
              ∈ (foldl (fun '(done, log) app =>
                          let '(app', log') :=
                            notify_app SendDeployment CalcApplicationDeploymentStatuses
                              NotifyOfDeployments integrations now app in
                          (done ++ [app'], log ++ log'))
                       (acc, log) rest).2 ->
            exists app d0, app ∈ apps /\ d0 ∈ Application.Deployments app
                 /\ same_but_notifications d0 d
                 /\ TimeOps.Sub now (ApplicationDeployment.StartedAt d0)
                    <= TimeOps.Day).
  { induction rest as [|app rest IH]; intros acc log Hlog Hsub; cbn [foldl snd];
      [done|].
    pose proof (notify_app_spec app) as Happ. unfold sends_fresh in Happ.
    destruct (notify_app _ _ _ _ _ app) as [app' log']. cbn [snd] in Happ.
    apply IH.
    - intros [Hin|Hin]%elem_of_app; [by apply Hlog|].
      destruct (Happ c d state ok Hin) as (d0 & Hd0 & Hs & Hf).
      exists app, d0. split; [apply Hsub; left|done].
    - intros a Ha. apply Hsub. by right. }
  apply Hgen; [by intros ?%elem_of_nil|done].
Qed.

End NotificationFacts.

(** C7.  A deployment notification is sent, on either channel, only for a
    deployment that started within the last 24 hours of the pass's [now]:
    for every call of a notification client in a pass, the deployment it is
    given is one of the deployments of an application of the world (up to
    its notification state), and [now.Sub(StartedAt)] is at most [Day]; with
    timestamps whose difference fits in 64 bits this is
    [now - StartedAt <= 86400] seconds.  So a deployment older than 24 hours
    is never notified. *)
Theorem notifications_only_within_a_day
  (SendDeployment :
     Channel -> ApplicationDeployment.t -> ApplicationDeploymentState -> bool)
  (CalcApplicationDeploymentStatuses :
     Application.t -> Time -> list (nat * ApplicationDeploymentState))
  (NotifyOfDeployments : string -> bool)
  (integrations : Integrations) (now : Time) (apps : list Application.t)
  (c : Channel) (d : ApplicationDeployment.t)
  (state : ApplicationDeploymentState) (ok : bool) :
  EvSend c d state ok
    ∈ (sendNotifications SendDeployment CalcApplicationDeploymentStatuses
         NotifyOfDeployments integrations now apps).2 ->
  TimeOps.Sub now (ApplicationDeployment.StartedAt d) <= TimeOps.Day
  /\ (int64_range (now - ApplicationDeployment.StartedAt d) ->
      now - ApplicationDeployment.StartedAt d <= 86400)
  /\ exists app d0, app ∈ apps /\ d0 ∈ Application.Deployments app
                    /\ same_but_notifications d0 d.
Proof.
  intros Hin.
  destruct (sendNotifications_spec _ _ _ _ _ _ _ _ _ _ Hin)
    as (app & d0 & Happ & Hd0 & Hs & Hfresh).
  rewrite <- (same_but_notifications_StartedAt _ _ Hs) in Hfresh.
  split; [done|]. split; [|by exists app, d0].
  intros Hrange. unfold TimeOps.Sub in Hfresh.
  rewrite wrap64_id in Hfresh by done. exact Hfresh.
Qed.

(** A pass at time 2000 that notifies the deployment started at 1200. *)
Lemma notifications_only_within_a_day_witness :
  TimeOps.Sub 2000 1200 <= TimeOps.Day
  /\ (int64_range (2000 - 1200) -> 2000 - 1200 <= 86400)
  /\ exists app d0,
       app ∈ [two_deployments_app] /\ d0 ∈ Application.Deployments app
       /\ same_but_notifications d0
            (ApplicationDeployment.set_Notifications
               (instant_deployment "rs-b" 1200)
               (Some ApplicationDeploymentNotifications.zero)).
Proof.
  apply (notifications_only_within_a_day (fun _ _ _ => true)
           (fun _ _ => [(1%nat, 1)]) (fun _ => true) slack_only 2000
           [two_deployments_app] ChannelSlack
           (ApplicationDeployment.set_Notifications
              (instant_deployment "rs-b" 1200)
              (Some ApplicationDeploymentNotifications.zero)) 1 true).
  vm_compute. constructor.
Defined.

(** ** C5: Fill *)

Lemma wrap64_range z : int64_range (wrap64 z).
Proof.
  unfold int64_range, wrap64.
  change (2 ^ 63) with 9223372036854775808.
  change (2 ^ 64) with 18446744073709551616.
  pose proof (Z.mod_pos_bound (z + 9223372036854775808) 18446744073709551616).
  lia.
Qed.

Lemma wrap64_add_r a b : wrap64 (a + wrap64 b) = wrap64 (a + b).
Proof.
  unfold wrap64. f_equal.
  replace (a + ((b + 2 ^ 63) mod 2 ^ 64 - 2 ^ 63) + 2 ^ 63)
    with (a + (b + 2 ^ 63) mod 2 ^ 64) by lia.
  rewrite Z.add_mod_idemp_r by done. f_equal. lia.
Qed.

Lemma fill_to_exact d :
  window_fits d ->
  fill_to d = ts_from d + (Z.of_nat (length (ts_data d)) - 1) * ts_step d.
Proof.
  intros (Hstep & Hlo & Hhi & Hlen). unfold fill_to, TimeOps.Add.
  change (2 ^ 63) with 9223372036854775808 in *.
  rewrite (wrap64_id (Z.of_nat _ - 1)).
  2:{ unfold int64_range. change (2 ^ 63) with 9223372036854775808. nia. }
  rewrite wrap64_add_r. apply wrap64_id.
  unfold int64_range. change (2 ^ 63) with 9223372036854775808. nia.
Qed.

Lemma fill_index d t :
  window_fits d ->
  int64_range t -> ts_from d <= t -> t <= fill_to d ->
  exists i, int64_quot (wrap64 (t - ts_from d)) (ts_step d) = Some i
            /\ 0 <= i < Z.of_nat (length (ts_data d)).
Proof.
  intros Hfits Ht Hlo Hhi. rewrite (fill_to_exact d Hfits) in Hhi.
  destruct Hfits as (Hstep & Hfrom & Hend & Hlen).
  change (2 ^ 63) with 9223372036854775808 in *.
  unfold int64_quot. destruct (Z.eqb_spec (ts_step d) 0) as [?|_]; [lia|].
  assert (Hdiff : 0 <= t - ts_from d <= (Z.of_nat (length (ts_data d)) - 1) * ts_step d)
    by lia.
  rewrite (wrap64_id (t - ts_from d)).
  2:{ unfold int64_range. change (2 ^ 63) with 9223372036854775808. nia. }
  assert (Hq : 0 <= (t - ts_from d) ÷ ts_step d <= Z.of_nat (length (ts_data d)) - 1).
  { rewrite Z.quot_div_nonneg by lia. split; [apply Z.div_pos; lia|].
    apply Z.div_le_upper_bound; [lia|]. lia. }
  eexists. split; [reflexivity|].
  rewrite wrap64_id; [lia|].
  unfold int64_range. change (2 ^ 63) with 9223372036854775808. nia.
Qed.

Section FillFacts.

#[local] Opaque wrap64.

Lemma fill_inv_same_writes data0 data st st' :
  fill_inv data0 data st ->
  fs_data st' = fs_data st -> fs_changed st' = fs_changed st ->
  fs_writes st' = fs_writes st ->
  (fs_iNext st' = -1 \/ 0 <= fs_iNext st') ->
  fill_inv data0 data st'.
Proof.
  intros (H1 & H2 & H3 & H4 & H5) Hd Hc Hw Hi. unfold fill_inv.
  by rewrite Hd, Hc, Hw.
Qed.

Lemma fill_loop_inv d step data_all : forall data st,
  window_fits d ->
  data ⊆ data_all ->
  fill_inv (ts_data d) data_all st ->
  exists st',
    fill_loop (ts_from d) (ts_step d) (fill_to d) step data st = Some st'
    /\ fill_inv (ts_data d) data_all st'.
Proof.
  induction data as [|v data IH]; intros st Hfits Hsub Hinv; cbn [fill_loop].
  { by exists st. }
  assert (Hsub' : data ⊆ data_all) by (intros x Hx; apply Hsub; by right).
  assert (Hv : v ∈ data_all) by (apply Hsub; left).
  cbn [fs_data fs_tNext fs_iNext fs_t fs_changed fs_writes].
  set (t := TimeOps.Add (fs_t st) step).
  assert (Ht : int64_range t) by apply wrap64_range.
  destruct (Z.ltb_spec (fill_to d) t) as [Hbreak|Hto].
  { eexists. split; [reflexivity|].
    eapply fill_inv_same_writes; [exact Hinv|done..|]. by destruct Hinv as (_ & ? & _). }
  destruct (Z.ltb_spec t (ts_from d)) as [Hbefore|Hfrom].
  { apply IH; [done..|].
    eapply fill_inv_same_writes; [exact Hinv|done..|]. by destruct Hinv as (_ & ? & _). }
  destruct (Z.ltb_spec t (fs_tNext st)) as [Hskip|Hnext].
  { apply IH; [done..|].
    eapply fill_inv_same_writes; [exact Hinv|done..|]. by destruct Hinv as (_ & ? & _). }
  destruct Hinv as (Hlen & Hi & Hw & Hdata & Hchanged).
  assert (Hloc : exists iNext tNext,
            (if fs_iNext st =? -1
             then match int64_quot (wrap64 (t - ts_from d)) (ts_step d) with
                  | Some i => Some (i, TimeOps.Truncate t (ts_step d))
                  | None => None
                  end
             else Some (fs_iNext st, fs_tNext st)) = Some (iNext, tNext)
            /\ 0 <= iNext).
  { destruct (Z.eqb_spec (fs_iNext st) (-1)) as [Heq|Hne].
    - destruct (fill_index d t Hfits Ht Hfrom Hto) as (i & -> & Hi0 & _).
      by eexists _, _.
    - eexists _, _. split; [reflexivity|]. lia. }
  destruct Hloc as (iNext & tNext & -> & HiNext).
  destruct (Z.ltb_spec iNext (Z.of_nat (length (fs_data st)))) as [Hin|Hout].
  - destruct (Z.ltb_spec iNext 0) as [?|_]; [lia|].
    apply IH; [done..|]. unfold fill_inv.
    cbn [fs_data fs_tNext fs_iNext fs_t fs_changed fs_writes].
    split; [by rewrite length_insert|]. split.
    { right. rewrite wrap64_id; [lia|].
      destruct Hfits as ((Hs & _) & _ & _ & Hl). unfold int64_range.
      change (2 ^ 63) with 9223372036854775808 in *. nia. }
    split.
    { apply Forall_app. split; [done|]. constructor; [|done]. cbn. split; [lia|done]. }
    split.
    { unfold apply_writes. rewrite foldl_app. cbn [foldl fst snd].
      by rewrite Hdata. }
    rewrite Exists_app, Exists_cons, Exists_nil. cbn [snd].
    destruct (fs_changed st), (IsNaN v); cbn [negb andb]; intuition congruence.
  - apply IH; [done..|]. unfold fill_inv.
    cbn [fs_data fs_tNext fs_iNext fs_t fs_changed fs_writes].
    split; [done|]. split; [by right|done].
Qed.

(** What the loop does to the array on any series, when it ends: the
    assignments it has executed are within the array and store values of the
    data, the array is the old one after these assignments, and the flag is
    raised by the non-missing ones. *)
Lemma fill_loop_any tsfrom tsstep to step data : forall st st',
  fill_loop tsfrom tsstep to step data st = Some st' ->
  exists ws,
    fs_writes st' = fs_writes st ++ ws
    /\ fs_data st' = apply_writes (fs_data st) ws
    /\ length (fs_data st') = length (fs_data st)
    /\ Forall (fun w => (w.1 < length (fs_data st))%nat /\ w.2 ∈ data) ws
    /\ (fs_changed st' = true
        <-> fs_changed st = true \/ Exists (fun w => IsNaN w.2 = false) ws).
Proof.
  induction data as [|v data IH]; intros st st'; cbn [fill_loop].
  { intros [= <-]. exists []. rewrite app_nil_r, Exists_nil.
    split; [done|]. split; [done|]. split; [done|]. split; [done|]. tauto. }
  assert (Hweak : forall st1,
            fs_data st1 = fs_data st -> fs_writes st1 = fs_writes st ->
            fs_changed st1 = fs_changed st ->
            fill_loop tsfrom tsstep to step data st1 = Some st' ->
            exists ws,
              fs_writes st' = fs_writes st ++ ws
              /\ fs_data st' = apply_writes (fs_data st) ws
              /\ length (fs_data st') = length (fs_data st)
              /\ Forall (fun w => (w.1 < length (fs_data st))%nat
                                  /\ w.2 ∈ v :: data) ws
              /\ (fs_changed st' = true
                  <-> fs_changed st = true
                      \/ Exists (fun w => IsNaN w.2 = false) ws)).
  { intros st1 Hd Hw Hc Hrun.
    destruct (IH _ _ Hrun) as (ws & H1 & H2 & H3 & H4 & H5).
    rewrite Hd, Hw, Hc in *. exists ws.
    split; [done|]. split; [done|]. split; [done|]. split; [|done].
    eapply Forall_impl; [exact H4|]. intros w [? ?]. split; [done|by right]. }
  cbn [fs_data fs_tNext fs_iNext fs_t fs_changed fs_writes].
  set (t := TimeOps.Add (fs_t st) step).
  destruct (to <? t).
  { intros [= <-]. exists []. cbn [fs_writes fs_data fs_changed].
    rewrite app_nil_r, Exists_nil.
    split; [done|]. split; [done|]. split; [done|]. split; [done|]. tauto. }
  destruct (t <? tsfrom); [by apply Hweak|].
  destruct (t <? fs_tNext st); [by apply Hweak|].
  destruct (if fs_iNext st =? -1
            then match int64_quot (wrap64 (t - tsfrom)) tsstep with
                 | Some i => Some (i, TimeOps.Truncate t tsstep)
                 | None => None
                 end
            else Some (fs_iNext st, fs_tNext st)) as [[iNext tNext]|];
    [|done].
  destruct (Z.ltb_spec iNext (Z.of_nat (length (fs_data st)))) as [Hin|Hout];
    [|by apply Hweak].
  destruct (Z.ltb_spec iNext 0) as [|Hpos]; [done|].
  intros Hrun. destruct (IH _ _ Hrun) as (ws & H1 & H2 & H3 & H4 & H5).
  cbn [fs_writes fs_data fs_changed] in H1, H2, H3, H4, H5.
  rewrite length_insert in H3, H4.
  exists ((Z.to_nat iNext, v) :: ws).
  split; [by rewrite H1, <- app_assoc|]. split; [exact H2|].
  split; [exact H3|]. split.
  - constructor; [cbn [fst snd]; split; [lia|left]|].
    eapply Forall_impl; [exact H4|]. intros w [? ?]. split; [done|by right].
  - rewrite H5, Exists_cons. cbn [snd].
    destruct (fs_changed st), (IsNaN v); cbn [negb andb]; intuition congruence.
Qed.

End FillFacts.

(** C5, the claim refuted: a later [Fill] overwrites a real value with the
    missing sentinel.  On the window of two steps starting at 0, the first
    call writes 5 at index 0; the second call, whose data is missing at that
    step, writes the sentinel there. *)
Lemma Fill_overwrites_with_missing_counterexample :
  Fill (mkTS 0 10 [NaN; NaN]) 0 10 [F32.of_Z 5]
  = Some (mkTS 0 10 [F32.of_Z 5; NaN], true)
  /\ Fill (mkTS 0 10 [F32.of_Z 5; NaN]) 0 10 [NaN]
     = Some (mkTS 0 10 [NaN; NaN], false)
  /\ Fill_writes (mkTS 0 10 [F32.of_Z 5; NaN]) 0 10 [NaN] = [(0%nat, NaN)].
Proof. split; [|split]; vm_compute; reflexivity. Qed.

(** C5, as amended.  For every series and every [Fill] call on it that
    returns: the call leaves the window and the length of the series as
    they are; every index it writes lies in the array, so that, the step
    being positive, the time of every written step lies in
    [from, from+len*step); every value it writes is one of the given data,
    stored as it is, the missing sentinel included (so a later call may
    overwrite a real value with the sentinel); and it returns true exactly
    when it has written some non-missing value.  On a series whose window
    lies within the 64-bit timestamps, with a positive step, every call
    returns; on other series a call can panic, as it does with a step of
    zero. *)
Theorem Fill_writes_in_window :
  (forall d from step data d' changed,
     Fill d from step data = Some (d', changed) ->
     ts_from d' = ts_from d /\ ts_step d' = ts_step d
     /\ length (ts_data d') = length (ts_data d)
     /\ Forall (fun w => (w.1 < length (ts_data d))%nat /\ w.2 ∈ data)
               (Fill_writes d from step data)
     /\ (0 < ts_step d ->
         Forall (fun w =>
                   ts_from d <= ts_from d + Z.of_nat w.1 * ts_step d
                   < ts_from d + Z.of_nat (length (ts_data d)) * ts_step d)
                (Fill_writes d from step data))
     /\ ts_data d' = apply_writes (ts_data d) (Fill_writes d from step data)
     /\ (changed = true
         <-> Exists (fun w => IsNaN w.2 = false)
               (Fill_writes d from step data)))
  /\ (forall d from step data,
        window_fits d ->
        exists d' changed, Fill d from step data = Some (d', changed))
  /\ Fill (mkTS 0 0 [NaN]) 0 10 [F32.of_Z 5] = None.
Proof.
  split; [|split; [|reflexivity]].
  - intros d from step data d' changed. unfold Fill, Fill_writes.
    destruct (fill_run d from step data) as [st|] eqn:Hrun; [|done].
    intros [= <- <-]. unfold fill_run in Hrun.
    destruct (fill_loop_any _ _ _ _ _ _ _ Hrun)
      as (ws & Hws & Hdata & Hlen & Hall & Hchanged).
    cbn [fs_writes fs_data fs_changed app] in Hws, Hdata, Hlen, Hall, Hchanged.
    cbn [ts_from ts_step ts_data]. rewrite Hws.
    split; [done|]. split; [done|]. split; [done|]. split; [done|].
    split; [|split; [done|]].
    + intros Hstep. eapply Forall_impl; [exact Hall|].
      intros [i v] [Hi _]. cbn [fst snd] in *. nia.
    + rewrite Hchanged. split; [by intros [?|?]|by right].
  - intros d from step data Hfits.
    destruct (fill_loop_inv d step data data
                (mkFill (ts_data d) 0 (-1) (TimeOps.Add from (- step)) false [])
                Hfits) as (st & Hrun & _).
    { done. }
    { unfold fill_inv. cbn [fs_data fs_iNext fs_writes fs_changed].
      split; [done|]. split; [by left|]. split; [constructor|]. split; [done|].
      rewrite Exists_nil. split; [done|tauto]. }
    fold (fill_run d from step data) in Hrun.
    unfold Fill. rewrite Hrun. by eexists _, _.
Qed.

(** The first call of the example above. *)
Lemma Fill_writes_in_window_witness :
  exists d' changed,
    Fill (mkTS 0 10 [NaN; NaN]) 0 10 [F32.of_Z 5] = Some (d', changed)
    /\ ts_from d' = 0 /\ ts_step d' = 10
    /\ length (ts_data d') = 2%nat
    /\ Forall (fun w => (w.1 < 2)%nat /\ w.2 ∈ [F32.of_Z 5])
              (Fill_writes (mkTS 0 10 [NaN; NaN]) 0 10 [F32.of_Z 5])
    /\ Forall (fun w => 0 <= 0 + Z.of_nat w.1 * 10 < 0 + Z.of_nat 2 * 10)
              (Fill_writes (mkTS 0 10 [NaN; NaN]) 0 10 [F32.of_Z 5])
    /\ ts_data d' = apply_writes [NaN; NaN]
                      (Fill_writes (mkTS 0 10 [NaN; NaN]) 0 10 [F32.of_Z 5])
    /\ (changed = true
        <-> Exists (fun w => IsNaN w.2 = false)
              (Fill_writes (mkTS 0 10 [NaN; NaN]) 0 10 [F32.of_Z 5])).
Proof.
  destruct (proj1 (proj2 Fill_writes_in_window)
              (mkTS 0 10 [NaN; NaN]) 0 10 [F32.of_Z 5])
    as (d' & changed & Hfill).
  { unfold window_fits. cbn [ts_from ts_step ts_data length].
    change (2 ^ 63) with 9223372036854775808. lia. }
  destruct (proj1 Fill_writes_in_window _ _ _ _ _ _ Hfill)
    as (H1 & H2 & H3 & H4 & H5 & H6 & H7).
  exists d', changed. split; [exact Hfill|]. split; [exact H1|].
  split; [exact H2|]. split; [exact H3|]. split; [exact H4|].
  split; [|split; [exact H6|exact H7]].
  apply H5. cbn [ts_step]. lia.
Defined.

(* ===================================================================== *)
(** * Further properties of the code *)
(* ===================================================================== *)

Lemma Truncate_nonneg t step :
  0 <= t < 2 ^ 63 -> 0 < step ->
  TimeOps.Truncate t step = t - t mod step.
Proof.
  intros Ht Hs. unfold TimeOps.Truncate.
  change (2 ^ 63) with 9223372036854775808 in *.
  rewrite Z.quot_div_nonneg by lia.
  pose proof (Z.div_mod t step ltac:(lia)) as Hdm.
  pose proof (Z.mod_pos_bound t step Hs) as Hm.
  assert (Hq : 0 <= t / step <= t).
  { split; [apply Z.div_pos; lia|]. apply Z.div_le_upper_bound; nia. }
  rewrite (wrap64_id (t / step)).
  2:{ unfold int64_range. change (2 ^ 63) with 9223372036854775808. lia. }
  rewrite wrap64_id.
  2:{ unfold int64_range. change (2 ^ 63) with 9223372036854775808. nia. }
  lia.
Qed.

(** X1.  [Set] on a series with a positive step and non-negative times
    never panics and keeps the window and the length of the series.  The
    time is rounded down to a multiple of the step; when that step lies in
    the window, the value is stored at its index and no other cell changes;
    when it precedes the start or falls past the end, the series is left as
    it is. *)
Theorem Set_in_bounds (d : TimeSeriesData) (t : Time) (v : float32) :
  0 < ts_step d -> 0 <= ts_from d ->
  0 <= t < 2 ^ 63 ->
  exists d',
    Set_ d t v = Some d'
    /\ ts_from d' = ts_from d /\ ts_step d' = ts_step d
    /\ length (ts_data d') = length (ts_data d)
    /\ (ts_from d <= t - t mod ts_step d ->
        set_index d t < Z.of_nat (length (ts_data d)) ->
        ts_data d' !! Z.to_nat (set_index d t) = Some v
        /\ forall j, j <> Z.to_nat (set_index d t) ->
                     ts_data d' !! j = ts_data d !! j)
    /\ (t - t mod ts_step d < ts_from d
        \/ Z.of_nat (length (ts_data d)) <= set_index d t ->
        d' = d).
Proof.
  intros Hs Hfrom Ht. unfold Set_, set_index.
  rewrite (Truncate_nonneg t (ts_step d) Ht Hs).
  pose proof (Z.mod_pos_bound t (ts_step d) Hs) as Hm.
  set (tr := t - t mod ts_step d) in *.
  change (2 ^ 63) with 9223372036854775808 in *.
  destruct (Z.ltb_spec tr (ts_from d)) as [Hbefore|Hin].
  { exists d. repeat (split; [done|]). split; [lia|done]. }
  unfold int64_quot. destruct (Z.eqb_spec (ts_step d) 0) as [?|_]; [lia|].
  rewrite (wrap64_id (tr - ts_from d)).
  2:{ unfold int64_range. change (2 ^ 63) with 9223372036854775808. lia. }
  rewrite Z.quot_div_nonneg by lia.
  assert (Hq : 0 <= (tr - ts_from d) / ts_step d <= tr - ts_from d).
  { split; [apply Z.div_pos; lia|]. apply Z.div_le_upper_bound; nia. }
  rewrite wrap64_id.
  2:{ unfold int64_range. change (2 ^ 63) with 9223372036854775808. lia. }
  destruct (Z.ltb_spec ((tr - ts_from d) / ts_step d) (Z.of_nat (length (ts_data d))))
    as [Hlt|Hge].
  - destruct (Z.ltb_spec ((tr - ts_from d) / ts_step d) 0) as [?|_]; [lia|].
    eexists. split; [reflexivity|]. cbn [ts_from ts_step ts_data].
    split; [done|]. split; [done|]. split; [by rewrite length_insert|].
    split; [|lia]. intros _ _. split.
    + apply list_lookup_insert_eq. lia.
    + intros j Hj. by rewrite list_lookup_insert_ne.
  - exists d. repeat (split; [done|]). split; [lia|done].
Qed.

Lemma Set_in_bounds_witness :
  exists d',
    Set_ (mkTS 100 10 [NaN; NaN; NaN]) 117 (F32.of_Z 7) = Some d'
    /\ ts_data d' !! 1%nat = Some (F32.of_Z 7).
Proof.
  destruct (Set_in_bounds (mkTS 100 10 [NaN; NaN; NaN]) 117 (F32.of_Z 7))
    as (d' & Hset & _ & _ & _ & Hin & _).
  - cbn. lia.
  - cbn. lia.
  - change (2 ^ 63) with 9223372036854775808. lia.
  - exists d'. split; [exact Hset|].
    apply Hin; vm_compute; [discriminate|reflexivity].
Defined.

Lemma go_copy_length {A} (dst src : list A) :
  length (go_copy dst src) = length dst.
Proof.
  unfold go_copy. rewrite List.length_app, length_take, length_drop. lia.
Qed.

(** X2.  [LastN] returns exactly [n] values, right-aligned: the last [n]
    values of the series when it has that many, and otherwise all of them
    preceded by missing values; for the nil series all [n] are missing.  In
    particular the last value of [LastN] is the last value of the series. *)
Theorem LastN_right_aligned :
  (forall ts n, length (LastN ts n) = n)
  /\ (forall n, LastN None n = replicate n NaN)
  /\ (forall d n,
        LastN (Some d) n
        = replicate (n - length (ts_data d)) NaN
          ++ drop (length (ts_data d) - n) (ts_data d))
  /\ (forall d n v,
        last (ts_data d) = Some v ->
        last (LastN (Some d) (S n)) = Some v).
Proof.
  assert (Hchar : forall d n,
            LastN (Some d) n
            = replicate (n - length (ts_data d)) NaN
              ++ drop (length (ts_data d) - n) (ts_data d)).
  { intros d n. unfold LastN.
    destruct (Nat.eqb_spec n 0) as [->|Hn].
    { cbn. by rewrite drop_ge by lia. }
    destruct (Nat.ltb_spec (length (ts_data d)) n) as [Hlt|Hge].
    - rewrite take_replicate, drop_replicate. unfold go_copy.
      rewrite length_replicate.
      replace ((n - length (ts_data d)) `min` n)%nat
        with (n - length (ts_data d))%nat by lia.
      replace (length (ts_data d) - n)%nat with 0%nat by lia.
      rewrite drop_0, drop_replicate.
      replace (n - (n - length (ts_data d)) - length (ts_data d))%nat with 0%nat by lia.
      cbn [replicate]. rewrite app_nil_r.
      by rewrite take_ge by lia.
    - unfold go_copy. rewrite length_replicate, length_drop.
      replace (n - length (ts_data d))%nat with 0%nat by lia.
      cbn [replicate app].
      rewrite take_ge by (rewrite length_drop; lia).
      rewrite drop_replicate.
      replace (n - (length (ts_data d) - (length (ts_data d) - n)))%nat with 0%nat by lia.
      by rewrite app_nil_r. }
  split; [|split; [done|split; [done|]]].
  - intros [d|] n; [|apply length_replicate].
    rewrite Hchar, List.length_app, length_replicate, length_drop. lia.
  - intros d n v Hlast. rewrite Hchar.
    destruct (ts_data d) as [|x l] eqn:Hd using rev_ind; [done|].
    rewrite last_snoc in Hlast. inversion Hlast; subst x.
    rewrite List.length_app. cbn [length].
    rewrite drop_app_le by lia.
    by rewrite !app_assoc, last_snoc.
Qed.

(** ** Map *)




(** ** Any *)

Lemma Any_fold t step data : forall acc,
  fold_left (fun a '(t, v) => Any t a v) (samples_from t step data) acc
  = if IsNaN acc
    then default NaN (List.find (fun v => negb (IsNaN v)) data)
    else acc.
Proof.
  revert t. induction data as [|v data IH]; intros t acc;
    cbn [samples_from fold_left List.find].
  - destruct (IsNaN acc) eqn:Hacc; [|done]. by apply IsNaN_true in Hacc.
  - rewrite IH. unfold Any.
    destruct (IsNaN acc) eqn:Hacc; cbn [negb]; [|by rewrite Hacc].
    by destruct (IsNaN v) eqn:Hv; cbn [negb default].
Qed.

(** X4.  Reducing with [Any] gives the first present value of the series,
    and the missing sentinel when there is none. *)
Theorem Reduce_Any_first_present (d : TimeSeriesData) :
  Reduce (Some d) Any
  = default NaN (List.find (fun v => negb (IsNaN v)) (ts_data d)).
Proof.
  unfold Reduce. cbn [IsEmpty samples]. by rewrite Any_fold.
Qed.

(** ** Max and Min *)

Lemma ltb_trans a b c :
  F32.ltb a b = true -> F32.ltb b c = true -> F32.ltb a c = true.
Proof.
  unfold F32.ltb, SFltb.
  destruct a as [sa|sa| |sa ma ea], b as [sb|sb| |sb mb eb],
           c as [sc|sc| |sc mc ec];
    cbn [SFcompare];
    try (repeat match goal with s : bool |- _ => destruct s end; done).
  change (Pos.compare_cont Eq ma mb) with (Pos.compare ma mb).
  change (Pos.compare_cont Eq mb mc) with (Pos.compare mb mc).
  change (Pos.compare_cont Eq ma mc) with (Pos.compare ma mc).
  destruct sa, sb, sc; try done;
    destruct (Z.compare_spec ea eb), (Z.compare_spec eb ec),
             (Z.compare_spec ea ec); try done; try lia;
    destruct (Pos.compare_spec ma mb), (Pos.compare_spec mb mc),
             (Pos.compare_spec ma mc); cbn [CompOpp]; try done; lia.
Qed.

Lemma ltb_NaN_l x : F32.ltb NaN x = false.
Proof. reflexivity. Qed.

Lemma ltb_NaN_r x : F32.ltb x NaN = false.
Proof. by destruct x. Qed.

Lemma ltb_irrefl x : F32.ltb x x = false.
Proof.
  unfold F32.ltb, SFltb. destruct x as [s|s| |s m e]; try (by destruct s); [done|].
  by rewrite SFcompare_refl_finite.
Qed.

(** On values that are not NaN the order is total: [r < v] is impossible
    when neither [acc < v] nor [r < acc]. *)
Lemma ltb_total_chain r acc v :
  r <> NaN -> acc <> NaN -> v <> NaN ->
  F32.ltb r v = true -> F32.ltb acc v = false -> F32.ltb r acc = false ->
  False.
Proof.
  unfold F32.ltb, SFltb.
  destruct r as [sr|sr| |sr mr er], acc as [sa|sa| |sa ma ea],
           v as [sv|sv| |sv mv ev]; try done;
    cbn [SFcompare];
    try (repeat match goal with s : bool |- _ => destruct s end; done).
  intros _ _ _.
  change (Pos.compare_cont Eq mr mv) with (Pos.compare mr mv).
  change (Pos.compare_cont Eq ma mv) with (Pos.compare ma mv).
  change (Pos.compare_cont Eq mr ma) with (Pos.compare mr ma).
  destruct sr, sa, sv; try done;
    destruct (Z.compare_spec er ev), (Z.compare_spec ea ev),
             (Z.compare_spec er ea); try done; try lia;
    destruct (Pos.compare_spec mr mv), (Pos.compare_spec ma mv),
             (Pos.compare_spec mr ma); cbn [CompOpp]; try done; lia.
Qed.

(** The accumulator of a reduction with [Max], started from [acc]: it is
    [acc] or one of the values, it is missing only if all are, and no value
    is greater. *)
Lemma Max_fold t step data : forall acc r,
  r = fold_left (fun a '(t, v) => Max t a v) (samples_from t step data) acc ->
  (r = acc \/ r ∈ data)
  /\ (IsNaN r = true -> IsNaN acc = true /\ Forall missing data)
  /\ F32.ltb r acc = false
  /\ Forall (fun x => F32.ltb r x = false) data.
Proof.
  revert t. induction data as [|v data IH]; intros t acc r Hr;
    cbn [samples_from fold_left] in Hr.
  { subst r. split; [by left|]. split; [by split|].
    split; [apply ltb_irrefl|done]. }
  destruct (IH (TimeOps.Add t step) (Max (TimeOps.Add t step) acc v) r Hr)
    as (Hmem & Hnan & Hacc & Hall).
  clear Hr IH.
  unfold Max in Hmem, Hnan, Hacc.
  destruct (IsNaN acc) eqn:Eacc.
  - (* acc missing: the accumulator becomes v *)
    apply IsNaN_true in Eacc. subst acc.
    split; [destruct Hmem as [->|?]; right; [left|by right]|].
    split; [intros Hr; destruct (Hnan Hr) as [? ?]; split; [done|by constructor]|].
    split; [apply ltb_NaN_r|]. by constructor.
  - destruct (IsNaN v) eqn:Ev.
    + split; [destruct Hmem as [->|?]; [by left|right; by right]|].
      split; [intros Hr; destruct (Hnan Hr); congruence|].
      split; [done|]. constructor; [|done].
      apply IsNaN_true in Ev. subst v. apply ltb_NaN_r.
    + destruct (F32.gtb v acc) eqn:Egt; unfold F32.gtb in Egt;
        fold (F32.ltb acc v) in Egt.
      * split; [destruct Hmem as [->|?]; right; [left|by right]|].
        split; [intros Hr; destruct (Hnan Hr); congruence|].
        split; [|by constructor].
        destruct (F32.ltb r acc) eqn:Hra; [|done].
        by rewrite (ltb_trans _ _ _ Hra Egt) in Hacc.
      * split; [destruct Hmem as [->|?]; [by left|right; by right]|].
        split; [intros Hr; destruct (Hnan Hr); congruence|].
        split; [done|]. constructor; [|done].
        destruct (F32.ltb r v) eqn:Hrv; [|done].
        exfalso.
        destruct (IsNaN r) eqn:Er.
        { apply IsNaN_true in Er. subst r. by rewrite ltb_NaN_l in Hrv. }
        apply IsNaN_false in Eacc, Ev, Er.
        exact (ltb_total_chain r acc v Er Eacc Ev Hrv Egt Hacc).
Qed.

Lemma Min_fold t step data : forall acc r,
  r = fold_left (fun a '(t, v) => Min t a v) (samples_from t step data) acc ->
  (r = acc \/ r ∈ data)
  /\ (IsNaN r = true -> IsNaN acc = true /\ Forall missing data)
  /\ F32.ltb acc r = false
  /\ Forall (fun x => F32.ltb x r = false) data.
Proof.
  revert t. induction data as [|v data IH]; intros t acc r Hr;
    cbn [samples_from fold_left] in Hr.
  { subst r. split; [by left|]. split; [by split|].
    split; [apply ltb_irrefl|done]. }
  destruct (IH (TimeOps.Add t step) (Min (TimeOps.Add t step) acc v) r Hr)
    as (Hmem & Hnan & Hacc & Hall).
  clear Hr IH.
  unfold Min in Hmem, Hnan, Hacc.
  destruct (IsNaN acc) eqn:Eacc.
  - apply IsNaN_true in Eacc. subst acc.
    split; [destruct Hmem as [->|?]; right; [left|by right]|].
    split; [intros Hr; destruct (Hnan Hr) as [? ?]; split; [done|by constructor]|].
    split; [apply ltb_NaN_l|]. by constructor.
  - destruct (IsNaN v) eqn:Ev.
    + split; [destruct Hmem as [->|?]; [by left|right; by right]|].
      split; [intros Hr; destruct (Hnan Hr); congruence|].
      split; [done|]. constructor; [|done].
      apply IsNaN_true in Ev. subst v. apply ltb_NaN_l.
    + destruct (F32.ltb v acc) eqn:Elt.
      * split; [destruct Hmem as [->|?]; right; [left|by right]|].
        split; [intros Hr; destruct (Hnan Hr); congruence|].
        split; [|by constructor].
        destruct (F32.ltb acc r) eqn:Hra; [|done].
        by rewrite (ltb_trans _ _ _ Elt Hra) in Hacc.
      * split; [destruct Hmem as [->|?]; [by left|right; by right]|].
        split; [intros Hr; destruct (Hnan Hr); congruence|].
        split; [done|]. constructor; [|done].
        destruct (F32.ltb v r) eqn:Hrv; [|done].
        exfalso.
        destruct (IsNaN r) eqn:Er.
        { apply IsNaN_true in Er. subst r. by rewrite ltb_NaN_r in Hrv. }
        apply IsNaN_false in Eacc, Ev, Er.
        exact (ltb_total_chain v acc r Ev Eacc Er Hrv Hacc Elt).
Qed.

(** X5.  Reducing with [Max] (with [Min]) gives a value of the series that
    no value of the series exceeds (falls below); missing values are
    skipped, and the result is missing exactly when every value is. *)
Theorem Reduce_Max_Min_extremum (d : TimeSeriesData) :
  let hi := Reduce (Some d) Max in
  let lo := Reduce (Some d) Min in
  (missing hi <-> Forall missing (ts_data d))
  /\ (missing lo <-> Forall missing (ts_data d))
  /\ (present hi -> hi ∈ ts_data d)
  /\ (present lo -> lo ∈ ts_data d)
  /\ Forall (fun x => F32.ltb hi x = false) (ts_data d)
  /\ Forall (fun x => F32.ltb x lo = false) (ts_data d).
Proof.
  unfold Reduce. cbn [IsEmpty samples].
  destruct (Max_fold (TimeOps.Add (ts_from d) (- ts_step d)) (ts_step d)
              (ts_data d) NaN _ eq_refl) as (Hm1 & Hn1 & _ & Ha1).
  destruct (Min_fold (TimeOps.Add (ts_from d) (- ts_step d)) (ts_step d)
              (ts_data d) NaN _ eq_refl) as (Hm2 & Hn2 & _ & Ha2).
  set (hi := fold_left _ _ _) in *. set (lo := fold_left _ _ _) in *.
  cbv zeta.
  assert (Hall : forall r, r ∈ ts_data d -> Forall missing (ts_data d) ->
                           missing r).
  { intros r Hr Hall. by apply (proj1 (Forall_forall _ _) Hall). }
  unfold missing, present in *.
  split; [|split; [|split; [|split; [|split]]]]; try assumption.
  - split; [intros H; by apply Hn1|].
    intros Hall'. destruct Hm1 as [->|Hin]; [reflexivity|by apply Hall].
  - split; [intros H; by apply Hn2|].
    intros Hall'. destruct Hm2 as [->|Hin]; [reflexivity|by apply Hall].
  - intros Hp. destruct Hm1 as [Heq|?]; [|done]. by rewrite Heq in Hp.
  - intros Hp. destruct Hm2 as [Heq|?]; [|done]. by rewrite Heq in Hp.
Qed.

(** ** Aggregate2 *)

Lemma aggregate2_loop_length f xs : forall ys,
  length (aggregate2_loop f xs ys) = length xs.
Proof.
  induction xs as [|x xs IH]; intros [|y ys]; cbn [aggregate2_loop length];
    [done..| |].
  - by rewrite length_replicate.
  - by rewrite IH.
Qed.

Lemma aggregate2_loop_lookup f xs : forall ys i xv,
  xs !! i = Some xv ->
  aggregate2_loop f xs ys !! i
  = Some (match ys !! i with Some yv => f xv yv | None => F32.zero end).
Proof.
  induction xs as [|x xs IH]; intros ys i xv Hi; [done|].
  destruct ys as [|y ys]; cbn [aggregate2_loop].
  - rewrite lookup_nil. apply lookup_replicate_2.
    apply lookup_lt_Some in Hi. by cbn [length] in Hi |- *.
  - destruct i as [|i]; cbn in Hi |- *; [by inversion Hi|]. by apply IH.
Qed.

(** X6.  [Aggregate2] is nil exactly when one of its arguments is.
    Otherwise the result has the window and the length of the first series
    and holds [f x y] at every step that both series have; where the second
    series is shorter, the remaining cells hold the number zero, which is not
    the missing sentinel. *)
Theorem Aggregate2_pads_with_zero :
  (forall x y f, Aggregate2 x y f = None <-> x = None \/ y = None)
  /\ (forall xd yd f, exists out,
        Aggregate2 (Some xd) (Some yd) f = Some out
        /\ ts_from out = ts_from xd /\ ts_step out = ts_step xd
        /\ length (ts_data out) = length (ts_data xd)
        /\ (forall i xv yv,
              ts_data xd !! i = Some xv -> ts_data yd !! i = Some yv ->
              ts_data out !! i = Some (f xv yv))
        /\ (forall i, (length (ts_data yd) <= i < length (ts_data xd))%nat ->
              ts_data out !! i = Some F32.zero
              /\ IsNaN F32.zero = false)).
Proof.
  split.
  - intros [xd|] [yd|] f; cbn; split; try done; try (by left); try (by right);
      by intros [|].
  - intros xd yd f. eexists. split; [reflexivity|].
    cbn [NewWithData ts_from ts_step ts_data].
    split; [done|]. split; [done|].
    split; [apply aggregate2_loop_length|]. split.
    + intros i xv yv Hx Hy.
      by rewrite (aggregate2_loop_lookup f _ _ i xv Hx), Hy.
    + intros i [Hlo Hhi]. split; [|reflexivity].
      destruct (lookup_lt_is_Some_2 (ts_data xd) i Hhi) as [xv Hx].
      rewrite (aggregate2_loop_lookup f _ _ i xv Hx).
      by rewrite (lookup_ge_None_2 (ts_data yd) i Hlo).
Qed.

(** ** Increase *)

Lemma increase_loop_length_min : forall xs ss prev prevStatus,
  length (increase_loop prev prevStatus xs ss)
  = (length xs `min` length ss)%nat.
Proof.
  induction xs as [|x xs IH]; intros [|s ss] prev prevStatus;
    cbn [increase_loop length]; [done..|].
  by rewrite IH.
Qed.

Lemma increase_delta_non_negative prev prevStatus v :
  non_negative v -> non_negative (increase_delta prev prevStatus v).
Proof.
  intros Hv. unfold increase_delta.
  destruct (IsNaN v) eqn:Ev, (IsNaN prev) eqn:Ep; cbn [negb andb].
  - by destruct (F32.eqb prevStatus F32.one).
  - done.
  - by destruct (F32.eqb prevStatus F32.one).
  - destruct (F32.geb (F32.sub v prev) F32.zero) eqn:Hge; [|done].
    intros _. exact Hge.
Qed.

Lemma increase_loop_non_negative : forall xs ss prev prevStatus,
  Forall non_negative xs ->
  Forall non_negative (increase_loop prev prevStatus xs ss).
Proof.
  induction xs as [|x xs IH]; intros [|s ss] prev prevStatus Hxs;
    cbn [increase_loop]; try constructor.
  - apply increase_delta_non_negative. by inversion Hxs.
  - apply IH. by inversion Hxs.
Qed.

(** X7.  [Increase] of two non-nil series has the window of the counter and
    as many points as the shorter of the two; its first point is always
    missing; and for a counter without negative values no present increase
    is negative. *)
Theorem Increase_shape_and_sign (xd sd : TimeSeriesData) :
  exists out,
    Increase (Some xd) (Some sd) = Some out
    /\ ts_from out = ts_from xd /\ ts_step out = ts_step xd
    /\ length (ts_data out)
       = (length (ts_data xd) `min` length (ts_data sd))%nat
    /\ (forall v, ts_data out !! 0%nat = Some v -> v = NaN)
    /\ (Forall non_negative (ts_data xd) ->
        Forall non_negative (ts_data out)).
Proof.
  eexists. split; [reflexivity|]. cbn [NewWithData ts_from ts_step ts_data].
  split; [done|]. split; [done|]. split; [apply increase_loop_length_min|].
  split; [|apply increase_loop_non_negative].
  destruct (ts_data xd) as [|x xs], (ts_data sd) as [|s ss];
    cbn [increase_loop]; try done.
  intros v Hv. cbn in Hv. inversion Hv. unfold increase_delta.
  by destruct (IsNaN x).
Qed.

(** ** LastNotNull *)

Lemma LastNotNull_fold l : forall acc : Time * float32,
  fold_left (fun (acc : Time * float32) '(t, v) =>
               if negb (IsNaN v) then (t, v) else acc) l acc
  = default acc (last (List.filter is_present l)).
Proof.
  induction l as [|[t v] l IH]; intros acc; cbn [fold_left List.filter];
    [done|].
  rewrite IH. unfold is_present at 2. cbn [snd].
  destruct (negb (IsNaN v)); [|done].
  rewrite last_cons. by destruct (last (List.filter is_present l)).
Qed.

(** X8.  [LastNotNull] returns the last present sample of the series with
    its timestamp.  For a non-nil series without present sample it returns
    time 0 with the value 0, which is present, while for the nil series it
    returns the missing sentinel; so on a non-nil series the value returned
    is never missing. *)
Theorem LastNotNull_last_present (d : TimeSeriesData) :
  LastNotNull (Some d)
  = default (0, F32.zero) (last (List.filter is_present (samples (Some d))))
  /\ (Forall missing (ts_data d) -> LastNotNull (Some d) = (0, F32.zero))
  /\ (forall t v, LastNotNull (Some d) = (t, v) -> present v)
  /\ LastNotNull None = (0, NaN).
Proof.
  unfold LastNotNull. cbn [IsEmpty]. rewrite LastNotNull_fold.
  split; [done|]. split; [|split; [|done]].
  - intros Hall. cbn [samples].
    generalize (TimeOps.Add (ts_from d) (- ts_step d)).
    induction Hall as [|v l Hv Hall IH]; intros t; cbn [samples_from List.filter];
      [done|].
    unfold is_present at 1. cbn [snd]. unfold missing in Hv. rewrite Hv.
    cbn [negb]. apply IH.
  - intros t v.
    destruct (last (List.filter is_present (samples (Some d)))) as [s|] eqn:E;
      cbn [default].
    + intros Hs. cbv [default from_option id] in Hs. subst s.
      apply last_Some_elem_of in E.
      apply list_elem_of_In, List.filter_In in E. destruct E as [_ E].
      unfold is_present in E. cbn [snd] in E. unfold present.
      by destruct (IsNaN v).
    + intros H. cbv [default from_option id] in H. by inversion H.
Qed.

(** ** Fill, called twice *)

Lemma apply_writes_snoc l ws w :
  apply_writes l (ws ++ [w]) = <[w.1 := w.2]> (apply_writes l ws).
Proof. unfold apply_writes. by rewrite foldl_app. Qed.

Lemma apply_writes_app l ws1 ws2 :
  apply_writes l (ws1 ++ ws2) = apply_writes (apply_writes l ws1) ws2.
Proof. unfold apply_writes. by rewrite foldl_app. Qed.

Lemma apply_writes_length ws : forall l,
  length (apply_writes l ws) = length l.
Proof.
  induction ws as [|w ws IH]; intros l; [done|].
  unfold apply_writes in *. cbn [foldl]. by rewrite IH, length_insert.
Qed.

Lemma apply_writes_masked k (v v' : float32) ws : forall l,
  <[k := v]> (apply_writes (<[k := v']> l) ws)
  = <[k := v]> (apply_writes l ws).
Proof.
  induction ws as [|w ws IH]; intros l.
  - unfold apply_writes. cbn [foldl]. apply list_insert_insert_eq.
  - unfold apply_writes in *. cbn [foldl].
    destruct (decide (w.1 = k)) as [->|Hne].
    + by rewrite list_insert_insert_eq.
    + rewrite list_insert_insert_ne by done. apply IH.
Qed.

Lemma apply_writes_twice ws : forall l,
  apply_writes (apply_writes l ws) ws = apply_writes l ws.
Proof.
  induction ws as [|w ws IH] using rev_ind; intros l; [done|].
  rewrite !apply_writes_snoc, apply_writes_masked. by rewrite IH.
Qed.

Section FillTwice.

#[local] Opaque wrap64 TimeOps.Add TimeOps.Truncate.

Lemma fill_loop_writes tsfrom tsstep to step data : forall st st',
  fill_loop tsfrom tsstep to step data st = Some st' ->
  exists ws, fs_writes st' = fs_writes st ++ ws
             /\ fs_data st' = apply_writes (fs_data st) ws.
Proof.
  induction data as [|v data IH]; intros st st'; cbn [fill_loop].
  { intros [= <-]. exists []. by rewrite app_nil_r. }
  cbn [fs_data fs_tNext fs_iNext fs_t fs_changed fs_writes].
  set (t := TimeOps.Add (fs_t st) step).
  destruct (to <? t).
  { intros [= <-]. exists []. cbn [fs_writes fs_data]. by rewrite app_nil_r. }
  destruct (t <? tsfrom); [exact (IH _ _)|].
  destruct (t <? fs_tNext st); [exact (IH _ _)|].
  destruct (if fs_iNext st =? -1
            then match int64_quot (wrap64 (t - tsfrom)) tsstep with
                 | Some i => Some (i, TimeOps.Truncate t tsstep)
                 | None => None
                 end
            else Some (fs_iNext st, fs_tNext st)) as [[iNext tNext]|];
    [|done].
  destruct (iNext <? Z.of_nat (length (fs_data st))); [|exact (IH _ _)].
  destruct (iNext <? 0); [done|].
  intros H. destruct (IH _ _ H) as (ws & Hw & Hd).
  cbn [fs_writes fs_data] in Hw, Hd.
  exists ((Z.to_nat iNext, v) :: ws). split.
  - by rewrite Hw, <- app_assoc.
  - exact Hd.
Qed.

Lemma fill_loop_same_control tsfrom tsstep to step data : forall st1 st2 st1',
  same_control st1 st2 ->
  fill_loop tsfrom tsstep to step data st1 = Some st1' ->
  exists st2', fill_loop tsfrom tsstep to step data st2 = Some st2'
               /\ same_control st1' st2'.
Proof.
  induction data as [|v data IH];
    intros st1 st2 st1' (Hlen & HtN & HiN & Ht & Hc & Hw); cbn [fill_loop].
  { intros [= <-]. by exists st2. }
  cbn [fs_data fs_tNext fs_iNext fs_t fs_changed fs_writes].
  rewrite <- Hlen, <- HtN, <- HiN, <- Ht, <- Hc, <- Hw.
  set (t := TimeOps.Add (fs_t st1) step).
  destruct (to <? t).
  { intros [= <-]. eexists. split; [reflexivity|]. by unfold same_control. }
  destruct (t <? tsfrom); [by apply IH|].
  destruct (t <? fs_tNext st1); [by apply IH|].
  destruct (if fs_iNext st1 =? -1
            then match int64_quot (wrap64 (t - tsfrom)) tsstep with
                 | Some i => Some (i, TimeOps.Truncate t tsstep)
                 | None => None
                 end
            else Some (fs_iNext st1, fs_tNext st1)) as [[iNext tNext]|];
    [|done].
  destruct (iNext <? Z.of_nat (length (fs_data st1))); [|by apply IH].
  destruct (iNext <? 0); [done|].
  apply IH. unfold same_control.
  cbn [fs_data fs_tNext fs_iNext fs_t fs_changed fs_writes].
  by rewrite !length_insert.
Qed.

End FillTwice.

(** X9.  [Fill] is idempotent: filling a series a second time from the same
    data performs the same writes, leaves the series as the first call left
    it, and returns the same flag. *)
Theorem Fill_idempotent (d d' : TimeSeriesData) (from : Time)
  (step : Duration) (data : list float32) (changed : bool) :
  Fill d from step data = Some (d', changed) ->
  Fill d' from step data = Some (d', changed)
  /\ Fill_writes d' from step data = Fill_writes d from step data.
Proof.
  unfold Fill, Fill_writes.
  destruct (fill_run d from step data) as [st1|] eqn:Hrun1; [|done].
  intros [= <- <-]. unfold fill_run in *.
  cbn [ts_from ts_step ts_data fill_to].
  destruct (fill_loop_writes _ _ _ _ _ _ _ Hrun1) as (ws & Hws & Hdata).
  cbn [fs_writes fs_data app] in Hws, Hdata.
  assert (Hto : fill_to (mkTS (ts_from d) (ts_step d) (fs_data st1))
                = fill_to d).
  { unfold fill_to. cbn [ts_from ts_step ts_data].
    by rewrite Hdata, apply_writes_length. }
  rewrite Hto.
  assert (Hsame : same_control
            (mkFill (ts_data d) 0 (-1) (TimeOps.Add from (- step)) false [])
            (mkFill (fs_data st1) 0 (-1) (TimeOps.Add from (- step)) false [])).
  { unfold same_control.
    cbn [fs_data fs_tNext fs_iNext fs_t fs_changed fs_writes].
    by rewrite Hdata, apply_writes_length. }
  destruct (fill_loop_same_control _ _ _ _ _ _ _ _ Hsame Hrun1)
    as (st2 & Hrun2 & _ & _ & _ & _ & Hc & Hw).
  rewrite Hrun2. split; [|done].
  destruct (fill_loop_writes _ _ _ _ _ _ _ Hrun2) as (ws2 & Hws2 & Hdata2).
  cbn [fs_writes fs_data app] in Hws2, Hdata2.
  assert (Heq : ws2 = ws) by congruence.
  by rewrite Hdata2, Heq, Hdata, apply_writes_twice, <- Hc.
Qed.

Lemma Fill_idempotent_witness :
  Fill (mkTS 0 10 [F32.of_Z 5; F32.of_Z 6]) 0 10 [F32.of_Z 5; F32.of_Z 6]
  = Some (mkTS 0 10 [F32.of_Z 5; F32.of_Z 6], true)
  /\ Fill_writes (mkTS 0 10 [F32.of_Z 5; F32.of_Z 6]) 0 10
       [F32.of_Z 5; F32.of_Z 6]
     = Fill_writes (mkTS 0 10 [NaN; NaN]) 0 10 [F32.of_Z 5; F32.of_Z 6].
Proof.
  apply (Fill_idempotent (mkTS 0 10 [NaN; NaN])
           (mkTS 0 10 [F32.of_Z 5; F32.of_Z 6]) 0 10
           [F32.of_Z 5; F32.of_Z 6] true).
  vm_compute. reflexivity.
Defined.

Lemma finite_le_MaxFloat32 s m e :
  F32.valid (S754_finite s m e) = true ->
  F32.gtb (S754_finite s m e) MaxFloat32 = false
  /\ F32.ltb (S754_finite s m e) (SFopp MaxFloat32) = false.
Proof.
  unfold F32.valid, valid_binary, bounded. intros [Hc He]%andb_true_iff.
  apply Z.leb_le in He. unfold F32.emax, F32.prec in He.
  assert (Hm : (m <= 2 ^ 24 - 1)%positive).
  { pose proof (bounded_inv m e) as Hb. unfold bounded in Hb.
    destruct Hb as (_ & Hd & _).
    { apply andb_true_iff. split; [done|]. by apply Z.leb_le. }
    pose proof (digits2_pos_bounds m) as [_ Hhi].
    assert (Zpos m < 2 ^ 24); [|lia].
    eapply Z.lt_le_trans; [exact Hhi|].
    apply Z.pow_le_mono_r; lia. }
  unfold F32.gtb, F32.ltb, SFltb, MaxFloat32. cbn [SFopp SFcompare negb].
  destruct s.
  - split; [done|].
    destruct (Z.compare_spec e 104) as [->| |]; [|done|lia].
    change (Pos.compare_cont Eq m (2 ^ 24 - 1)) with (Pos.compare m (2 ^ 24 - 1)).
    destruct (Pos.compare_spec m (2 ^ 24 - 1)); cbn [CompOpp]; try done; lia.
  - split; [|done].
    destruct (Z.compare_spec 104 e) as [<-| |]; [|lia|done].
    change (Pos.compare_cont Eq (2 ^ 24 - 1) m) with (Pos.compare (2 ^ 24 - 1) m).
    destruct (Pos.compare_spec (2 ^ 24 - 1) m); try done; lia.
Qed.

(** X10.  On a well-formed float32, [IsInf] holds exactly for the
    infinities: for plus infinity when the sign is not negative, and for
    minus infinity when the sign is not positive.  The largest finite value
    and NaN are not infinite. *)
Theorem IsInf_exactly_the_infinities (f : float32) (sign : Z) :
  F32.valid f = true ->
  IsInf f sign = true
  <-> (f = S754_infinity false /\ 0 <= sign)
      \/ (f = S754_infinity true /\ sign <= 0).
Proof.
  intros Hv. unfold IsInf.
  destruct f as [s|s| |s m e].
  - (* zeros *)
    replace (F32.gtb (S754_zero s) MaxFloat32) with false by (by destruct s).
    replace (F32.ltb (S754_zero s) (SFopp MaxFloat32)) with false
      by (by destruct s).
    rewrite !andb_false_r. cbn [orb]. split; [done|]. by intros [[? _]|[? _]].
  - (* infinities *)
    destruct s.
    + replace (F32.gtb (S754_infinity true) MaxFloat32) with false by done.
      replace (F32.ltb (S754_infinity true) (SFopp MaxFloat32)) with true by done.
      rewrite andb_false_r, andb_true_r. cbn [orb]. rewrite Z.leb_le.
      split; [by right|]. by intros [[? _]|[_ ?]].
    + replace (F32.gtb (S754_infinity false) MaxFloat32) with true by done.
      replace (F32.ltb (S754_infinity false) (SFopp MaxFloat32)) with false by done.
      rewrite andb_false_r, andb_true_r, orb_false_r. rewrite Z.geb_le.
      split; [by left|]. by intros [[_ ?]|[? _]].
  - (* NaN *)
    replace (F32.gtb S754_nan MaxFloat32) with false by done.
    replace (F32.ltb S754_nan (SFopp MaxFloat32)) with false by done.
    rewrite !andb_false_r. cbn [orb]. split; [done|]. by intros [[? _]|[? _]].
  - destruct (finite_le_MaxFloat32 s m e Hv) as [-> ->].
    rewrite !andb_false_r. cbn [orb]. split; [done|]. by intros [[? _]|[? _]].
Qed.

Lemma IsInf_exactly_the_infinities_witness :
  IsInf MaxFloat32 0 = true
  <-> (MaxFloat32 = S754_infinity false /\ 0 <= 0)
      \/ (MaxFloat32 = S754_infinity true /\ 0 <= 0).
Proof.
  apply (IsInf_exactly_the_infinities MaxFloat32 0). reflexivity.
Defined.

(** ** sumF *)

(** X11.  [sumF] never returns the missing sentinel.  It is the NanSum
    reduction of the series exactly when that is present, and 0 when it is
    missing: for the nil series, for a series whose values are all missing
    (also one without points), and when the sum is undefined, as for
    [+Inf,-Inf]; there is no other case in which it differs from the
    reduction. *)
Theorem sumF_never_missing :
  (forall ts, present (sumF ts))
  /\ sumF None = F32.zero
  /\ (forall d, Forall missing (ts_data d) -> sumF (Some d) = F32.zero)
  /\ (forall ts, sumF ts = Reduce ts NanSum <-> present (Reduce ts NanSum))
  /\ (forall ts, missing (Reduce ts NanSum) -> sumF ts = F32.zero)
  /\ (forall d, sumF (Some d) <> Reduce (Some d) NanSum ->
        ts_data d = []
        \/ exists s v, present s /\ present v /\ v ∈ ts_data d
                       /\ missing (F32.add s v))
  /\ (forall from step,
        sumF (NewWithData from step [S754_infinity false; S754_infinity true])
        = F32.zero).
Proof.
  assert (Hiff : forall ts,
            sumF ts = Reduce ts NanSum <-> present (Reduce ts NanSum)).
  { intros ts. unfold sumF, present.
    destruct (IsNaN (Reduce ts NanSum)) eqn:E; [|done].
    split; [|done]. intros H. rewrite <- H in E. by vm_compute in E. }
  split; [|split; [done|split; [|split; [exact Hiff|split; [|split]]]]].
  - intros ts. unfold sumF, present.
    destruct (IsNaN (Reduce ts NanSum)) eqn:E; [reflexivity|exact E].
  - intros d Hall. unfold sumF, Reduce. cbn [IsEmpty samples].
    rewrite (NanSum_fold_missing _ _ _ _ Hall).
    by destruct (ts_data d).
  - intros ts Hm. unfold sumF. unfold missing in Hm. by rewrite Hm.
  - intros d Hne.
    assert (Hm : missing (Reduce (Some d) NanSum)).
    { unfold missing. destruct (IsNaN (Reduce (Some d) NanSum)) eqn:E; [done|].
      destruct Hne. by apply Hiff. }
    unfold Reduce in Hm. cbn [IsEmpty samples] in Hm.
    destruct (NanSum_fold_undefined _ _ _ _ Hm) as [[Hd _]|H]; [by left|by right].
  - reflexivity.
Qed.

(** ** podInfo: the whole loop *)

Lemma world_grows_refl w : world_grows w w.
Proof.
  intros a app Ha. exists app. split; [done|]. split; [done|].
  intros k inst Hk. by exists inst.
Qed.

Lemma world_grows_trans w1 w2 w3 :
  world_grows w1 w2 -> world_grows w2 w3 -> world_grows w1 w3.
Proof.
  intros H12 H23 a app Ha.
  destruct (H12 a app Ha) as (app2 & Ha2 & Hid2 & Hi2).
  destruct (H23 a app2 Ha2) as (app3 & Ha3 & Hid3 & Hi3).
  exists app3. split; [done|]. split; [congruence|].
  intros k inst Hk.
  destruct (Hi2 k inst Hk) as (inst2 & Hk2 & Hn2 & Hp2).
  destruct (Hi3 k inst2 Hk2) as (inst3 & Hk3 & Hn3 & Hp3).
  exists inst3. split; [done|]. split; [congruence|]. auto.
Qed.

Lemma pods_valid_grows w w' pods :
  world_grows w w' -> pods_valid w pods -> pods_valid w' pods.
Proof.
  intros Hg Hv uid a k Hp.
  destruct (Hv uid a k Hp) as (app & inst & Ha & Hk & Hpod).
  destruct (Hg a app Ha) as (app' & Ha' & _ & Hi).
  destruct (Hi k inst Hk) as (inst' & Hk' & _ & Hpod').
  exists app', inst'. auto.
Qed.

Lemma GetOrCreateInstance_lookup a name node k inst :
  Application.Instances a !! k = Some inst ->
  Application.Instances (Application.GetOrCreateInstance a name node).1 !! k
  = Some inst.
Proof.
  intros Hk. unfold Application.GetOrCreateInstance.
  destruct (list_find _ _) as [[k' inst']|]; cbn [fst]; [done|].
  cbn [Application.set_Instances Application.Instances].
  by apply lookup_app_l_Some.
Qed.

(** One sample: the step does not panic, the world grows, and the map is
    left alone or gains the pointer of the sample's uid, to an instance with
    its [Pod] set. *)
Lemma podInfo_step_grows ParseIP w pods m :
  is_Some (Last (MetricValues.Values m)) ->
  exists w' pods',
    podInfo_step ParseIP (w, pods) m = Some (w', pods')
    /\ world_grows w w'
    /\ World.KubeStateMetricsInstalled w' = true
    /\ (pods' = pods
        \/ exists a k app inst,
             pods' = <[MetricValues.label m "uid" := (a, k)]> pods
             /\ World.Applications w' !! a = Some app
             /\ Application.Instances app !! k = Some inst
             /\ is_Some (Instance.Pod inst)).
Proof.
  intros [lst Hlast]. unfold podInfo_step.
  set (w0 := World.set_KubeStateMetricsInstalled w true).
  destruct (podAppId _ _ _ _ _) as [id|].
  2:{ exists w0, pods. split; [done|].
      split; [exact (world_grows_refl w0)|].
      split; [done|]. by left. }
  pose proof (GetOrCreateApplication_found w0 id) as Hfound.
  pose proof (fun a app => GetOrCreateApplication_lookup w0 id a app) as Hkeep.
  assert (Hksm : World.KubeStateMetricsInstalled
                   (World.GetOrCreateApplication w0 id).1 = true).
  { unfold World.GetOrCreateApplication.
    by destruct (World.GetApplication w0 id). }
  destruct (World.GetOrCreateApplication w0 id) as [w1 a].
  cbn [fst snd] in Hfound, Hkeep, Hksm.
  destruct (GetApplication_Some _ _ _ Hfound) as (app0 & Hl0 & Hid0).
  rewrite Hl0. cbn [mbind option_bind].
  pose proof (GetOrCreateInstance_spec app0 (MetricValues.label m "pod")
                (World.GetNode w0 (MetricValues.label m "node")))
    as (Hid1 & inst & Hinst & Hname).
  pose proof (fun k i => GetOrCreateInstance_lookup app0
                (MetricValues.label m "pod")
                (World.GetNode w0 (MetricValues.label m "node")) k i)
    as Hkeepi.
  destruct (Application.GetOrCreateInstance app0 _ _) as [app1 k].
  cbn [fst snd] in Hid1, Hinst, Hkeepi. rewrite Hinst.
  cbn [mbind option_bind]. rewrite Hlast. cbn [mbind option_bind].
  match goal with
  | |- exists _ _, mbind ?f ?o = _ /\ _ =>
      assert (Ho : exists listens, o = Some listens)
        by (destruct (_ && _); eauto)
  end.
  destruct Ho as (listens & ->). cbn [mbind option_bind].
  eexists _, _. split; [reflexivity|].
  cbn [World.set_Applications World.Applications
       World.KubeStateMetricsInstalled].
  assert (Ha : (a < length (World.Applications w1))%nat)
    by (by eapply lookup_lt_Some).
  assert (Hk : (k < length (Application.Instances app1))%nat)
    by (by eapply lookup_lt_Some).
  split; [|split].
  - intros a0 app Ha0.
    change (World.Applications w0 !! a0 = Some app) in Ha0.
    apply Hkeep in Ha0.
    destruct (decide (a0 = a)) as [->|Hne].
    + assert (app = app0) by congruence. subst app.
      eexists. split; [by apply list_lookup_insert_eq|].
      split; [cbn; congruence|].
      intros k0 inst0 Hk0. apply Hkeepi in Hk0.
      cbn [Application.set_Instances Application.Instances].
      destruct (decide (k0 = k)) as [->|Hnek].
      * assert (inst0 = inst) by congruence. subst inst0.
        eexists. split; [by apply list_lookup_insert_eq|]. split; [done|].
        intros _. by eexists.
      * exists inst0. by rewrite list_lookup_insert_ne.
    + exists app. cbn [World.set_Applications World.Applications].
      rewrite list_lookup_insert_ne by done.
      split; [done|]. split; [done|]. intros k0 inst0 Hk0. by exists inst0.
  - exact Hksm.
  - right. eexists a, k, _, _. split; [reflexivity|].
    split; [by apply list_lookup_insert_eq|].
    cbn [Application.set_Instances Application.Instances].
    split; [by apply list_lookup_insert_eq|]. by eexists.
Qed.

Lemma podInfo_loop_grows ParseIP metrics : forall w pods,
  Forall (fun m => is_Some (Last (MetricValues.Values m))) metrics ->
  pods_valid w pods ->
  exists w' pods',
    foldl (fun st m => st ← st; podInfo_step ParseIP st m) (Some (w, pods))
          metrics = Some (w', pods')
    /\ world_grows w w'
    /\ pods_valid w' pods'
    /\ (forall uid, is_Some (pods' !! uid) ->
          is_Some (pods !! uid)
          \/ exists m, m ∈ metrics /\ MetricValues.label m "uid" = uid)
    /\ World.KubeStateMetricsInstalled w'
       = match metrics with
         | [] => World.KubeStateMetricsInstalled w
         | _ => true
         end.
Proof.
  induction metrics as [|m metrics IH]; intros w pods Hall Hv.
  { exists w, pods. split; [done|]. split; [apply world_grows_refl|].
    split; [done|]. split; [by left|done]. }
  inversion Hall as [|? ? Hm Hall']; subst.
  destruct (podInfo_step_grows ParseIP w pods m Hm)
    as (w1 & pods1 & Hstep & Hg1 & Hksm1 & Hp1).
  assert (Hv1 : pods_valid w1 pods1).
  { destruct Hp1 as [->|(a & k & app & inst & -> & Ha & Hk & Hpod)].
    - by eapply pods_valid_grows.
    - intros uid a' k' Hl.
      destruct (decide (uid = MetricValues.label m "uid")) as [->|Hne].
      + rewrite lookup_insert_eq in Hl. inversion Hl; subst. eauto.
      + rewrite lookup_insert_ne in Hl by done.
        by eapply (pods_valid_grows w w1 pods). }
  destruct (IH w1 pods1 Hall' Hv1) as (w' & pods' & Hrun & Hg & Hv' & Hdom & Hksm).
  exists w', pods'. cbn [foldl]. cbn [mbind option_bind]. rewrite Hstep.
  split; [done|]. split; [by eapply world_grows_trans|]. split; [done|].
  split.
  - intros uid Hin. destruct (Hdom uid Hin) as [Hin1|(m' & Hm' & Hu)].
    + destruct Hp1 as [->|(a & k & _ & _ & -> & _)]; [by left|].
      destruct (decide (uid = MetricValues.label m "uid")) as [->|Hne].
      * right. exists m. split; [left|done].
      * left. by rewrite lookup_insert_ne in Hin1.
    + right. exists m'. split; [by right|done].
  - rewrite Hksm. by destruct metrics.
Qed.

(** X12.  When every sample has a last value, [podInfo] does not panic, and
    every pointer of the map it returns designates an instance that exists
    in the world and has its [Pod] set.  The applications and instances the
    world had before are still at their place, under the same identity and
    name; the keys of the map are uids of the samples; and the
    kube-state-metrics flag is set as soon as there is one sample. *)
Theorem podInfo_pointers_valid (ParseIP : string -> bool) (w : World.t)
  (metrics : list MetricValues.t) :
  Forall (fun m => is_Some (Last (MetricValues.Values m))) metrics ->
  exists w' pods',
    podInfo ParseIP w metrics = Some (w', pods')
    /\ world_grows w w'
    /\ pods_valid w' pods'
    /\ (forall uid, is_Some (pods' !! uid) ->
          exists m, m ∈ metrics /\ MetricValues.label m "uid" = uid)
    /\ World.KubeStateMetricsInstalled w'
       = match metrics with
         | [] => World.KubeStateMetricsInstalled w
         | _ => true
         end.
Proof.
  intros Hall.
  destruct (podInfo_loop_grows ParseIP metrics w ∅ Hall)
    as (w' & pods' & Hrun & Hg & Hv & Hdom & Hksm).
  { intros uid a k Hl. by rewrite lookup_empty in Hl. }
  exists w', pods'. split; [exact Hrun|]. split; [done|]. split; [done|].
  split; [|done].
  intros uid Hin. destruct (Hdom uid Hin) as [Hin0|?]; [|done].
  rewrite lookup_empty in Hin0. by destruct Hin0.
Qed.

Lemma podInfo_pointers_valid_witness :
  exists w' pods',
    podInfo (fun _ => true) World.NewWorld [owned_sample] = Some (w', pods')
    /\ world_grows World.NewWorld w'
    /\ pods_valid w' pods'
    /\ (forall uid, is_Some (pods' !! uid) ->
          exists m, m ∈ [owned_sample] /\ MetricValues.label m "uid" = uid)
    /\ World.KubeStateMetricsInstalled w' = true.
Proof.
  apply (podInfo_pointers_valid (fun _ => true) World.NewWorld [owned_sample]).
  repeat constructor. vm_compute. eauto.
Defined.

Lemma loadServices_app metrics : forall services,
  loadServices services metrics = services ++ loadServices [] metrics.
Proof.
  unfold loadServices.
  induction metrics as [|m metrics IH]; intros services; cbn [foldl].
  { by rewrite app_nil_r. }
  rewrite IH, (IH (loadServices_step [] m)). unfold loadServices_step.
  destruct (negb _); [|done]. by rewrite <- app_assoc.
Qed.

(** What [loadServices] appends, read off the samples. *)
Lemma loadServices_added (metrics : list MetricValues.t) :
  Service.ClusterIP <$> loadServices [] metrics
  = List.filter (fun ip => negb (String.eqb ip ""))
      ((fun m => MetricValues.label m "cluster_ip") <$> metrics)
  /\ Forall (fun s =>
       Service.ClusterIP s <> ""
       /\ Service.Name s <> "kubernetes"
       /\ Service.Connections s = []
       /\ exists m, m ∈ metrics
            /\ Service.ClusterIP s = MetricValues.label m "cluster_ip"
            /\ Service.Namespace s = MetricValues.label m "namespace"
            /\ Service.Name s
               = (if String.eqb (MetricValues.label m "service") "kubernetes"
                  then "kube-apiserver"
                  else MetricValues.label m "service"))
       (loadServices [] metrics).
Proof.
  induction metrics as [|m metrics [IH1 IH2]]; [by split|].
  unfold loadServices. cbn [foldl]. fold (loadServices (loadServices_step [] m) metrics).
  rewrite loadServices_app. rewrite fmap_app, fmap_cons. cbn [List.filter].
  assert (IH2' : Forall (fun s =>
         Service.ClusterIP s <> ""
         /\ Service.Name s <> "kubernetes"
         /\ Service.Connections s = []
         /\ exists m0, m0 ∈ m :: metrics
              /\ Service.ClusterIP s = MetricValues.label m0 "cluster_ip"
              /\ Service.Namespace s = MetricValues.label m0 "namespace"
              /\ Service.Name s
                 = (if String.eqb (MetricValues.label m0 "service") "kubernetes"
                    then "kube-apiserver"
                    else MetricValues.label m0 "service"))
         (loadServices [] metrics)).
  { eapply Forall_impl; [exact IH2|].
    intros s (H1 & H2 & H3 & m0 & Hin & H4). split; [done|]. split; [done|].
    split; [done|]. exists m0. split; [by right|done]. }
  unfold loadServices_step.
  destruct (String.eqb (MetricValues.label m "cluster_ip") "") eqn:Hip;
    cbn [negb app fmap list_fmap].
  - by split.
  - split; [by rewrite <- IH1|].
    constructor; [|done]. cbn [Service.ClusterIP Service.Name Service.Connections
                              Service.Namespace].
    split; [by apply String.eqb_neq|]. split.
    { destruct (String.eqb (MetricValues.label m "service") "kubernetes") eqn:E;
        [done|]. by apply String.eqb_neq. }
    split; [done|]. exists m. split; [left|done].
Qed.

(** X13.  [loadServices] only appends to the services of the world: one
    service for every sample with a non-empty cluster IP, in the order of
    the samples and without merging equal IPs.  A service it adds has the
    cluster IP and the namespace of its sample and no connections, and is
    never named [kubernetes]: that name is replaced by [kube-apiserver]. *)
Theorem loadServices_only_with_cluster_ip (services : list Service.t)
  (metrics : list MetricValues.t) :
  exists added,
    loadServices services metrics = services ++ added
    /\ Service.ClusterIP <$> added
       = List.filter (fun ip => negb (String.eqb ip ""))
           ((fun m => MetricValues.label m "cluster_ip") <$> metrics)
    /\ Forall (fun s =>
         Service.ClusterIP s <> ""
         /\ Service.Name s <> "kubernetes"
         /\ Service.Connections s = []
         /\ exists m, m ∈ metrics
              /\ Service.ClusterIP s = MetricValues.label m "cluster_ip"
              /\ Service.Namespace s = MetricValues.label m "namespace"
              /\ Service.Name s
                 = (if String.eqb (MetricValues.label m "service") "kubernetes"
                    then "kube-apiserver"
                    else MetricValues.label m "service")) added.
Proof.
  exists (loadServices [] metrics). split; [apply loadServices_app|].
  apply loadServices_added.
Qed.

Lemma GetServiceForConnection_from_spec services c : forall i r,
  GetServiceForConnection_from i services c = Some r ->
  exists j s, r = (i + j)%nat
              /\ services !! j = Some s /\ service_matches c s
              /\ forall k s', (k < j)%nat -> services !! k = Some s' ->
                              ~ service_matches c s'.
Proof.
  induction services as [|s services IH]; intros i r; cbn [GetServiceForConnection_from];
    [done|].
  destruct (String.eqb (Service.ClusterIP s) (Connection.ServiceRemoteIP c)) eqn:Hip.
  { intros [= <-]. exists 0%nat, s. split; [lia|]. split; [done|].
    split; [left; by apply String.eqb_eq|]. intros k s' Hk. lia. }
  destruct (existsb _ (Service.Connections s)) eqn:Hex.
  { intros [= <-]. exists 0%nat, s. split; [lia|]. split; [done|]. split.
    - right. apply List.existsb_exists in Hex as (sc & Hin & Heq).
      exists sc. split; [by apply list_elem_of_In|by apply String.eqb_eq].
    - intros k s' Hk. lia. }
  intros Hr. destruct (IH _ _ Hr) as (j & s0 & -> & Hj & Hm & Hleast).
  exists (S j), s0. split; [lia|]. split; [done|]. split; [done|].
  intros [|k] s' Hk Hs'; cbn in Hs'.
  - inversion Hs'; subst s'. intros [Hc|(sc & Hin & Heq)].
    + apply String.eqb_neq in Hip. done.
    + assert (existsb (fun sc0 => String.eqb (Connection.ActualRemoteIP sc0)
                                    (Connection.ActualRemoteIP c))
                (Service.Connections s) = true); [|congruence].
      apply List.existsb_exists. exists sc.
      split; [by apply list_elem_of_In|by apply String.eqb_eq].
  - apply (Hleast k s'); [lia|done].
Qed.

Lemma GetServiceForConnection_from_None services c : forall i,
  GetServiceForConnection_from i services c = None ->
  Forall (fun s => ~ service_matches c s) services.
Proof.
  induction services as [|s services IH]; intros i; cbn [GetServiceForConnection_from];
    [done|].
  destruct (String.eqb (Service.ClusterIP s) (Connection.ServiceRemoteIP c)) eqn:Hip;
    [done|].
  destruct (existsb _ (Service.Connections s)) eqn:Hex; [done|].
  intros Hr. constructor; [|by eapply IH].
  intros [Hc|(sc & Hin & Heq)].
  - apply String.eqb_neq in Hip. done.
  - assert (existsb (fun sc0 => String.eqb (Connection.ActualRemoteIP sc0)
                                  (Connection.ActualRemoteIP c))
              (Service.Connections s) = true); [|congruence].
    apply List.existsb_exists. exists sc.
    split; [by apply list_elem_of_In|by apply String.eqb_eq].
Qed.

(** X14.  [GetServiceForConnection] returns the first service of the list
    that matches the connection, by cluster IP or by the actual remote IP of
    one of its connections, and nil exactly when no service matches.  Among
    the services that [loadServices] has just created, a match is always by
    cluster IP, so a connection without service IP finds none. *)
Theorem GetServiceForConnection_first_match :
  (forall services c i,
     GetServiceForConnection services c = Some i ->
     exists s, services !! i = Some s /\ service_matches c s
               /\ forall k s', (k < i)%nat -> services !! k = Some s' ->
                               ~ service_matches c s')
  /\ (forall services c,
        GetServiceForConnection services c = None
        <-> Forall (fun s => ~ service_matches c s) services)
  /\ (forall metrics c i,
        GetServiceForConnection (loadServices [] metrics) c = Some i ->
        Connection.ServiceRemoteIP c <> ""
        /\ exists s, loadServices [] metrics !! i = Some s
                     /\ Service.ClusterIP s = Connection.ServiceRemoteIP c).
Proof.
  assert (H1 : forall services c i,
     GetServiceForConnection services c = Some i ->
     exists s, services !! i = Some s /\ service_matches c s
               /\ forall k s', (k < i)%nat -> services !! k = Some s' ->
                               ~ service_matches c s').
  { intros services c i Hget.
    destruct (GetServiceForConnection_from_spec _ _ _ _ Hget)
      as (j & s & -> & Hj & Hm & Hleast).
    exists s. done. }
  split; [exact H1|]. split.
  - intros services c. split; [apply GetServiceForConnection_from_None|].
    intros Hall. destruct (GetServiceForConnection services c) as [i|] eqn:Hget;
      [|done].
    destruct (H1 _ _ _ Hget) as (s & Hi & Hm & _).
    apply list_elem_of_lookup_2 in Hi.
    by destruct (proj1 (Forall_forall _ _) Hall s Hi).
  - intros metrics c i Hget.
    destruct (H1 _ _ _ Hget) as (s & Hi & Hm & _).
    destruct (loadServices_added metrics) as [_ Hadded].
    destruct (proj1 (Forall_forall _ _) Hadded s) as (Hip & _ & Hconn & _).
    { by eapply list_elem_of_lookup_2. }
    destruct Hm as [Hc|(sc & Hin & _)].
    + split; [congruence|]. by exists s.
    + rewrite Hconn in Hin. by apply elem_of_nil in Hin.
Qed.

(** ** podLabels *)

(** X15.  [podLabels] updates an instance only for a sample whose uid is in
    the map and which follows one of the three labelling conventions.  For
    such a sample the cluster name is always non-empty, so the cluster name
    is updated and thereafter the role, with the same series; a role is
    never recorded as [master]. *)
Theorem podLabels_cluster_and_role (metrics : list MetricValues.t)
  (pods : gmap string InstancePtr) :
  Forall (fun ev =>
            match ev with
            | EvClusterName i _ cluster =>
                cluster <> "" /\ exists uid, pods !! uid = Some i
            | EvClusterRole i role _ =>
                role <> "master" /\ exists uid, pods !! uid = Some i
            end) (podLabels metrics pods)
  /\ (forall m, podLabels_convention m <> None ->
        is_Some (pods !! MetricValues.label m "uid") ->
        exists i cluster role,
          podLabels_step pods m
          = [EvClusterName i (MetricValues.Values m) cluster;
             EvClusterRole i role (MetricValues.Values m)])
  /\ (forall m, pods !! MetricValues.label m "uid" = None ->
        podLabels_step pods m = [])
  /\ (forall m, podLabels_convention m = None -> podLabels_step pods m = []).
Proof.
  assert (Hconv : forall m cluster role,
            podLabels_convention m = Some (cluster, role) -> cluster <> "").
  { intros m cluster role. unfold podLabels_convention.
    repeat match goal with
    | |- context [negb (String.eqb ?a "")] =>
        let E := fresh "E" in destruct (String.eqb a "") eqn:E; cbn [negb andb]
    end; intros [= <- <-] || done; by apply String.eqb_neq. }
  split; [|split; [|split]].
  - unfold podLabels. apply Forall_concat, Forall_forall.
    intros evs (m & <- & _)%list_elem_of_In%List.in_map_iff.
    unfold podLabels_step.
    destruct (pods !! MetricValues.label m "uid") as [i|] eqn:Hi; [|done].
    destruct (podLabels_convention m) as [[cluster role]|] eqn:Hc; [|done].
    apply Hconv in Hc. apply String.eqb_neq in Hc. rewrite Hc. cbn [negb app].
    constructor; [split; [by apply String.eqb_neq|eauto]|].
    constructor; [|done]. split; [|eauto].
    destruct (String.eqb role "master") eqn:Hr; [done|by apply String.eqb_neq].
  - intros m Hc [i Hi]. unfold podLabels_step. rewrite Hi.
    destruct (podLabels_convention m) as [[cluster role]|] eqn:Hc'; [|done].
    apply Hconv in Hc'. apply String.eqb_neq in Hc'. rewrite Hc'. cbn [negb app].
    by eexists _, _, _.
  - intros m Hi. unfold podLabels_step. by rewrite Hi.
  - intros m Hc. unfold podLabels_step. rewrite Hc.
    by destruct (pods !! _).
Qed.

Lemma adjacent_differ_snoc l x :
  adjacent_differ l -> (forall n, last l = Some n -> n <> x) ->
  adjacent_differ (l ++ [x]).
Proof.
  intros Hl Hx i a b Ha Hb.
  destruct (decide (S i < length l)%nat) as [Hlt|Hge].
  - rewrite lookup_app_l in Ha by lia. rewrite lookup_app_l in Hb by lia.
    by eapply Hl.
  - assert (Hi : (S i < length (l ++ [x]))%nat) by (by eapply lookup_lt_Some).
    rewrite List.length_app in Hi. cbn in Hi.
    assert (S i = length l) as Hlen by lia.
    rewrite lookup_app_l in Ha by lia.
    rewrite Hlen, list_lookup_middle in Hb by done. inversion Hb; subst b.
    apply Hx. rewrite last_lookup. rewrite <- Hlen. exact Ha.
Qed.

Lemma set_finished_names ds i t :
  deployment_names (set_finished ds i t) = deployment_names ds.
Proof.
  unfold set_finished, deployment_names.
  destruct (ds !! i) as [d|] eqn:Hd; [|done].
  rewrite list_fmap_insert. cbn. apply list_insert_id.
  by rewrite list_lookup_fmap, Hd.
Qed.

Lemma set_finished_length ds i t : length (set_finished ds i t) = length ds.
Proof.
  unfold set_finished. destruct (ds !! i); [|done]. by rewrite length_insert.
Qed.

Lemma walk_step_inv keys id st r :
  "" ∉ keys -> NoDup r.2 -> r.2 ⊆ keys ->
  walk_inv keys st -> walk_inv keys (walk_step id st r).
Proof.
  intros Hkeys Hnd Hsub Hinv.
  pose proof Hinv as (Hdep & Hlast & Hadj & Hnames).
  destruct r as [time names]. cbn [snd] in Hnd, Hsub. unfold walk_step.
  destruct names as [|curr [|n2 names]]; [done| |].
  - (* one active replica set *)
    assert (Hcurr : curr ∈ keys) by (apply Hsub; left).
    destruct (String.eqb (prev st) "") eqn:Hprev.
    { apply String.eqb_eq in Hprev. unfold walk_inv. cbn [deployments deployment prev].
      split; [done|]. split; [|done].
      intros n Hn. exfalso. apply Hkeys, Hnames.
      apply Hlast in Hn as Hn'. rewrite <- Hprev, <- Hn'.
      by eapply last_Some_elem_of. }
    set (ds1 := match deployment st with
                | Some i =>
                    if String.eqb curr
                         (default "" (ApplicationDeployment.Name <$> deployments st !! i))
                    then set_finished (deployments st) i time
                    else deployments st
                | None => deployments st
                end).
    assert (Hds1 : deployment_names ds1 = deployment_names (deployments st)).
    { unfold ds1. destruct (deployment st); [|done].
      destruct (String.eqb curr _); [apply set_finished_names|done]. }
    assert (Heq : (match deployment st with
                   | Some i =>
                       (if String.eqb curr
                             (default "" (ApplicationDeployment.Name <$> deployments st !! i))
                        then set_finished (deployments st) i time
                        else deployments st, @None nat)
                   | None => (deployments st, None)
                   end) = (ds1, None)).
    { unfold ds1. by destruct (deployment st). }
    rewrite Heq.
    destruct (String.eqb (prev st) curr) eqn:Hpc.
    + unfold walk_inv. cbn [deployments deployment prev]. rewrite Hds1.
      split; [done|]. done.
    + apply String.eqb_neq in Hpc.
      unfold walk_inv. cbn [deployments deployment prev].
      rewrite set_finished_names. unfold deployment_names at 1 2 3.
      rewrite fmap_app. fold (deployment_names ds1). rewrite Hds1.
      cbn [fmap list_fmap new_deployment ApplicationDeployment.Name].
      split; [done|]. split; [|split].
      * intros n. rewrite last_snoc. by intros [= <-].
      * apply adjacent_differ_snoc; [done|].
        intros n Hn ->. by apply Hlast in Hn.
      * intros x [Hx|Hx%list_elem_of_singleton]%elem_of_app; [by apply Hnames|].
        by subst x.
  - (* several active replica sets *)
    destruct (String.eqb (prev st) "") eqn:Hprev; [done|].
    destruct (deployment st) as [i|] eqn:Hd; [done|]. clear Hinv.
    set (names' := curr :: n2 :: names) in *.
    assert (Hfind : exists name,
               List.find (fun n => negb (String.eqb n (prev st))) names' = Some name
               /\ name <> prev st /\ name ∈ names').
    { destruct (List.find _ names') as [name|] eqn:Hf.
      - apply List.find_some in Hf as [Hin Hne]. exists name. split; [done|].
        split; [|by apply list_elem_of_In].
        apply negb_true_iff in Hne. by apply String.eqb_neq.
      - exfalso.
        pose proof (List.find_none _ _ Hf curr (or_introl eq_refl)) as H1.
        pose proof (List.find_none _ _ Hf n2 (or_intror (or_introl eq_refl))) as H2.
        cbn in H1, H2. apply negb_false_iff, String.eqb_eq in H1, H2.
        apply NoDup_cons in Hnd as [Hnin _]. apply Hnin.
        rewrite H1, <- H2. left. }
    destruct Hfind as (name & -> & Hne & Hin).
    change (default "" (Some name)) with name.
    unfold walk_inv. cbn [deployments deployment prev].
    unfold deployment_names at 1 2 3.
    rewrite fmap_app. fold (deployment_names (deployments st)).
    cbn [fmap list_fmap new_deployment ApplicationDeployment.Name].
    split; [|split; [|split]].
    + intros i [= <-]. rewrite List.length_app. cbn. lia.
    + intros n. rewrite last_snoc. by intros [= <-].
    + apply adjacent_differ_snoc; [done|].
      intros n Hn ->. by apply Hlast in Hn.
    + intros x [Hx|Hx%list_elem_of_singleton]%elem_of_app; [by apply Hnames|].
      subst x. by apply Hsub.
Qed.

Lemma walk_inv_fold keys id rs : forall st,
  "" ∉ keys -> rss_ok keys rs ->
  walk_inv keys st -> walk_inv keys (foldl (walk_step id) st rs).
Proof.
  induction rs as [|r rs IH]; intros st Hkeys Hrs Hinv; cbn [foldl]; [done|].
  inversion Hrs as [|? ? [Hnd Hsub] Hrs']; subst.
  apply IH; [done..|]. by apply walk_step_inv.
Qed.

(** *** The active sets handed to the loop *)

Lemma insert_sorted_Permutation x l : insert_sorted x l ≡ₚ x :: l.
Proof.
  induction l as [|y l IH]; cbn [insert_sorted]; [done|].
  destruct (String.leb x y); [done|]. rewrite IH. apply Permutation_swap.
Qed.

Lemma sort_strings_Permutation l : sort_strings l ≡ₚ l.
Proof.
  unfold sort_strings. induction l as [|x l IH]; cbn [foldr]; [done|].
  by rewrite insert_sorted_Permutation, IH.
Qed.

Lemma rss_round_names iters : forall t names iters' t' names',
  rss_round iters t names = Some (iters', t', names') ->
  iters'.*1 = iters.*1
  /\ exists extra, names' = names ++ extra /\ extra `sublist_of` iters.*1.
Proof.
  induction iters as [|[name it] rest IH]; intros t names iters' t' names';
    cbn [rss_round].
  { intros [= <- <- <-]. split; [done|]. exists []. by rewrite app_nil_r. }
  destruct (Next it) as [it' ok]. destruct ok; [|done].
  destruct (Value it') as [tv v].
  destruct (rss_round rest tv _) as [[[rest' t''] names'']|] eqn:Hround; [|done].
  intros [= <- <- <-]. destruct (IH _ _ _ _ _ Hround) as (Hkeys & extra & -> & Hsub).
  cbn [fmap list_fmap fst]. split; [by f_equal|].
  destruct (F32.gtb v F32.zero).
  - exists (name :: extra). rewrite <- app_assoc. split; [done|].
    by apply sublist_skip.
  - exists extra. split; [done|]. by apply sublist_cons.
Qed.

Lemma rss_loop_ok keys fuel : forall iters acc,
  NoDup keys -> iters.*1 = keys -> rss_ok keys acc ->
  rss_ok keys (rss_loop fuel iters acc).
Proof.
  induction fuel as [|fuel IH]; intros iters acc Hnd Hkeys Hacc;
    cbn [rss_loop]; [done|].
  destruct (rss_round iters 0 []) as [[[iters' t] names]|] eqn:Hround; [|done].
  destruct (rss_round_names _ _ _ _ _ _ Hround) as (Hk & extra & -> & Hsub).
  cbn [app] in *. rewrite Hkeys in Hk, Hsub.
  destruct (length extra =? 0)%nat; apply IH; try done.
  unfold rss_ok. apply Forall_app. split; [done|].
  constructor; [|done]. cbn [snd]. split.
  - rewrite sort_strings_Permutation. by eapply sublist_NoDup.
  - rewrite sort_strings_Permutation. by apply sublist_subseteq.
Qed.

(** *** The replica sets collected from the pods *)

Lemma assoc_set_keys {V} k (v : V) m :
  (assoc_set k v m).*1 = if decide (k ∈ m.*1) then m.*1 else m.*1 ++ [k].
Proof.
  induction m as [|[k' v'] m IH]; cbn [assoc_set fmap list_fmap fst].
  { rewrite decide_False; [done|]. apply not_elem_of_nil. }
  destruct (String.eqb k k') eqn:Hk.
  - apply String.eqb_eq in Hk. subst k'. cbn [fmap list_fmap fst].
    rewrite decide_True; [done|left].
  - apply String.eqb_neq in Hk. cbn [fmap list_fmap fst].
    change (list_fmap _ _ fst (assoc_set k v m)) with ((assoc_set k v m).*1).
    rewrite IH. change (list_fmap _ _ fst m) with (m.*1).
    destruct (decide (k ∈ m.*1)) as [Hin|Hnin].
    + rewrite decide_True; [done|by right].
    + rewrite decide_False; [done|]. by intros [?|?]%elem_of_cons.
Qed.

Lemma assoc_get_is_Some {V} k (m : list (string * V)) :
  k ∈ m.*1 -> is_Some (assoc_get k m).
Proof.
  induction m as [|[k' v'] m IH]; cbn [assoc_get fmap list_fmap fst].
  { by intros ?%elem_of_nil. }
  destruct (String.eqb k k') eqn:Hk; [by eexists|].
  apply String.eqb_neq in Hk. intros [?|?]%elem_of_cons; [done|]. by apply IH.
Qed.

Lemma collect_step_keys st instance all :
  st.1.*1 = st.2.*1 -> NoDup st.1.*1 -> "" ∉ st.1.*1 ->
  st.1.*1 ⊆ pod_replica_sets all -> instance ∈ all ->
  (collect_step st instance).1.*1 = (collect_step st instance).2.*1
  /\ NoDup (collect_step st instance).1.*1
  /\ ("" ∉ (collect_step st instance).1.*1)
  /\ (collect_step st instance).1.*1 ⊆ pod_replica_sets all.
Proof.
  destruct st as [lifeSpans images]. cbn [fst snd]. intros Heq Hnd Hne Hsub Hin.
  unfold collect_step.
  destruct (Instance.Pod instance) as [pod|] eqn:Hpod; [|done].
  destruct (String.eqb (Pod.ReplicaSet pod) "") eqn:Hrs; [done|].
  apply String.eqb_neq in Hrs. cbn [fst snd].
  rewrite !assoc_set_keys, <- Heq.
  destruct (decide (Pod.ReplicaSet pod ∈ lifeSpans.*1)) as [Hk|Hk]; [done|].
  split; [done|]. split; [|split].
  - apply NoDup_app. split; [done|]. split; [|apply NoDup_singleton].
    intros x Hx Hx'%list_elem_of_singleton. by subst x.
  - intros [?|Hx%list_elem_of_singleton]%elem_of_app; [done|]. by subst.
  - intros x [Hx|Hx%list_elem_of_singleton]%elem_of_app; [by apply Hsub|].
    subst x. unfold pod_replica_sets. apply list_elem_of_omap. exists instance.
    split; [done|]. by rewrite Hpod.
Qed.

Lemma collect_keys all insts : forall st,
  insts ⊆ all ->
  st.1.*1 = st.2.*1 -> NoDup st.1.*1 -> "" ∉ st.1.*1 ->
  st.1.*1 ⊆ pod_replica_sets all ->
  (foldl collect_step st insts).1.*1 = (foldl collect_step st insts).2.*1
  /\ NoDup (foldl collect_step st insts).1.*1
  /\ ("" ∉ (foldl collect_step st insts).1.*1)
  /\ (foldl collect_step st insts).1.*1 ⊆ pod_replica_sets all.
Proof.
  induction insts as [|i insts IH]; intros st Hall Heq Hnd Hne Hsub;
    cbn [foldl]; [done|].
  destruct (collect_step_keys st i all Heq Hnd Hne Hsub) as (H1 & H2 & H3 & H4).
  { apply Hall. left. }
  apply IH; try done. intros x Hx. apply Hall. by right.
Qed.

(** *** What every deployment of the walk carries *)

Lemma walk_step_Forall (P : ApplicationDeployment.t -> Prop) id st r :
  (forall name t, P (new_deployment id name t)) ->
  (forall d t, P d -> P (ApplicationDeployment.set_FinishedAt d t)) ->
  Forall P (deployments st) -> Forall P (deployments (walk_step id st r)).
Proof.
  intros Hnew Hfin H.
  assert (Hset : forall ds i t, Forall P ds -> Forall P (set_finished ds i t)).
  { intros ds i t Hds. unfold set_finished.
    destruct (ds !! i) as [d|] eqn:Hd; [|done].
    apply Forall_insert; [done|]. apply Hfin.
    by eapply (Forall_lookup_1 _ _ _ _ Hds Hd). }
  destruct r as [time names]. unfold walk_step.
  destruct names as [|curr [|n2 names]]; [done| |].
  - destruct (String.eqb (prev st) ""); [done|].
    destruct (deployment st) as [i|].
    + destruct (String.eqb curr _);
        (destruct (String.eqb (prev st) curr); cbn [deployments];
         [|apply Hset, Forall_app; split; [|by repeat constructor]]);
        try done; by apply Hset.
    + destruct (String.eqb (prev st) curr); cbn [deployments]; [done|].
      apply Hset, Forall_app. split; [done|by repeat constructor].
  - destruct (String.eqb (prev st) ""); [done|].
    destruct (deployment st); [done|]. cbn [deployments].
    apply Forall_app. split; [done|by repeat constructor].
Qed.

Lemma walk_Forall (P : ApplicationDeployment.t -> Prop) id rs : forall st,
  (forall name t, P (new_deployment id name t)) ->
  (forall d t, P d -> P (ApplicationDeployment.set_FinishedAt d t)) ->
  Forall P (deployments st) ->
  Forall P (deployments (foldl (walk_step id) st rs)).
Proof.
  induction rs as [|r rs IH]; intros st Hnew Hfin H; cbn [foldl]; [done|].
  apply IH; [done..|]. by apply walk_step_Forall.
Qed.

(** X16.  Among the deployments that [calcDeployments] returns, no two
    consecutive ones have the same name.  Every one is named after a replica
    set that owns a pod of the application, never by the empty name, carries
    its container images in [Details], and has neither metrics snapshot nor
    notification state yet. *)
Theorem calcDeployments_names (app : Application.t) :
  adjacent_differ (deployment_names (calcDeployments app))
  /\ Forall (fun d =>
       ApplicationDeployment.Name d <> ""
       /\ ApplicationDeployment.Name d ∈ replica_sets app
       /\ is_Some (ApplicationDeployment.Details d)
       /\ ApplicationDeployment.MetricsSnapshot_ d = None
       /\ ApplicationDeployment.Notifications d = None)
     (calcDeployments app).
Proof.
  unfold calcDeployments. destruct (_ || _).
  { split; [by intros i a b ?|done]. }
  unfold calcDeployments_walk.
  destruct (collect_keys (Application.Instances app) (Application.Instances app)
              ([], [])) as (Hk1 & Hk2 & Hk3 & Hk4);
    [done|done|apply NoDup_nil_2|apply not_elem_of_nil|by intros x ?%elem_of_nil|].
  destruct (foldl collect_step _ _) as [lifeSpans images]. cbn [fst snd] in *.
  destruct (_ =? _)%nat.
  { split; [by intros i a b ?|done]. }
  set (iters := List.map _ lifeSpans).
  assert (Hiters : iters.*1 = lifeSpans.*1).
  { unfold iters. clear. induction lifeSpans as [|[k v] l IH]; [done|].
    cbn. f_equal. exact IH. }
  pose proof (rss_loop_ok (lifeSpans.*1) (rss_fuel iters) iters [] Hk2 Hiters
                ltac:(constructor)) as Hrss.
  pose proof (walk_inv_fold (lifeSpans.*1) (Application.Id app) _
                (mkWalk [] None "") Hk3 Hrss) as (_ & _ & Hadj & Hnames).
  { unfold walk_inv. cbn. split; [done|]. split; [done|].
    split; [by intros i a b ?|]. by intros x ?%elem_of_nil. }
  set (ds := deployments _) in *.
  set (detail := fun d : ApplicationDeployment.t => _).
  assert (Hsame : deployment_names (List.map detail ds) = deployment_names ds).
  { unfold deployment_names. rewrite <- list_fmap_compose.
    apply list_fmap_ext. intros i d _. unfold detail. cbn.
    by destruct (assoc_get _ _). }
  split; [by rewrite Hsame|].
  assert (Hfresh : Forall (fun d =>
                     ApplicationDeployment.MetricsSnapshot_ d = None
                     /\ ApplicationDeployment.Notifications d = None) ds).
  { unfold ds. by apply walk_Forall. }
  apply Forall_fmap, Forall_forall. intros d Hd.
  assert (Hname : ApplicationDeployment.Name d ∈ lifeSpans.*1).
  { apply Hnames. unfold deployment_names. by apply list_elem_of_fmap_2. }
  apply (proj1 (Forall_forall _ _) Hfresh) in Hd as Hfresh'.
  unfold detail. cbn.
  destruct (assoc_get_is_Some (ApplicationDeployment.Name d) images) as [set Hset].
  { by rewrite <- Hk1. }
  rewrite Hset. cbn.
  split; [by intros E; rewrite E in Hname|]. split; [by apply Hk4|].
  split; [by eexists|]. exact Hfresh'.
Qed.

Section SaveFacts.

Variable SaveApplicationDeployment : ApplicationDeployment.t -> bool.

Lemma find_key_None d (l : list ApplicationDeployment.t) :
  List.find (fun dd =>
     String.eqb (ApplicationDeployment.Name dd) (ApplicationDeployment.Name d)
     && (ApplicationDeployment.StartedAt dd =? ApplicationDeployment.StartedAt d)) l
  = None ->
  deployment_key d ∉ deployment_key <$> l.
Proof.
  intros Hf (dd & Hk & Hin)%list_elem_of_fmap.
  apply list_elem_of_In in Hin.
  pose proof (List.find_none _ _ Hf dd Hin) as Hno. cbn in Hno.
  unfold deployment_key in Hk. inversion Hk as [[Hn Hs]].
  by rewrite Hn, Hs, String.eqb_refl, Z.eqb_refl in Hno.
Qed.

Lemma save_loop_spec ds : forall app log,
  let r := save_loop SaveApplicationDeployment app ds log in
  exists events,
    r.2 = log ++ events
    /\ match r.1 with
       | Some app' =>
           saves_accepted SaveApplicationDeployment events
           /\ Application.Id app' = Application.Id app
           /\ Application.Category app' = Application.Category app
           /\ Application.Instances app' = Application.Instances app
           /\ exists new,
                Application.Deployments app' = Application.Deployments app ++ new
                /\ new `sublist_of` ds
                /\ Forall (fun d => EvSaveDeployment d ∈ events) new
                /\ (NoDup (deployment_key <$> Application.Deployments app) ->
                    NoDup (deployment_key <$> Application.Deployments app'))
       | None =>
           exists d accepted,
             events = accepted ++ [EvSaveDeployment d]
             /\ d ∈ ds /\ SaveApplicationDeployment d = false
             /\ saves_accepted SaveApplicationDeployment accepted
       end.
Proof.
  induction ds as [|d ds IH]; intros app log; cbn [save_loop].
  { exists []. cbn [fst snd]. rewrite app_nil_r. split; [done|].
    split; [constructor|]. split; [done|]. split; [done|]. split; [done|].
    exists []. rewrite app_nil_r. split; [done|]. split; [done|]. by split. }
  set (known := List.find _ (Application.Deployments app)).
  assert (Hknown : known = None ->
            deployment_key d ∉ deployment_key <$> Application.Deployments app)
    by apply find_key_None.
  destruct known as [k|].
  - (* a recorded deployment has the key *)
    destruct (negb (ApplicationDeployment.FinishedAt k
                    =? ApplicationDeployment.FinishedAt d)).
    + destruct (SaveApplicationDeployment d) eqn:Hsave; cbn [negb].
      * specialize (IH app (log ++ [EvSaveDeployment d])). cbv zeta in IH.
        destruct IH as (events & Hlog & IH).
        exists (EvSaveDeployment d :: events).
        split; [by rewrite Hlog, <- app_assoc|].
        destruct (save_loop _ app ds _).1 as [app'|].
        -- destruct IH as (Hacc & H1 & H2 & H3 & new & H4 & H5 & H6 & H7).
           split; [constructor; [by exists d|done]|].
           split; [done|]. split; [done|]. split; [done|].
           exists new. split; [done|]. split; [by apply sublist_cons|].
           split; [|done]. eapply Forall_impl; [exact H6|].
           intros x Hx. by right.
        -- destruct IH as (d' & accepted & -> & Hin & Hfail & Hacc).
           exists d', (EvSaveDeployment d :: accepted). split; [done|].
           split; [by right|]. split; [done|]. constructor; [by exists d|done].
      * exists [EvSaveDeployment d]. cbn [fst snd]. split; [done|].
        exists d, []. split; [done|]. split; [left|]. split; [done|constructor].
    + cbn [negb]. specialize (IH app log). cbv zeta in IH.
      destruct IH as (events & Hlog & IH). exists events. split; [done|].
      destruct (save_loop _ app ds _).1 as [app'|].
      * destruct IH as (Hacc & H1 & H2 & H3 & new & H4 & H5 & H6 & H7).
        split; [done|]. split; [done|]. split; [done|]. split; [done|].
        exists new. split; [done|]. split; [by apply sublist_cons|]. by split.
      * destruct IH as (d' & accepted & -> & Hin & Hfail & Hacc).
        exists d', accepted. split; [done|]. split; [by right|]. by split.
  - (* a new deployment *)
    specialize (Hknown eq_refl).
    destruct (SaveApplicationDeployment d) eqn:Hsave; cbn [negb].
    + specialize (IH (Application.set_Deployments app
                        (Application.Deployments app ++ [d]))
                     (log ++ [EvSaveDeployment d])).
      cbv zeta in IH. destruct IH as (events & Hlog & IH).
      exists (EvSaveDeployment d :: events).
      split; [by rewrite Hlog, <- app_assoc|].
      destruct (save_loop _ _ ds _).1 as [app'|].
      * destruct IH as (Hacc & H1 & H2 & H3 & new & H4 & H5 & H6 & H7).
        cbn [Application.set_Deployments Application.Id Application.Category
             Application.Instances Application.Deployments] in *.
        split; [constructor; [by exists d|done]|].
        split; [done|]. split; [done|]. split; [done|].
        exists (d :: new). split; [by rewrite H4, <- app_assoc|].
        split; [by apply sublist_skip|]. split.
        -- constructor; [left|]. eapply Forall_impl; [exact H6|].
           intros x Hx. by right.
        -- intros Hnd. apply H7. rewrite fmap_app. apply NoDup_app.
           split; [done|]. split; [|apply NoDup_singleton].
           intros x Hx Hx'%list_elem_of_singleton. by subst x.
      * destruct IH as (d' & accepted & -> & Hin & Hfail & Hacc).
        exists d', (EvSaveDeployment d :: accepted). split; [done|].
        split; [by right|]. split; [done|]. constructor; [by exists d|done].
    + exists [EvSaveDeployment d]. cbn [fst snd]. split; [done|].
      exists d, []. split; [done|]. split; [left|]. split; [done|constructor].
Qed.

End SaveFacts.

(** X17.  Saving the detected deployments of an application, when it runs
    to its end, changes the application only by appending deployments to
    its list, each a detected one that the store has accepted in this pass;
    every save of the pass was accepted; and if no two recorded deployments
    shared their name and start before, none do after.  When it is
    abandoned, the last call to the store is a save that failed, and every
    save before it was accepted. *)
Theorem save_loop_append_only
  (SaveApplicationDeployment : ApplicationDeployment.t -> bool)
  (app : Application.t) (ds : list ApplicationDeployment.t) :
  (forall app' log,
     save_loop SaveApplicationDeployment app ds [] = (Some app', log) ->
     saves_accepted SaveApplicationDeployment log
     /\ Application.Id app' = Application.Id app
     /\ Application.Instances app' = Application.Instances app
     /\ exists new,
          Application.Deployments app' = Application.Deployments app ++ new
          /\ new `sublist_of` ds
          /\ Forall (fun d => EvSaveDeployment d ∈ log) new
          /\ (NoDup (deployment_key <$> Application.Deployments app) ->
              NoDup (deployment_key <$> Application.Deployments app')))
  /\ (forall log,
        save_loop SaveApplicationDeployment app ds [] = (None, log) ->
        exists d accepted,
          log = accepted ++ [EvSaveDeployment d]
          /\ d ∈ ds /\ SaveApplicationDeployment d = false
          /\ saves_accepted SaveApplicationDeployment accepted).
Proof.
  pose proof (save_loop_spec SaveApplicationDeployment ds app []) as H.
  cbv zeta in H. destruct H as (events & Hlog & H).
  change ([] ++ events) with events in Hlog.
  destruct (save_loop SaveApplicationDeployment app ds []) as [r log0].
  cbn [fst snd] in *. subst log0. split.
  - intros app' log [= -> <-].
    destruct H as (Hacc & H1 & _ & H3 & new & H4 & H5 & H6 & H7).
    split; [done|]. split; [done|]. split; [done|]. by exists new.
  - intros log [= -> <-]. exact H.
Qed.

Section DiscoverFacts.

Variable SaveApplicationDeployment : ApplicationDeployment.t -> bool.
Variable ApplicationDeploymentStateSummary : ApplicationDeploymentState.

Lemma discover_app_spec cacheTo app :
  match discover_app SaveApplicationDeployment ApplicationDeploymentStateSummary
          cacheTo app with
  | (Some app', _) => app_grows app app'
  | (None, log) =>
      exists d, last log = Some (EvSaveDeployment d)
                /\ SaveApplicationDeployment d = false
                /\ d ∈ calcDeployments app
  end.
Proof.
  unfold discover_app.
  destruct (negb _); [by repeat split|].
  destruct (_ && _); [by repeat split|].
  pose proof (save_loop_spec SaveApplicationDeployment (calcDeployments app) app [])
    as H.
  cbv zeta in H. destruct H as (events & Hlog & H).
  change ([] ++ events) with events in Hlog.
  destruct (save_loop _ app _ []) as [[app'|] log]; cbn [fst snd] in *; subst log.
  - destruct H as (_ & H1 & _ & H3 & new & H4 & _).
    split; [done|]. split; [done|]. rewrite H4. by apply prefix_app_r.
  - destruct H as (d & accepted & -> & Hin & Hfail & _).
    exists d. by rewrite last_snoc.
Qed.

End DiscoverFacts.

(** X18.  A discovery pass that runs to its end keeps the applications of
    the world in their order, each with its identity and instances, and at
    most appends deployments to them.  A pass that is abandoned ends with a
    save that the store refused, of a deployment detected for one of the
    applications. *)
Theorem discover_pass_append_only
  (SaveApplicationDeployment : ApplicationDeployment.t -> bool)
  (ApplicationDeploymentStateSummary : ApplicationDeploymentState)
  (cacheTo : Time) (apps : list Application.t) :
  (forall apps' log,
     discover_loop SaveApplicationDeployment ApplicationDeploymentStateSummary
       cacheTo apps = (Some apps', log) ->
     Forall2 app_grows apps apps')
  /\ (forall log,
        discover_loop SaveApplicationDeployment ApplicationDeploymentStateSummary
          cacheTo apps = (None, log) ->
        exists d app,
          last log = Some (EvSaveDeployment d)
          /\ SaveApplicationDeployment d = false
          /\ app ∈ apps /\ d ∈ calcDeployments app).
Proof.
  induction apps as [|app apps [IH1 IH2]]; cbn [discover_loop].
  { split; [by intros apps' log [= <- <-]; constructor|done]. }
  pose proof (discover_app_spec SaveApplicationDeployment
                ApplicationDeploymentStateSummary cacheTo app) as Happ.
  destruct (discover_app _ _ cacheTo app) as [[app'|] log0].
  - destruct (discover_loop _ _ cacheTo apps) as [[rest|] log1];
      cbn [fmap option_fmap option_map].
    + split; [|done]. intros apps' log [= <- <-].
      constructor; [done|]. by eapply IH1.
    + split; [done|]. intros log [= <-].
      destruct (IH2 log1 eq_refl) as (d & a & Hlast & Hfail & Ha & Hd).
      exists d, a. split; [|split; [done|split; [by right|done]]].
      destruct log1 as [|ev log1] using rev_ind; [done|].
      rewrite app_assoc, last_snoc. by rewrite last_snoc in Hlast.
  - split; [done|]. intros log [= <-].
    destruct Happ as (d & Hlast & Hfail & Hd).
    exists d, app. split; [done|]. split; [done|]. split; [left|done].
Qed.

Lemma StringSet_Add_spec ss s :
  (NoDup ss -> NoDup (StringSet.Add ss s))
  /\ forall x, x ∈ StringSet.Add ss s <-> x ∈ ss \/ x = s.
Proof.
  unfold StringSet.Add. destruct (existsb (String.eqb s) ss) eqn:Hex.
  - apply List.existsb_exists in Hex as (y & Hin & Hy).
    apply String.eqb_eq in Hy. subst y. apply list_elem_of_In in Hin.
    split; [done|]. intros x. split; [by left|]. by intros [?| ->].
  - assert (Hnin : s ∉ ss).
    { intros Hin%list_elem_of_In.
      assert (existsb (String.eqb s) ss = true); [|congruence].
      apply List.existsb_exists. exists s. split; [done|apply String.eqb_refl]. }
    split.
    + intros Hnd. apply NoDup_app. split; [done|].
      split; [|apply NoDup_singleton].
      intros x Hx Hx'%list_elem_of_singleton. by subst x.
    + intros x. rewrite elem_of_app, list_elem_of_singleton. done.
Qed.

(** The inner loop of [calcInitialDeployment] over the containers of one
    instance. *)
Lemma initial_images_containers cs : forall images,
  let images' :=
    foldl (fun s (c : string * Container.t) =>
             if negb (String.eqb (Container.Image c.2) "")
             then StringSet.Add s (Container.Image c.2) else s) images cs in
  (NoDup images -> NoDup images')
  /\ forall x, x ∈ images'
       <-> x ∈ images
           \/ x ∈ List.filter (fun img => negb (String.eqb img ""))
                    ((fun c => Container.Image c.2) <$> cs).
Proof.
  induction cs as [|c cs IH]; intros images; cbn [foldl].
  { split; [done|]. intros x. split; [by left|]. by intros [?|?%elem_of_nil]. }
  cbv zeta in IH. cbn [fmap list_fmap List.filter].
  destruct (negb (String.eqb (Container.Image c.2) "")) eqn:Hc.
  - destruct (IH (StringSet.Add images (Container.Image c.2))) as [IH1 IH2].
    destruct (StringSet_Add_spec images (Container.Image c.2)) as [A1 A2].
    split; [by intros ?; apply IH1, A1|].
    intros x. rewrite IH2, A2, elem_of_cons. tauto.
  - apply IH.
Qed.

Lemma initial_fold insts : forall name images,
  let r :=
    foldl (fun '(name, images) i =>
             let name :=
               match Instance.Pod i with
               | Some pod =>
                   if negb (String.eqb (Pod.ReplicaSet pod) "")
                   then Pod.ReplicaSet pod else name
               | None => name
               end in
             let images :=
               foldl (fun s (c : string * Container.t) =>
                        if negb (String.eqb (Container.Image c.2) "")
                        then StringSet.Add s (Container.Image c.2) else s)
                     images (Instance.Containers i) in
             (name, images))
          (name, images) insts in
  r.1 = default name (last (owning_replica_sets insts))
  /\ (NoDup images -> NoDup r.2)
  /\ forall x, x ∈ r.2 <-> x ∈ images \/ x ∈ container_images insts.
Proof.
  induction insts as [|i insts IH]; intros name images; cbn [foldl].
  { split; [done|]. split; [done|]. intros x. split; [by left|].
    by intros [?|?%elem_of_nil]. }
  cbv zeta in IH.
  match goal with
  | |- context [foldl _ (?n, ?im) insts] =>
      destruct (IH n im) as (IH1 & IH2 & IH3)
  end.
  destruct (initial_images_containers (Instance.Containers i) images) as [C1 C2].
  cbv zeta in C1, C2.
  split; [|split].
  - rewrite IH1. unfold owning_replica_sets. cbn [omap list_omap].
    destruct (Instance.Pod i) as [pod|]; cbn [fmap option_fmap option_map]; [|done].
    cbn [List.filter].
    destruct (negb (String.eqb (Pod.ReplicaSet pod) "")); [|done].
    rewrite last_cons. by destruct (last _).
  - intros Hnd. by apply IH2, C1.
  - intros x. rewrite IH3, C2. unfold container_images. cbn [mbind list_bind].
    rewrite List.filter_app, elem_of_app. tauto.
Qed.

(** X19.  The initial deployment of an application starts and finishes at
    the given time, has no metrics snapshot, and is born in the summary
    notification state with no channel notified.  Its name is the replica
    set of the last pod that has one, the empty name when none has.  Its
    details list every non-empty container image of the application once,
    and are absent when there is no such image. *)
Theorem calcInitialDeployment_shape
  (ApplicationDeploymentStateSummary : ApplicationDeploymentState)
  (app : Application.t) (now : Time) :
  let d := calcInitialDeployment ApplicationDeploymentStateSummary app now in
  ApplicationDeployment.ApplicationId_ d = Application.Id app
  /\ ApplicationDeployment.StartedAt d = now
  /\ ApplicationDeployment.FinishedAt d = now
  /\ ApplicationDeployment.MetricsSnapshot_ d = None
  /\ ApplicationDeployment.Notifications d
     = Some (ApplicationDeploymentNotifications.mk
               ApplicationDeploymentStateSummary 0 0)
  /\ ApplicationDeployment.Name d
     = default "" (last (owning_replica_sets (Application.Instances app)))
  /\ match ApplicationDeployment.Details d with
     | Some images =>
         images <> [] /\ NoDup images
         /\ forall x, x ∈ images
              <-> x ∈ container_images (Application.Instances app)
     | None => container_images (Application.Instances app) = []
     end.
Proof.
  unfold calcInitialDeployment.
  destruct (initial_fold (Application.Instances app) "" StringSet.empty)
    as (H1 & H2 & H3).
  cbv zeta in H1, H2, H3.
  destruct (foldl _ _ (Application.Instances app)) as [name images].
  cbn [fst snd] in *. cbv zeta.
  cbn [ApplicationDeployment.ApplicationId_ ApplicationDeployment.StartedAt
       ApplicationDeployment.FinishedAt ApplicationDeployment.MetricsSnapshot_
       ApplicationDeployment.Notifications ApplicationDeployment.Name
       ApplicationDeployment.Details].
  do 5 (split; [done|]). split; [done|].
  specialize (H2 (NoDup_nil_2)).
  assert (H3' : forall x, x ∈ images
                  <-> x ∈ container_images (Application.Instances app)).
  { intros x. rewrite H3. split; [by intros [?%elem_of_nil|?]|by right]. }
  unfold StringSet.Len, StringSet.Items.
  destruct images as [|img images]; cbn [length Nat.ltb Nat.leb].
  - destruct (container_images _) as [|y l]; [done|].
    exfalso. apply (elem_of_nil y), H3'. left.
  - split; [|split].
    + intros Hnil. pose proof (sort_strings_Permutation (img :: images)) as Hp.
      rewrite Hnil in Hp. by apply Permutation_nil_cons in Hp.
    + by rewrite sort_strings_Permutation.
    + intros x. by rewrite sort_strings_Permutation.
Qed.

Lemma calcInitialDeployment_notifications Summary app now :
  ApplicationDeployment.Notifications (calcInitialDeployment Summary app now)
  = Some (ApplicationDeploymentNotifications.mk Summary 0 0).
Proof. unfold calcInitialDeployment. by destruct (foldl _ _ _). Qed.

(** X20.  An initial deployment is never notified: for every status whose
    state is not beyond the summary state, the notification step sends
    nothing, writes nothing and leaves the deployments as they are. *)
Theorem initial_deployment_never_notified
  (SendDeployment :
     Channel -> ApplicationDeployment.t -> ApplicationDeploymentState -> bool)
  (integrations : Integrations)
  (ApplicationDeploymentStateSummary : ApplicationDeploymentState)
  (app : Application.t) (cacheTo now : Time)
  (ds : list ApplicationDeployment.t) (i : nat)
  (state : ApplicationDeploymentState) :
  ds !! i = Some (calcInitialDeployment ApplicationDeploymentStateSummary app cacheTo) ->
  state <= ApplicationDeploymentStateSummary ->
  notify_step SendDeployment integrations now ds (i, state) = (ds, []).
Proof.
  intros Hi Hstate. unfold notify_step. rewrite Hi.
  destruct (TimeOps.Day <? TimeOps.Sub now _); [done|].
  rewrite calcInitialDeployment_notifications. cbv [default from_option id].
  cbn [ApplicationDeploymentNotifications.State].
  destruct (Z.leb_spec state ApplicationDeploymentStateSummary); [|lia].
  f_equal. apply list_insert_id. rewrite Hi. f_equal.
  rewrite <- (calcInitialDeployment_notifications
                ApplicationDeploymentStateSummary app cacheTo).
  by destruct (calcInitialDeployment _ _ _).
Qed.

Lemma initial_deployment_never_notified_witness :
  notify_step (fun _ _ _ => true) slack_only 1000
    [calcInitialDeployment 5 bare_deployment_app 1000] (0%nat, 5)
  = ([calcInitialDeployment 5 bare_deployment_app 1000], []).
Proof.
  apply (initial_deployment_never_notified (fun _ _ _ => true) slack_only 5
           bare_deployment_app 1000 1000
           [calcInitialDeployment 5 bare_deployment_app 1000] 0 5).
  - reflexivity.
  - lia.
Defined.

Section NotifyOnce.

Variable SendDeployment :
  Channel -> ApplicationDeployment.t -> ApplicationDeploymentState -> bool.
Variable integrations : Integrations.
Variable now : Time.

#[local] Opaque wrap64.

(** One status of a deployment: what the step records and what it sends. *)
Lemma notify_step_channels ds i state d0 :
  ds !! i = Some d0 ->
  exists n log,
    notify_step SendDeployment integrations now ds (i, state)
    = (if TimeOps.Day <? TimeOps.Sub now (ApplicationDeployment.StartedAt d0)
       then ds
       else <[i := ApplicationDeployment.set_Notifications d0 (Some n)]> ds,
       log)
    /\ ApplicationDeploymentNotifications.State n
       = ApplicationDeploymentNotifications.State (notifications_of d0)
    /\ (forall c,
          channel_state c n = channel_state c (notifications_of d0)
          \/ channel_state c n = state
             /\ exists d, EvSend c d state true ∈ log)
    /\ (forall c d st ok, EvSend c d st ok ∈ log ->
          st = state
          /\ TimeOps.Sub now (ApplicationDeployment.StartedAt d0) <= TimeOps.Day
          /\ ApplicationDeploymentNotifications.State (notifications_of d0) < state
          /\ channel_state c (notifications_of d0) < state
          /\ channel_enabled integrations c = true
          /\ (ok = true -> channel_state c n = state))
    /\ (forall d, EvSaveNotifications d ∈ log ->
          d = ApplicationDeployment.set_Notifications d0 (Some n)
          /\ exists c d', EvSend c d' state true ∈ log)
    /\ (forall c d, EvSend c d state true ∈ log ->
          exists d', EvSaveNotifications d' ∈ log).
Proof.
  intros Hd0. unfold notify_step. rewrite Hd0.
  fold (notifications_of d0). set (n0 := notifications_of d0).
  destruct (Z.ltb_spec TimeOps.Day
              (TimeOps.Sub now (ApplicationDeployment.StartedAt d0))) as [Hold|Hfresh].
  { exists n0, []. split; [done|]. split; [done|].
    split; [by left|]. split; [by intros c d st ok ?%elem_of_nil|].
    split; [by intros d ?%elem_of_nil|by intros c d ?%elem_of_nil]. }
  destruct (Z.leb_spec state (ApplicationDeploymentNotifications.State n0))
    as [Hle|Hlt].
  { exists n0, []. split; [done|]. split; [done|].
    split; [by left|]. split; [by intros c d st ok ?%elem_of_nil|].
    split; [by intros d ?%elem_of_nil|by intros c d ?%elem_of_nil]. }
  assert (Hset : forall a b,
            ApplicationDeployment.set_Notifications
              (ApplicationDeployment.set_Notifications d0 a) b
            = ApplicationDeployment.set_Notifications d0 b)
    by (intros; by destruct d0).
  unfold channel_enabled.
  destruct n0 as [st0 sl0 tm0] eqn:Hn0.
  cbn [ApplicationDeploymentNotifications.State
       ApplicationDeploymentNotifications.Slack
       ApplicationDeploymentNotifications.Teams] in *.
  destruct (Slack integrations) as [[sd]|], (Teams integrations) as [[td]|];
    cbn [slack_Deployments teams_Deployments];
    try destruct sd; try destruct td; cbn [andb];
    repeat match goal with
    | |- context [?a <? ?b] =>
        lazymatch a with
        | TimeOps.Day => fail
        | _ => destruct (Z.ltb_spec a b)
        end
    | |- context [SendDeployment ?c ?d ?s] =>
        let E := fresh "Esend" in destruct (SendDeployment c d s) eqn:E
    end;
    cbn [negb app ApplicationDeploymentNotifications.State
         ApplicationDeploymentNotifications.Slack
         ApplicationDeploymentNotifications.Teams] in *;
    rewrite ?Hset;
    (eexists _, _; split; [reflexivity|]);
    cbn [ApplicationDeploymentNotifications.State];
    (split; [reflexivity|]);
    (split; [intros [|]; cbn [channel_state ApplicationDeploymentNotifications.Slack
                              ApplicationDeploymentNotifications.Teams];
             first [by left | right; split; [done|]; eexists; in_log]|]);
    (split; [intros c d st ok Hin; in_log_inv Hin;
             cbn [channel_state ApplicationDeploymentNotifications.Slack
                  ApplicationDeploymentNotifications.Teams];
             repeat split; (done || lia || congruence)|]);
    (split; [intros d Hin; in_log_inv Hin; rewrite ?Hset;
             (split; [done|]; eexists _, _; in_log)|]);
    intros c d Hin; in_log_inv Hin; eexists; in_log.
Qed.

End NotifyOnce.

(** X21.  One notification step for a deployment never changes the
    [State] of its notification record and never lowers the state recorded
    for a channel.  A notification is sent only on an enabled channel, and
    only for a state above both the record's [State] and the state recorded
    for that channel; the record is written to the store exactly when some
    send succeeded; and after a successful send the same status is not sent
    on that channel again by a second step. *)
Theorem notify_step_no_repeat
  (SendDeployment :
     Channel -> ApplicationDeployment.t -> ApplicationDeploymentState -> bool)
  (integrations : Integrations) (now : Time)
  (ds : list ApplicationDeployment.t) (i : nat)
  (state : ApplicationDeploymentState) (d0 : ApplicationDeployment.t) :
  ds !! i = Some d0 ->
  let r1 := notify_step SendDeployment integrations now ds (i, state) in
  let r2 := notify_step SendDeployment integrations now r1.1 (i, state) in
  (exists d1,
     r1.1 !! i = Some d1
     /\ ApplicationDeploymentNotifications.State (notifications_of d1)
        = ApplicationDeploymentNotifications.State (notifications_of d0)
     /\ forall c, channel_state c (notifications_of d0)
                  <= channel_state c (notifications_of d1))
  /\ (forall c d st ok, EvSend c d st ok ∈ r1.2 ->
        st = state
        /\ ApplicationDeploymentNotifications.State (notifications_of d0) < state
        /\ channel_state c (notifications_of d0) < state
        /\ channel_enabled integrations c = true)
  /\ ((exists d, EvSaveNotifications d ∈ r1.2)
      <-> exists c d, EvSend c d state true ∈ r1.2)
  /\ (forall c d, EvSend c d state true ∈ r1.2 ->
        forall d' st ok, EvSend c d' st ok ∉ r2.2).
Proof.
  intros Hd0 r1 r2.
  destruct (notify_step_channels SendDeployment integrations now ds i state d0 Hd0)
    as (n & log & Hr1 & Hstate & Hchan & Hsend & Hsave & Hsaved).
  assert (Hlog : r1.2 = log) by (unfold r1; by rewrite Hr1).
  set (d1 := if TimeOps.Day <? TimeOps.Sub now (ApplicationDeployment.StartedAt d0)
             then d0 else ApplicationDeployment.set_Notifications d0 (Some n)).
  assert (Hd1 : r1.1 !! i = Some d1).
  { unfold r1, d1. rewrite Hr1. cbn [fst].
    destruct (_ <? _); [done|].
    apply list_lookup_insert_eq. by eapply lookup_lt_Some. }
  assert (Hmono : forall c, channel_state c (notifications_of d0)
                            <= channel_state c (notifications_of d1)).
  { intros c. unfold d1. destruct (_ <? _); [lia|].
    replace (notifications_of (ApplicationDeployment.set_Notifications d0 (Some n)))
      with n by (by destruct d0).
    destruct (Hchan c) as [->|[-> [d Hin]]]; [lia|].
    destruct (Hsend _ _ _ _ Hin) as (_ & _ & _ & Hlt & _). lia. }
  rewrite Hlog. split; [|split; [|split]].
  - exists d1. split; [done|]. split; [|done].
    unfold d1. destruct (_ <? _); [done|].
    replace (notifications_of (ApplicationDeployment.set_Notifications d0 (Some n)))
      with n by (by destruct d0). done.
  - intros c d st ok Hin.
    destruct (Hsend _ _ _ _ Hin) as (H1 & _ & H2 & H3 & H4 & _). done.
  - split.
    + intros [d Hin]. by destruct (Hsave d Hin) as [_ ?].
    + intros (c & d & Hin). by eapply Hsaved.
  - intros c d Hin d' st ok Hin2.
    destruct (Hsend _ _ _ _ Hin) as (_ & Hfresh & _ & _ & _ & Hn).
    specialize (Hn eq_refl).
    destruct (notify_step_channels SendDeployment integrations now r1.1 i state
                d1 Hd1) as (n2 & log2 & Hr2 & _ & _ & Hsend2 & _).
    assert (Hlog2 : r2.2 = log2) by (unfold r2; by rewrite Hr2).
    rewrite Hlog2 in Hin2.
    destruct (Hsend2 _ _ _ _ Hin2) as (_ & _ & _ & Hlt & _).
    revert Hlt. unfold d1.
    destruct (Z.ltb_spec TimeOps.Day
                (TimeOps.Sub now (ApplicationDeployment.StartedAt d0))); [lia|].
    replace (notifications_of (ApplicationDeployment.set_Notifications d0 (Some n)))
      with n by (by destruct d0).
    lia.
Qed.

(** A step that notifies the second deployment on Slack: a second step
    sends nothing. *)
Lemma notify_step_no_repeat_witness :
  (notify_step (fun _ _ _ => true) slack_only 2000
     (Application.Deployments two_deployments_app) (1%nat, 1)).2 <> []
  /\ forall c d,
       EvSend c d 1 true
         ∈ (notify_step (fun _ _ _ => true) slack_only 2000
              (Application.Deployments two_deployments_app) (1%nat, 1)).2 ->
       forall d' st ok,
         EvSend c d' st ok
           ∉ (notify_step (fun _ _ _ => true) slack_only 2000
                (notify_step (fun _ _ _ => true) slack_only 2000
                   (Application.Deployments two_deployments_app) (1%nat, 1)).1
                (1%nat, 1)).2.
Proof.
  split; [by vm_compute|].
  apply (notify_step_no_repeat (fun _ _ _ => true) slack_only 2000
           (Application.Deployments two_deployments_app) 1 1
           (instant_deployment "rs-b" 1200)).
  reflexivity.
Defined.

(** * api/api.go *)

Lemma maxDuration_spec d1 d2 : maxDuration d1 d2 = Z.max d1 d2.
Proof. unfold maxDuration. destruct (Z.geb_spec d1 d2); lia. Qed.

(** X22.  [increaseStepForBigDurations] never lowers the step and leaves it
    alone for durations up to four hours; it is monotone in the duration and
    in the step; applying it twice is applying it once; and for a duration
    between four hours and five days the window has at most 480 steps of
    the resulting size. *)
Theorem increaseStepForBigDurations_bounds :
  (forall duration step, step <= increaseStepForBigDurations duration step)
  /\ (forall duration step,
        duration <= 4 * TimeOps.Hour ->
        increaseStepForBigDurations duration step = step)
  /\ (forall d1 d2 s1 s2, d1 <= d2 -> s1 <= s2 ->
        increaseStepForBigDurations d1 s1 <= increaseStepForBigDurations d2 s2)
  /\ (forall duration step,
        increaseStepForBigDurations duration
          (increaseStepForBigDurations duration step)
        = increaseStepForBigDurations duration step)
  /\ (forall duration step,
        4 * TimeOps.Hour < duration <= 5 * TimeOps.Day ->
        duration <= 480 * increaseStepForBigDurations duration step).
Proof.
  unfold increaseStepForBigDurations, TimeOps.Day, TimeOps.Hour, TimeOps.Minute,
    TimeOps.Second.
  split; [|split; [|split; [|split]]].
  - intros duration step. rewrite !maxDuration_spec.
    repeat match goal with |- context [?a >? ?b] => destruct (Z.gtb_spec a b) end;
      lia.
  - intros duration step H.
    repeat match goal with |- context [?a >? ?b] => destruct (Z.gtb_spec a b) end;
      lia.
  - intros d1 d2 s1 s2 Hd Hs. rewrite !maxDuration_spec.
    repeat match goal with |- context [?a >? ?b] => destruct (Z.gtb_spec a b) end;
      lia.
  - intros duration step. rewrite !maxDuration_spec.
    repeat match goal with |- context [?a >? ?b] => destruct (Z.gtb_spec a b) end;
      lia.
  - intros duration step H. rewrite !maxDuration_spec.
    repeat match goal with |- context [?a >? ?b] => destruct (Z.gtb_spec a b) end;
      lia.
Qed.

Lemma wrap64_shift z : exists k, wrap64 z = z + k * 2 ^ 64.
Proof.
  exists (- ((z + 2 ^ 63) / 2 ^ 64)). unfold wrap64.
  rewrite Z.mod_eq by done. lia.
Qed.

Lemma wrap64_period z k : wrap64 (z + k * 2 ^ 64) = wrap64 z.
Proof.
  unfold wrap64. f_equal.
  replace (z + k * 2 ^ 64 + 2 ^ 63) with (z + 2 ^ 63 + k * 2 ^ 64) by lia.
  apply Z_mod_plus_full.
Qed.

Lemma wrap64_idemp z : wrap64 (wrap64 z) = wrap64 z.
Proof. apply wrap64_id, wrap64_range. Qed.

Section LoadWorldFacts.

#[local] Opaque wrap64.

Lemma shifted_window_length cacheTo duration :
  TimeOps.Sub cacheTo (TimeOps.Add cacheTo (- wrap64 duration)) = wrap64 duration.
Proof.
  unfold TimeOps.Sub, TimeOps.Add.
  destruct (wrap64_shift duration) as [k Hk].
  destruct (wrap64_shift (cacheTo + - wrap64 duration)) as [k' Hk'].
  rewrite Hk'.
  replace (cacheTo - (cacheTo + - wrap64 duration + k' * 2 ^ 64))
    with (wrap64 duration + (- k') * 2 ^ 64) by lia.
  by rewrite wrap64_period, wrap64_idemp.
Qed.

End LoadWorldFacts.

(** X23.  When [loadWorld] calls the constructor, the cache is not empty
    and holds the truncated start of the request; the window it passes ends
    at the truncated end of the request or at the latest timestamp of the
    cache, whichever is earlier, so never after the cache; it has the length
    of the truncated request; and the step is the refresh interval raised
    for that length, never lowered. *)
Theorem loadWorld_window_within_cache (cacheTo : Time) (step : Duration)
  (from to from' to' : Time) (step' : Duration) :
  loadWorld cacheTo step from to = Some (from', to', step') ->
  cacheTo <> 0
  /\ TimeOps.Truncate from step <= cacheTo
  /\ to' <= cacheTo
  /\ to' = Z.min (TimeOps.Truncate to step) cacheTo
  /\ TimeOps.Sub to' from'
     = TimeOps.Sub (TimeOps.Truncate to step) (TimeOps.Truncate from step)
  /\ step'
     = increaseStepForBigDurations
         (TimeOps.Sub (TimeOps.Truncate to step) (TimeOps.Truncate from step))
         step
  /\ step <= step'.
Proof.
  unfold loadWorld, Before, TimeOps.IsZero.
  destruct (Z.eqb_spec cacheTo 0) as [|Hz]; [done|].
  destruct (Z.ltb_spec cacheTo (TimeOps.Truncate from step)) as [|Hfrom];
    [done|].
  cbn [orb].
  assert (Hstep : step <= increaseStepForBigDurations
                    (TimeOps.Sub (TimeOps.Truncate to step)
                       (TimeOps.Truncate from step)) step).
  { set (d := TimeOps.Sub _ _). clearbody d.
    unfold increaseStepForBigDurations.
    repeat match goal with |- context [?a >? ?b] => destruct (a >? b) end;
      rewrite ?maxDuration_spec; lia. }
  destruct (Z.ltb_spec cacheTo (TimeOps.Truncate to step)) as [Hto|Hto];
    intros [= <- <- <-].
  - split; [done|]. split; [done|]. split; [lia|]. split; [lia|].
    split; [|by split].
    unfold TimeOps.Sub at 2 3. apply shifted_window_length.
  - split; [done|]. split; [done|]. split; [lia|]. split; [lia|].
    split; [done|by split].
Qed.

Lemma loadWorld_window_within_cache_witness :
  3000 <> 0
  /\ TimeOps.Truncate 1005 15 <= 3000
  /\ 3000 <= 3000
  /\ 3000 = Z.min (TimeOps.Truncate 4610 15) 3000
  /\ TimeOps.Sub 3000 (-600)
     = TimeOps.Sub (TimeOps.Truncate 4610 15) (TimeOps.Truncate 1005 15)
  /\ 15 = increaseStepForBigDurations
            (TimeOps.Sub (TimeOps.Truncate 4610 15) (TimeOps.Truncate 1005 15)) 15
  /\ 15 <= 15.
Proof.
  apply (loadWorld_window_within_cache 3000 15 1005 4610 (-600) 3000 15).
  reflexivity.
Defined.
